(** * GrahamScan: pruning the interior points of a boundary sequence

    A shallow embedding of [src/Geo/ConvexHull/GrahamScan.cpp] (XCSoar).

    Data.  A C++ [double] is a binary64 number: Rocq's primitive [float],
    with the IEEE operations and comparisons of [PrimFloat], each
    operation rounded on its own as the source writes it.  A [GeoPoint]
    is a pair of such numbers, a [SearchPoint] a [GeoPoint] with a payload,
    a [SearchPointVector] (and every [std::vector] / [std::list] of the
    file) a [list].  C++ [int] results ([Sign], [Direction], [factor]) are
    in [Z]; they never leave {-1, 0, 1}.

    Effects.  A [GrahamScan] object lives for one run
    ([GrahamScan gs(sps, tolerance); gs.PruneInterior()]): its members
    [left], [right], the two partition vectors and the two hull vectors
    start empty and are written once each.  Every method is therefore a
    function from what it reads to what it writes, and [PruneInterior]
    maps the boundary sequence to the returned flag and the sequence left
    behind.  A result [None] stands for a run without a defined result (a
    failed [assert], an access outside a container). *)

From Stdlib Require Import List ZArith Bool Lia Floats.
From Stdlib Require Import Permutation Sorted.
Import ListNotations.

Set Implicit Arguments.

(** ** Locations *)

Record GeoPoint : Set := mkGeoPoint { longitude : float; latitude : float }.

(** Modelled from the spec: [GeoPoint::operator-] is declared in
    Geo/GeoPoint.hpp, which is not part of the sources at hand; the spec
    describes it as a subtraction "yielding a planar delta with the same
    two components". *)
Definition GeoPoint_sub (p q : GeoPoint) : GeoPoint :=
  mkGeoPoint (longitude p - longitude q) (latitude p - latitude q).

(** ** The orientation primitive *)

(** [value > tolerance] is [tolerance < value] for IEEE comparisons (both
    are false as soon as one side is a NaN). *)
Definition Sign (value tolerance : float) : Z :=
  if (tolerance <? value)%float then 1%Z
  else if (value <? - tolerance)%float then (-1)%Z
  else 0%Z.

(** [std::max(a, b)] is [(a < b) ? b : a]; [fabs] is [abs]. *)
Definition std_max (a b : float) : float :=
  if (a <? b)%float then b else a.

Definition Direction (p0 p1 p2 : GeoPoint) (tolerance : float) : Z :=
  let delta_a := GeoPoint_sub p0 p1 in
  let delta_b := GeoPoint_sub p2 p1 in
  let a := (longitude delta_a * latitude delta_b)%float in
  let b := (longitude delta_b * latitude delta_a)%float in
  let tolerance :=
    if (tolerance <? 0)%float
    then (std_max (abs a) (abs b) / 10)%float
    else tolerance in
  Sign (a - b)%float tolerance.

(** The comparison of the sort, on locations. *)
Definition location_less (gp1 gp2 : GeoPoint) : bool :=
  if (longitude gp1 <? longitude gp2)%float then true
  else if (longitude gp1 =? longitude gp2)%float
       then (latitude gp1 <? latitude gp2)%float
       else false.

(** The test of the partition loop:
    [loclast.longitude != l.longitude || loclast.latitude != l.latitude]. *)
Definition location_differs (loclast l : GeoPoint) : bool :=
  negb (longitude loclast =? longitude l)%float
  || negb (latitude loclast =? latitude l)%float.

(** ** The algorithm *)

Section GrahamScan.

(** Modelled from the spec: [SearchPoint] is declared in
    Geo/SearchPoint.hpp, which is not part of the sources at hand; the spec
    describes a boundary element as "a value that carries a Point plus
    arbitrary associated payload". *)
Variable Payload : Type.

Record SearchPoint : Type :=
  mkSearchPoint { GetLocation : GeoPoint; payload : Payload }.

(** [std::list::sort(comp)] is a stable sort: elements that [comp] does
    not order keep their relative position.  For a strict weak ordering
    that fixes the result, which the stable insertion sort below computes:
    an element is inserted in front of the first one that is not less than
    it (see [list_sort_perm], [list_sort_sorted], [list_sort_stable]).
    The lambda of [PartitionPoints] is a strict weak ordering on
    coordinates without NaNs.  With a NaN it is not, the library promises
    no order, and an implementation by merging can leave another order
    than the one computed here: what is proved of the sorted order is
    proved for sequences without NaNs. *)
Section Sort.
Variable comp : SearchPoint -> SearchPoint -> bool.

Fixpoint insert_stable (x : SearchPoint) (l : list SearchPoint)
  : list SearchPoint :=
  match l with
  | [] => [x]
  | y :: l' => if comp y x then y :: insert_stable x l' else x :: l
  end.

Definition list_sort (l : list SearchPoint) : list SearchPoint :=
  fold_right insert_stable [] l.
End Sort.

(** The lambda handed to [raw_points.sort]. *)
Definition sort_comp (sp1 sp2 : SearchPoint) : bool :=
  location_less (GetLocation sp1) (GetLocation sp2).

(** What [PartitionPoints] writes. *)
Record Partition : Type := mkPartition {
  left : SearchPoint;
  right : SearchPoint;
  upper_partition_points : list SearchPoint;
  lower_partition_points : list SearchPoint
}.

(** The [for (auto j = begin; j != end; ++j)] loop of [PartitionPoints],
    over the elements from [begin] to [end]; [upper] and [lower] are the
    two vectors as filled so far. *)
Fixpoint partition_loop (left right : SearchPoint) (tolerance : float)
    (loclast : GeoPoint) (js upper lower : list SearchPoint)
  : list SearchPoint * list SearchPoint :=
  match js with
  | [] => (upper, lower)
  | i :: js' =>
      if location_differs loclast (GetLocation i) then
        let dir := Direction (GetLocation left) (GetLocation right)
                             (GetLocation i) tolerance in
        if (dir <? 0)%Z
        then partition_loop left right tolerance (GetLocation i) js'
                            (upper ++ [i]) lower
        else partition_loop left right tolerance (GetLocation i) js'
                            upper (lower ++ [i])
      else partition_loop left right tolerance loclast js' upper lower
  end.

(** [PartitionPoints].  [front()], [back()], [std::next(cbegin())] and
    [std::prev(cend())] need a list of two elements at least (with one, the
    loop would start behind its end); [PruneInterior] calls it with three
    or more. *)
Definition PartitionPoints (raw_vector : list SearchPoint)
    (tolerance : float) : option Partition :=
  match list_sort sort_comp raw_vector with
  | front :: ((_ :: _) as rest) =>
      let left := front in
      let right := last rest front in
      let '(upper, lower) :=
        partition_loop left right tolerance (GetLocation left)
                       (removelast rest) [] [] in
      Some (mkPartition left right upper lower)
  | _ => None
  end.

(** [output.erase(output.begin() + n)]. *)
Definition erase (n : nat) (output : list SearchPoint) : list SearchPoint :=
  firstn n output ++ skipn (S n) output.

(** The [while (output.size() >= 3)] loop of [BuildHalfHull].  A round
    that does not leave the loop erases an element, so the loop is over
    after [output.size()] rounds at most; [rounds] is such a bound, and
    the result is the same for every such bound (see [while_loop_stack]).
    The three indices are below [output.size()] when that is 3 or more:
    the last branch of the [match] is never taken. *)
Fixpoint while_loop (rounds : nat) (tolerance : float) (factor : Z)
    (output : list SearchPoint) (pruned : bool)
  : list SearchPoint * bool :=
  match rounds with
  | O => (output, pruned)
  | S rounds' =>
      if (3 <=? length output)%nat then
        let end_ := length output - 1 in
        match nth_error output (end_ - 2), nth_error output end_,
              nth_error output (end_ - 1) with
        | Some p0, Some p1, Some p2 =>
            if (factor * Direction (GetLocation p0) (GetLocation p1)
                                   (GetLocation p2) tolerance >? 0)%Z
            then (output, pruned)
            else while_loop rounds' tolerance factor
                            (erase (end_ - 1) output) true
        | _, _, _ => (output, pruned)
        end
      else (output, pruned)
  end.

(** The [for (const auto &i : input)] loop of [BuildHalfHull]:
    [output.push_back(i)], then the [while] loop. *)
Fixpoint for_loop (tolerance : float) (factor : Z)
    (input output : list SearchPoint) (pruned : bool)
  : list SearchPoint * bool :=
  match input with
  | [] => (output, pruned)
  | i :: input' =>
      let output := output ++ [i] in
      let '(output, pruned) :=
        while_loop (length output) tolerance factor output pruned in
      for_loop tolerance factor input' output pruned
  end.

(** [BuildHalfHull(input, output, factor)] on an empty [output]:
    [input.push_back(right)], [output.push_back(left)], [pruned = false],
    the loop; returns [output] and [pruned]. *)
Definition BuildHalfHull (left right : SearchPoint) (tolerance : float)
    (input : list SearchPoint) (factor : Z) : list SearchPoint * bool :=
  let input := input ++ [right] in
  let output := [left] in
  for_loop tolerance factor input output false.

(** What [BuildHull] writes, and its result. *)
Record Hulls : Type := mkHulls {
  lower_hull : list SearchPoint;
  upper_hull : list SearchPoint;
  hull_pruned : bool
}.

Definition BuildHull (p : Partition) (tolerance : float) : Hulls :=
  let '(lower_hull, lower_pruned) :=
    BuildHalfHull (left p) (right p) tolerance
                  (lower_partition_points p) 1 in
  let '(upper_hull, upper_pruned) :=
    BuildHalfHull (left p) (right p) tolerance
                  (upper_partition_points p) (-1) in
  mkHulls lower_hull upper_hull (lower_pruned || upper_pruned).

(** The two loops that fill [res]:
    [for (i = 0; i + 1 < lower_hull.size(); i++)] copies all of
    [lower_hull] but its last element;
    [for (i = upper_hull.size() - 1; i >= 1; i--)] copies [upper_hull] from
    its last element down to index 1.  On an empty [upper_hull] the
    unsigned [i] would start at its largest value: no defined result. *)
Definition assemble (lower_hull upper_hull : list SearchPoint)
  : option (list SearchPoint) :=
  match upper_hull with
  | [] => None
  | _ :: from_index_1 => Some (removelast lower_hull ++ rev from_index_1)
  end.

(** [GrahamScan gs(raw_vector, tolerance); gs.PruneInterior()]: the flag
    returned and the contents of the boundary sequence afterwards. *)
Definition PruneInterior (raw_vector : list SearchPoint) (tolerance : float)
  : option (bool * list SearchPoint) :=
  let size := length raw_vector in
  if (size <? 3)%nat then Some (false, raw_vector)
  else
    match PartitionPoints raw_vector tolerance with
    | None => None
    | Some p =>
        let h := BuildHull p tolerance in
        if negb (hull_pruned h) then Some (false, raw_vector)
        else
          match assemble (lower_hull h) (upper_hull h) with
          | None => None
          | Some res =>
              if (length res <=? size)%nat   (* assert(res.size() <= size) *)
              then Some (true, res)
              else None
          end
    end.

(** ** Notions used to state the properties *)

(** The elements of [js] that pass the test of the partition loop, in
    order: those pushed onto one of the two vectors. *)
Fixpoint retained (loclast : GeoPoint) (js : list SearchPoint)
  : list SearchPoint :=
  match js with
  | [] => []
  | i :: js' =>
      if location_differs loclast (GetLocation i)
      then i :: retained (GetLocation i) js'
      else retained loclast js'
  end.

(** The location the loop holds in [loclast] once it has gone through
    [js]: the location of the last element retained, if any. *)
Definition loclast_after (loclast : GeoPoint) (js : list SearchPoint)
  : GeoPoint :=
  last (map GetLocation (retained loclast js)) loclast.

(** The branch of the partition loop: [dir < 0]. *)
Definition goes_upper (left right : SearchPoint) (tolerance : float)
    (i : SearchPoint) : bool :=
  (Direction (GetLocation left) (GetLocation right) (GetLocation i)
             tolerance <? 0)%Z.

(** Each element differs in location from the one before it, the first
    one from [loclast]. *)
Fixpoint differs_from_previous (loclast : GeoPoint) (l : list SearchPoint)
  : Prop :=
  match l with
  | [] => True
  | i :: l' =>
      location_differs loclast (GetLocation i) = true
      /\ differs_from_previous (GetLocation i) l'
  end.

(** The two loops of [BuildHalfHull] on a vector held back to front:
    [top] is [output[end]] (the element just pushed) and [below] lists
    [output[end - 1]], [output[end - 2]], ... down to [output[0]];
    erasing [output[end - 1]] drops the head of [below].  They compute
    what [while_loop] and [for_loop] compute (see [for_loop_stack]). *)
Fixpoint restore_convexity (tolerance : float) (factor : Z)
    (top : SearchPoint) (below : list SearchPoint) (pruned : bool)
  : list SearchPoint * bool :=
  match below with
  | mid :: ((prev :: _) as below') =>
      if (factor * Direction (GetLocation prev) (GetLocation top)
                             (GetLocation mid) tolerance >? 0)%Z
      then (top :: below, pruned)
      else restore_convexity tolerance factor top below' true
  | _ => (top :: below, pruned)
  end.

Fixpoint build_loop (tolerance : float) (factor : Z)
    (input output : list SearchPoint) (pruned : bool)
  : list SearchPoint * bool :=
  match input with
  | [] => (output, pruned)
  | i :: input' =>
      let '(output', pruned') :=
        restore_convexity tolerance factor i output pruned in
      build_loop tolerance factor input' output' pruned'
  end.

(** The test that ends the [while] loop of [BuildHalfHull] holds for any
    three consecutive elements [a], [b], [c] of a vector. *)
Definition convex_chain (tolerance : float) (factor : Z)
    (output : list SearchPoint) : Prop :=
  forall pre a b c post,
    output = pre ++ a :: b :: c :: post ->
    (factor * Direction (GetLocation a) (GetLocation c) (GetLocation b)
                        tolerance > 0)%Z.

(** The same for a vector held back to front. *)
Fixpoint convex_stack (tolerance : float) (factor : Z)
    (output : list SearchPoint) : Prop :=
  match output with
  | c :: ((b :: a :: _) as below) =>
      (factor * Direction (GetLocation a) (GetLocation c) (GetLocation b)
                          tolerance > 0)%Z
      /\ convex_stack tolerance factor below
  | _ => True
  end.

(** Three consecutive elements of a sequence, and of a sequence read as a
    cycle (the last element is followed by the first). *)
Fixpoint consecutive_triples (l : list SearchPoint)
  : list (SearchPoint * SearchPoint * SearchPoint) :=
  match l with
  | a :: ((b :: c :: _) as l') => (a, b, c) :: consecutive_triples l'
  | _ => []
  end.

Definition cyclic_triples (l : list SearchPoint)
  : list (SearchPoint * SearchPoint * SearchPoint) :=
  consecutive_triples (l ++ firstn 2 l).

Definition turn (tolerance : float)
    (t : SearchPoint * SearchPoint * SearchPoint) : Z :=
  let '(p, q, r) := t in
  Direction (GetLocation p) (GetLocation q) (GetLocation r) tolerance.

(** The same three points in the argument order of [BuildHalfHull]: the
    middle one last. *)
Definition turn_as_tested (tolerance : float)
    (t : SearchPoint * SearchPoint * SearchPoint) : Z :=
  let '(p, q, r) := t in
  Direction (GetLocation p) (GetLocation r) (GetLocation q) tolerance.

(** One winding for the whole cycle: every turn non-negative, or every
    turn non-positive. *)
Definition one_winding (tolerance : float) (l : list SearchPoint) : Prop :=
  Forall (fun t => (0 <= turn tolerance t)%Z) (cyclic_triples l)
  \/ Forall (fun t => (turn tolerance t <= 0)%Z) (cyclic_triples l).

(** The number that a finite binary64 number stands for, counted in
    units of 2^-1074: every finite binary64 number is a whole number of
    these units (its exponent is -1074 or more). *)
Definition SFexact (x : spec_float) : Z :=
  match x with
  | S754_finite s m e =>
      ((if s then -1 else 1) * Z.pos m * 2 ^ (e + 1074))%Z
  | _ => 0%Z
  end.

Definition exact_value (x : float) : Z := SFexact (Prim2SF x).

(** Vectors of the plane with whole coordinates, and their cross
    product. *)
Definition vec : Type := (Z * Z)%type.

Definition vsub (p q : vec) : vec :=
  (fst p - fst q, snd p - snd q)%Z.

Definition cross (u v : vec) : Z :=
  (fst u * snd v - fst v * snd u)%Z.

(** The position of a point whose coordinates are finite. *)
Definition position (g : GeoPoint) : vec :=
  (exact_value (longitude g), exact_value (latitude g)).

(** Twice the area of the triangle [o], [a], [b], computed on the
    positions: positive when [o], [a], [b] turn one way, negative when
    they turn the other way, 0 when they are on a line.
    [exact_cross p1 p0 p2] is what [Direction p0 p1 p2] computes in
    binary64, [(p0 - p1) x (p2 - p1)], without rounding. *)
Definition exact_cross (o a b : GeoPoint) : Z :=
  cross (vsub (position a) (position o)) (vsub (position b) (position o)).

(** [p] is strictly inside the triangle [a], [b], [c] (and so inside the
    hull of any set that holds the three): it is strictly on the same
    side of the three sides. *)
Definition strictly_inside_triangle (p a b c : GeoPoint) : Prop :=
  (0 < exact_cross a b p /\ 0 < exact_cross b c p
   /\ 0 < exact_cross c a p)%Z
  \/ (exact_cross a b p < 0 /\ exact_cross b c p < 0
      /\ exact_cross c a p < 0)%Z.

(** Both coordinates are finite: no NaN, no infinity. *)
Definition finite_coordinates (s : SearchPoint) : Prop :=
  is_finite (longitude (GetLocation s)) = true
  /\ is_finite (latitude (GetLocation s)) = true.

(** [Direction] with [tolerance] reports no turn among the elements of
    [l] that their positions do not have: where it returns 1 the cross
    product of the positions is above 0, where it returns -1 it is below
    0 (where it returns 0 nothing is asked).  This holds when the
    subtractions and products of [Direction] are exact; rounding can
    break it. *)
Definition Direction_sound (tolerance : float) (l : list SearchPoint)
  : Prop :=
  forall a b c,
    In a l -> In b l -> In c l ->
    let dir := Direction (GetLocation a) (GetLocation b) (GetLocation c)
                         tolerance in
    let exact := exact_cross (GetLocation b) (GetLocation a)
                             (GetLocation c) in
    ((0 < dir)%Z -> (0 < exact)%Z) /\ ((dir < 0)%Z -> (exact < 0)%Z).

(** An operation of [Direction] on [x] and [y] is exact: its result is
    finite and stands for the difference, or for the product, of the
    numbers that [x] and [y] stand for (a product of two numbers counted
    in units of 2^-1074 is counted in units of 2^-2148). *)
Definition exact_sub (x y : float) : Prop :=
  is_finite (x - y) = true
  /\ exact_value (x - y) = (exact_value x - exact_value y)%Z.

Definition exact_mul (x y : float) : Prop :=
  is_finite (x * y) = true
  /\ (exact_value (x * y) * 2 ^ 1074 = exact_value x * exact_value y)%Z.

(** The four subtractions, the two products and the last subtraction of
    [Direction] are exact on [p0], [p1], [p2]. *)
Definition exact_Direction (p0 p1 p2 : GeoPoint) : Prop :=
  let delta_a := GeoPoint_sub p0 p1 in
  let delta_b := GeoPoint_sub p2 p1 in
  let a := (longitude delta_a * latitude delta_b)%float in
  let b := (longitude delta_b * latitude delta_a)%float in
  exact_sub (longitude p0) (longitude p1)
  /\ exact_sub (latitude p0) (latitude p1)
  /\ exact_sub (longitude p2) (longitude p1)
  /\ exact_sub (latitude p2) (latitude p1)
  /\ exact_mul (longitude delta_a) (latitude delta_b)
  /\ exact_mul (longitude delta_b) (latitude delta_a)
  /\ exact_sub a b.

(** The same as a test. *)
Definition sound_at (tolerance : float) (a b c : SearchPoint) : bool :=
  let dir := Direction (GetLocation a) (GetLocation b) (GetLocation c)
                       tolerance in
  let exact := exact_cross (GetLocation b) (GetLocation a)
                           (GetLocation c) in
  (if (0 <? dir)%Z then (0 <? exact)%Z else true)
  && (if (dir <? 0)%Z then (exact <? 0)%Z else true).

Definition Direction_sound_test (tolerance : float) (l : list SearchPoint)
  : bool :=
  forallb (fun a => forallb (fun b => forallb (sound_at tolerance a b) l) l)
          l.

(** Vectors that go forward, and backward, in the order of the sort:
    to a greater first coordinate, or to a greater second one at the
    same first one. *)
Definition lex_pos (v : vec) : Prop :=
  (0 < fst v \/ (fst v = 0 /\ 0 < snd v))%Z.

Definition lex_neg (v : vec) : Prop :=
  (fst v < 0 \/ (fst v = 0 /\ snd v < 0))%Z.

(** The vectors from each point of a path to the next. *)
Fixpoint edges (c : list vec) : list vec :=
  match c with
  | a :: ((b :: _) as c') => vsub b a :: edges c'
  | _ => []
  end.

(** [e] and [f] are in the cone and [f] turns left of [e]. *)
Definition turns (cone : vec -> Prop) (e f : vec) : Prop :=
  cone e /\ cone f /\ (0 < cross e f)%Z.

(** A path whose edges are in the cone, each turning left of the one
    before it. *)
Definition convex_path (cone : vec -> Prop) (c : list vec) : Prop :=
  Forall cone (edges c) /\ Sorted (turns cone) (edges c).

(** [sp1] is before [sp2] in the order of the sort, and [sp1] is not
    after [sp2]. *)
Definition before (sp1 sp2 : SearchPoint) : Prop := sort_comp sp1 sp2 = true.

Definition not_after (sp1 sp2 : SearchPoint) : Prop :=
  sort_comp sp2 sp1 = false.

(** No coordinate is a NaN: the comparison of the sort is then a strict
    weak ordering, as [std::list::sort] requires. *)
Definition no_nan (s : SearchPoint) : Prop :=
  is_nan (longitude (GetLocation s)) = false
  /\ is_nan (latitude (GetLocation s)) = false.

End GrahamScan.

Arguments mkSearchPoint {Payload}.
Arguments GetLocation {Payload}.
Arguments payload {Payload}.
Arguments no_nan {Payload}.
Arguments finite_coordinates {Payload}.

(** [l1] is [l2] with some elements left out. *)
Inductive sublist {A : Type} : list A -> list A -> Prop :=
| sublist_nil : sublist [] []
| sublist_skip x l1 l2 : sublist l1 l2 -> sublist l1 (x :: l2)
| sublist_cons x l1 l2 : sublist l1 l2 -> sublist (x :: l1) (x :: l2).

(** A zero or a finite number, in the specification of binary64. *)
Definition SFfinite (x : spec_float) : bool :=
  match x with
  | S754_zero _ | S754_finite _ _ _ => true
  | _ => false
  end.

(** A zero or a NaN, in the specification of binary64. *)
Definition SFnull (x : spec_float) : bool :=
  match x with
  | S754_zero _ | S754_nan => true
  | _ => false
  end.

Definition null (x : float) : Prop := SFnull (Prim2SF x) = true.

(** Two numbers that are the same number, or that compare equal (two
    zeros of different sign), in the specification of binary64. *)
Definition SFsame (x y : spec_float) : Prop := x = y \/ SFeqb x y = true.

(** ** Sample sequences

    The payload of a sample element is its index in the sequence that is
    given to [PruneInterior]. *)

Definition sample (longitude latitude : float) (index : nat)
  : SearchPoint nat :=
  mkSearchPoint (mkGeoPoint longitude latitude) index.

(** The corners of a square and a point inside, and the corners alone. *)
Definition square_and_centre : list (SearchPoint nat) :=
  [sample 0 0 0; sample 0 10 1; sample 10 10 2; sample 10 0 3;
   sample 5 5 4].

Definition square_pruned : list (SearchPoint nat) :=
  [sample 0 0 0; sample 10 0 3; sample 10 10 2; sample 0 10 1].

Definition square : list (SearchPoint nat) :=
  [sample 0 0 0; sample 0 10 1; sample 10 10 2; sample 10 0 3].

(** What [PartitionPoints] and [BuildHull] write for [square_and_centre]
    with tolerance 0. *)
Definition square_partition : Partition nat :=
  mkPartition (sample 0 0 0) (sample 10 10 2)
              [sample 0 10 1] [sample 5 5 4; sample 10 0 3].

Definition square_lower_hull : list (SearchPoint nat) :=
  [sample 0 0 0; sample 10 0 3; sample 10 10 2].

Definition square_upper_hull : list (SearchPoint nat) :=
  [sample 0 0 0; sample 0 10 1; sample 10 10 2].

Definition square_alone_partition : Partition nat :=
  mkPartition (sample 0 0 0) (sample 10 10 2)
              [sample 0 10 1] [sample 10 0 3].

(** Five elements at three locations. *)
Definition with_duplicates : list (SearchPoint nat) :=
  [sample 3 0 0; sample 1 1 1; sample 0 0 2; sample 1 1 3; sample 0 0 4].

Definition with_duplicates_partition : Partition nat :=
  mkPartition (sample 0 0 2) (sample 3 0 0) [sample 1 1 1] [].

(** Five points with coordinates written in tenths, each the binary64
    number next to the decimal, as a C++ compiler reads it.  In decimals
    (0.3, 0.1), (0.5, 0.3) and (1.0, 0.8) are on one line. *)
#[local] Set Warnings "-inexact-float".

Definition tenths_0 : SearchPoint nat := sample 0.5 0.3 0.
Definition tenths_1 : SearchPoint nat := sample 0.6 0.3 1.
Definition tenths_2 : SearchPoint nat := sample 1.0 0.5 2.
Definition tenths_3 : SearchPoint nat := sample 1.0 0.8 3.
Definition tenths_4 : SearchPoint nat := sample 0.3 0.1 4.

#[local] Set Warnings "inexact-float".

Definition tenths : list (SearchPoint nat) :=
  [tenths_0; tenths_1; tenths_2; tenths_3; tenths_4].

Definition tenths_pruned : list (SearchPoint nat) :=
  [tenths_4; tenths_2; tenths_3; tenths_0].

(** What is left of them with the tolerance computed by [Direction]. *)
Definition tenths_pruned_auto : list (SearchPoint nat) :=
  [tenths_4; tenths_2; tenths_3].

(** Five elements, one with a NaN as longitude, and what two runs leave
    of them. *)
Definition with_nan : list (SearchPoint nat) :=
  [sample 2 1 0; sample 2 3 1; sample nan 1 2; sample 1 1 3; sample 3 0 4].

Definition with_nan_pruned : list (SearchPoint nat) :=
  [sample 2 1 0; sample 1 1 3; sample 3 0 4; sample 2 3 1].

Definition with_nan_pruned_twice : list (SearchPoint nat) :=
  [sample 1 1 3; sample 3 0 4; sample 2 3 1].

(** * Properties *)

Unset Implicit Arguments.

(** ** IEEE comparisons and arithmetic *)

Ltac case_compare :=
  repeat match goal with
  | H : context [Z.compare ?a ?b] |- _ =>
      destruct (Z.compare_spec a b); subst
  | |- context [Z.compare ?a ?b] =>
      destruct (Z.compare_spec a b); subst
  | H : context [Pos.compare_cont Eq ?a ?b] |- _ =>
      change (Pos.compare_cont Eq a b) with (Pos.compare a b) in *;
      destruct (Pos.compare_spec a b); subst
  | |- context [Pos.compare_cont Eq ?a ?b] =>
      change (Pos.compare_cont Eq a b) with (Pos.compare a b) in *;
      destruct (Pos.compare_spec a b); subst
  end;
  simpl in *; try discriminate; try reflexivity; try lia.

Ltac list_length :=
  repeat (progress (rewrite ?length_app, ?length_rev in *; cbn [length] in *));
  try lia.

Ltac case_floats :=
  repeat match goal with
  | x : spec_float |- _ => destruct x
  | s : bool |- _ => destruct s
  end; simpl in *; try discriminate; try reflexivity.

Lemma SFcompare_sym x y :
  SFcompare y x = option_map CompOpp (SFcompare x y).
Proof. case_floats; case_compare. Qed.

Lemma SFcompare_total x y :
  x <> S754_nan -> y <> S754_nan -> exists c, SFcompare x y = Some c.
Proof. intros Hx Hy. destruct x, y; try congruence; simpl; eauto. Qed.

Lemma SFcompare_lt_trans x y z :
  SFcompare x y = Some Lt -> SFcompare y z = Some Lt ->
  SFcompare x z = Some Lt.
Proof. intros H1 H2. case_floats; f_equal; case_compare. Qed.

Lemma SFcompare_eq_l x y z :
  SFcompare x y = Some Eq -> SFcompare x z = SFcompare y z.
Proof. intros H1. case_floats; f_equal; case_compare. Qed.

Lemma SFcompare_eq_r x y z :
  SFcompare x y = Some Eq -> SFcompare z x = SFcompare z y.
Proof. intros H1. case_floats; f_equal; case_compare. Qed.

Lemma SFsub_null_of_eqb x y :
  SFeqb x y = true -> SFnull (SF64sub x y) = true.
Proof.
  unfold SFeqb, SF64sub, SFsub. intros H.
  destruct x as [sx|sx| |sx mx ex], y as [sy|sy| |sy my ey];
    try destruct sx; try destruct sy;
    simpl in H; try discriminate; try reflexivity.
  all: assert (mx = my /\ ex = ey) as (-> & ->) by (case_compare; auto).
  all: rewrite Z.sub_diag; reflexivity.
Qed.

Lemma SFmul_null_r x y : SFnull y = true -> SFnull (SF64mul x y) = true.
Proof. destruct x, y; simpl; intros; try discriminate; reflexivity. Qed.

Lemma SFmul_null_l x y : SFnull x = true -> SFnull (SF64mul x y) = true.
Proof. destruct x, y; simpl; intros; try discriminate; reflexivity. Qed.

Lemma SFsub_null x y :
  SFnull x = true -> SFnull y = true -> SFnull (SF64sub x y) = true.
Proof.
  destruct x as [sx|sx| |sx mx ex], y as [sy|sy| |sy my ey]; simpl; intros;
    try discriminate; try reflexivity.
  destruct sx, sy; reflexivity.
Qed.

Lemma SFabs_null x : SFnull x = true -> SFnull (SFabs x) = true.
Proof. destruct x; simpl; intros; try discriminate; reflexivity. Qed.

Lemma SFdiv_null_10 x :
  SFnull x = true -> SFnull (SF64div x (Prim2SF 10)) = true.
Proof.
  change (Prim2SF 10) with (S754_finite false 5629499534213120 (-49)).
  destruct x; simpl; intros; try discriminate; reflexivity.
Qed.

Lemma SFltb_null_nonneg t :
  SFnull t = true -> SFltb t (S754_zero false) = false.
Proof. destruct t; simpl; intros; try discriminate; auto. Qed.

(** [v] is a zero or a NaN and [t] is not below zero: then neither
    [t < v] nor [v < -t]. *)
Lemma SFltb_null_above t v :
  SFnull v = true -> SFltb t (S754_zero false) = false -> SFltb t v = false.
Proof. destruct v, t; simpl; intros; try discriminate; auto. Qed.

Lemma SFltb_null_below t v :
  SFnull v = true -> SFltb t (S754_zero false) = false ->
  SFltb v (SFopp t) = false.
Proof.
  destruct v, t as [st|st| |st mt et]; simpl; intros Hv Ht;
    try discriminate; auto;
    destruct st; simpl in *; try discriminate; auto.
Qed.

Lemma SFltb_trans x y z :
  SFltb x y = true -> SFltb y z = true -> SFltb x z = true.
Proof.
  unfold SFltb. intros H1 H2.
  destruct (SFcompare x y) as [[]|] eqn:E1; try discriminate.
  destruct (SFcompare y z) as [[]|] eqn:E2; try discriminate.
  now rewrite (SFcompare_lt_trans _ _ _ E1 E2).
Qed.

Lemma SFltb_asym x y : SFltb x y = true -> SFltb y x = false.
Proof.
  unfold SFltb. rewrite (SFcompare_sym x y).
  destruct (SFcompare x y) as [[]|]; simpl; intros; congruence.
Qed.

Lemma SFeqb_sym x y : SFeqb x y = SFeqb y x.
Proof.
  unfold SFeqb. rewrite (SFcompare_sym x y).
  destruct (SFcompare x y) as [[]|]; reflexivity.
Qed.

Lemma SFeqb_not_ltb x y : SFeqb x y = true -> SFltb x y = false.
Proof.
  unfold SFeqb, SFltb. destruct (SFcompare x y) as [[]|]; congruence.
Qed.

Lemma SFeqb_Eq x y : SFeqb x y = true -> SFcompare x y = Some Eq.
Proof.
  unfold SFeqb. destruct (SFcompare x y) as [[]|]; congruence.
Qed.

Lemma SFcompare_trichotomy x y :
  SFeqb x x = true -> SFeqb y y = true ->
  SFltb x y = false -> SFltb y x = false -> SFeqb x y = true.
Proof.
  unfold SFeqb, SFltb. rewrite (SFcompare_sym x y).
  intros Hx Hy.
  assert (Nx : x <> S754_nan) by (intros ->; discriminate).
  assert (Ny : y <> S754_nan) by (intros ->; discriminate).
  destruct (SFcompare_total x y Nx Ny) as [[] E]; rewrite E; simpl;
    congruence.
Qed.

(** The same on [float], through the specification of the primitives. *)

Lemma ltb_trans x y z :
  (x <? y)%float = true -> (y <? z)%float = true -> (x <? z)%float = true.
Proof. rewrite !ltb_spec. apply SFltb_trans. Qed.

Lemma ltb_asym x y : (x <? y)%float = true -> (y <? x)%float = false.
Proof. rewrite !ltb_spec. apply SFltb_asym. Qed.

Lemma eqb_sym x y : (x =? y)%float = (y =? x)%float.
Proof. rewrite !eqb_spec. apply SFeqb_sym. Qed.

Lemma eqb_not_ltb x y : (x =? y)%float = true -> (x <? y)%float = false.
Proof. rewrite eqb_spec, ltb_spec. apply SFeqb_not_ltb. Qed.

Lemma eqb_ltb_l x y z :
  (x =? y)%float = true -> (x <? z)%float = (y <? z)%float.
Proof.
  rewrite eqb_spec, !ltb_spec. intros H. unfold SFltb.
  now rewrite (SFcompare_eq_l _ _ (Prim2SF z) (SFeqb_Eq _ _ H)).
Qed.

Lemma eqb_ltb_r x y z :
  (x =? y)%float = true -> (z <? x)%float = (z <? y)%float.
Proof.
  rewrite eqb_spec, !ltb_spec. intros H. unfold SFltb.
  now rewrite (SFcompare_eq_r _ _ (Prim2SF z) (SFeqb_Eq _ _ H)).
Qed.

Lemma eqb_eqb_l x y z :
  (x =? y)%float = true -> (x =? z)%float = (y =? z)%float.
Proof.
  rewrite !eqb_spec. intros H. unfold SFeqb.
  now rewrite (SFcompare_eq_l _ _ (Prim2SF z) (SFeqb_Eq _ _ H)).
Qed.

Lemma ltb_trichotomy x y :
  is_nan x = false -> is_nan y = false ->
  (x <? y)%float = false -> (y <? x)%float = false -> (x =? y)%float = true.
Proof.
  unfold is_nan. rewrite !negb_false_iff, !eqb_spec, !ltb_spec.
  apply SFcompare_trichotomy.
Qed.

Lemma leb_not_ltb x y : (x <=? y)%float = true -> (y <? x)%float = false.
Proof.
  rewrite leb_spec, ltb_spec. unfold SFleb, SFltb.
  rewrite (SFcompare_sym (Prim2SF x) (Prim2SF y)).
  destruct (SFcompare (Prim2SF x) (Prim2SF y)) as [[]|]; simpl; congruence.
Qed.

Lemma sub_null_of_eqb x y : (x =? y)%float = true -> null (x - y)%float.
Proof. unfold null. rewrite eqb_spec, sub_spec. apply SFsub_null_of_eqb. Qed.

Lemma mul_null_r x y : null y -> null (x * y)%float.
Proof. unfold null. rewrite mul_spec. apply SFmul_null_r. Qed.

Lemma mul_null_l x y : null x -> null (x * y)%float.
Proof. unfold null. rewrite mul_spec. apply SFmul_null_l. Qed.

Lemma sub_null x y : null x -> null y -> null (x - y)%float.
Proof. unfold null. rewrite sub_spec. apply SFsub_null. Qed.

Lemma abs_null x : null x -> null (abs x).
Proof. unfold null. rewrite abs_spec. apply SFabs_null. Qed.

Lemma std_max_null x y : null x -> null y -> null (std_max x y).
Proof. unfold std_max. destruct (x <? y)%float; auto. Qed.

Lemma div_10_null x : null x -> null (x / 10)%float.
Proof. unfold null. rewrite div_spec. apply SFdiv_null_10. Qed.

Lemma null_not_below_zero x : null x -> (x <? 0)%float = false.
Proof. unfold null. rewrite ltb_spec. apply SFltb_null_nonneg. Qed.

(** [Sign] of a zero or a NaN, for a tolerance that is not below zero. *)
Lemma Sign_null v t : null v -> (t <? 0)%float = false -> Sign v t = 0%Z.
Proof.
  unfold null. intros Hv Ht. unfold Sign. rewrite ltb_spec in Ht.
  change (Prim2SF 0) with (S754_zero false) in Ht.
  rewrite !ltb_spec, opp_spec.
  rewrite (SFltb_null_above _ _ Hv Ht), (SFltb_null_below _ _ Hv Ht).
  reflexivity.
Qed.

(** The tolerance that [Direction] hands to [Sign] is not below zero:
    it is the tolerance given when that is not below zero, and otherwise
    an absolute value (or the greater of two) divided by 10. *)
Lemma SFround_not_below_zero mx ex lx :
  SFltb (binary_round_aux prec emax false mx ex lx) (S754_zero false) = false.
Proof.
  unfold binary_round_aux.
  destruct (shr_fexp prec emax mx ex lx) as [mrs' e'].
  destruct (shr_fexp prec emax _ e' loc_Exact) as [mrs'' e''].
  destruct (shr_m mrs''); try reflexivity.
  destruct (Z.leb e'' (Z.sub emax prec)); reflexivity.
Qed.

Lemma SFdiv_abs_not_below_zero x :
  SFltb (SF64div (SFabs x) (Prim2SF 10)) (S754_zero false) = false.
Proof.
  change (Prim2SF 10) with (S754_finite false 5629499534213120 (-49)).
  destruct x as [s|s| |s m e]; try reflexivity.
  unfold SF64div, SFabs, SFdiv.
  destruct (SFdiv_core_binary _ _ _ _ _ _) as [[mz ez] lz].
  apply SFround_not_below_zero.
Qed.

Lemma auto_tolerance_not_below_zero a b :
  (std_max (abs a) (abs b) / 10 <? 0)%float = false.
Proof.
  rewrite ltb_spec, div_spec. change (Prim2SF 0) with (S754_zero false).
  unfold std_max. destruct (abs a <? abs b)%float;
    rewrite abs_spec; apply SFdiv_abs_not_below_zero.
Qed.

(** With a tolerance that is not below zero, [value > tolerance] and
    [value < -tolerance] exclude each other. *)
Lemma SFltb_opp_below_zero t :
  SFltb t (SFopp t) = true -> SFltb t (S754_zero false) = true.
Proof.
  destruct t as [s|s| |s m e]; try destruct s; simpl; try discriminate;
    auto.
Qed.

Lemma Sign_exclusive v t :
  (t <? 0)%float = false -> (t <? v)%float = true ->
  (v <? - t)%float = false.
Proof.
  intros Ht Hv. destruct (v <? - t)%float eqn:E; auto.
  pose proof (ltb_trans _ _ _ Hv E) as H.
  rewrite ltb_spec, opp_spec in H. apply SFltb_opp_below_zero in H.
  rewrite ltb_spec in Ht. change (Prim2SF 0) with (S754_zero false) in Ht.
  congruence.
Qed.

(** ** The order of the sort, on locations *)

Lemma location_less_trans p q r :
  location_less p q = true -> location_less q r = true ->
  location_less p r = true.
Proof.
  unfold location_less. intros H1 H2.
  destruct (longitude p <? longitude q)%float eqn:A.
  - destruct (longitude q <? longitude r)%float eqn:B.
    + now rewrite (ltb_trans _ _ _ A B).
    + destruct (longitude q =? longitude r)%float eqn:C; try discriminate.
      rewrite (eqb_ltb_r _ _ (longitude p) C) in A. now rewrite A.
  - destruct (longitude p =? longitude q)%float eqn:C; try discriminate.
    rewrite (eqb_ltb_l _ _ (longitude r) C), (eqb_eqb_l _ _ (longitude r) C).
    destruct (longitude q <? longitude r)%float; auto.
    destruct (longitude q =? longitude r)%float; try discriminate.
    eapply ltb_trans; eauto.
Qed.

Lemma location_less_asym p q :
  location_less p q = true -> location_less q p = false.
Proof.
  unfold location_less. intros H.
  destruct (longitude p <? longitude q)%float eqn:A.
  - rewrite (ltb_asym _ _ A).
    destruct (longitude q =? longitude p)%float eqn:C; auto.
    rewrite eqb_sym in C. apply eqb_not_ltb in C. congruence.
  - destruct (longitude p =? longitude q)%float eqn:C; try discriminate.
    rewrite eqb_sym in C. rewrite (eqb_not_ltb _ _ C), C.
    now apply ltb_asym.
Qed.

Lemma location_less_irrefl p : location_less p p = false.
Proof.
  destruct (location_less p p) eqn:E; auto.
  now rewrite (location_less_asym _ _ E) in E.
Qed.

Lemma location_differs_sym p q : location_differs p q = location_differs q p.
Proof.
  unfold location_differs.
  now rewrite (eqb_sym (longitude p)), (eqb_sym (latitude p)).
Qed.

Lemma location_differs_false p q :
  location_differs p q = false <->
  (longitude p =? longitude q)%float = true
  /\ (latitude p =? latitude q)%float = true.
Proof.
  unfold location_differs. rewrite orb_false_iff, !negb_false_iff. tauto.
Qed.

Lemma location_less_differs p q :
  location_less p q = true -> location_differs p q = true.
Proof.
  unfold location_less. intros H.
  destruct (location_differs p q) eqn:D; auto.
  apply location_differs_false in D as [D1 D2].
  rewrite (eqb_not_ltb _ _ D1), D1, (eqb_not_ltb _ _ D2) in H. discriminate.
Qed.

Lemma location_less_same_l p q r :
  location_differs p q = false -> location_less p r = location_less q r.
Proof.
  intros [D1 D2]%location_differs_false. unfold location_less.
  now rewrite (eqb_ltb_l _ _ _ D1), (eqb_eqb_l _ _ _ D1), (eqb_ltb_l _ _ _ D2).
Qed.

Lemma location_less_same_r p q r :
  location_differs p q = false -> location_less r p = location_less r q.
Proof.
  intros [D1 D2]%location_differs_false. unfold location_less.
  rewrite (eqb_ltb_r _ _ _ D1), (eqb_ltb_r _ _ _ D2).
  rewrite (eqb_sym (longitude r)), (eqb_eqb_l _ _ _ D1).
  now rewrite (eqb_sym (longitude q)).
Qed.

Lemma location_trichotomy p q :
  is_nan (longitude p) = false -> is_nan (latitude p) = false ->
  is_nan (longitude q) = false -> is_nan (latitude q) = false ->
  location_less p q = false -> location_less q p = false ->
  location_differs p q = false.
Proof.
  unfold location_less. intros Np1 Np2 Nq1 Nq2 H1 H2.
  apply location_differs_false.
  destruct (longitude p <? longitude q)%float eqn:A; try discriminate.
  destruct (longitude q <? longitude p)%float eqn:B; try discriminate.
  pose proof (ltb_trichotomy _ _ Np1 Nq1 A B) as C.
  rewrite C in H1. rewrite eqb_sym, C in H2.
  split; auto. now apply ltb_trichotomy.
Qed.

(** ** The orientation primitive on coincident points *)

(** When [p2] is at the location of [p1], both products are zeros or
    NaNs, and so is the tolerance when it is computed: [Direction] is 0. *)
Lemma Direction_same_location p0 p1 p2 tolerance :
  location_differs p1 p2 = false -> Direction p0 p1 p2 tolerance = 0%Z.
Proof.
  intros [D1 D2]%location_differs_false. rewrite eqb_sym in D1, D2.
  apply sub_null_of_eqb in D1, D2.
  unfold Direction, GeoPoint_sub; cbn [longitude latitude].
  set (a := (_ * _)%float). set (b := (_ * _)%float).
  assert (Ha : null a) by now apply mul_null_r.
  assert (Hb : null b) by now apply mul_null_l.
  apply Sign_null.
  - now apply sub_null.
  - destruct (tolerance <? 0)%float eqn:T; auto.
    apply null_not_below_zero, div_10_null, std_max_null; now apply abs_null.
Qed.

(** ** The orientation primitive on exchanged points, and on NaNs *)

(** Only a NaN is not equal to itself. *)
Lemma SFeqb_refl_nan x : SFeqb x x = false -> x = S754_nan.
Proof.
  unfold SFeqb. destruct x as [s|s| |s m e]; try destruct s; simpl;
    try discriminate; auto.
  - rewrite Z.compare_refl, Pos.compare_cont_refl. discriminate.
  - rewrite Z.compare_refl, Pos.compare_cont_refl. discriminate.
Qed.

Lemma is_nan_spec x : is_nan x = true -> Prim2SF x = S754_nan.
Proof.
  unfold is_nan. rewrite eqb_spec. intros H. apply SFeqb_refl_nan.
  now destruct (SFeqb _ _).
Qed.

Lemma SFltb_nan_r x : SFltb x S754_nan = false.
Proof. now destruct x as [[]|[]| |[] ? ?]. Qed.

(** Comparisons of opposites. *)
Lemma SFcompare_opp x y : SFcompare (SFopp x) (SFopp y) = SFcompare y x.
Proof. case_floats; case_compare. Qed.

Lemma SFopp_involutive x : SFopp (SFopp x) = x.
Proof. case_floats. Qed.

Lemma SFltb_opp x y : SFltb (SFopp x) (SFopp y) = SFltb y x.
Proof. unfold SFltb. now rewrite SFcompare_opp. Qed.

Lemma SFltb_opp_r x y : SFltb x (SFopp y) = SFltb y (SFopp x).
Proof. now rewrite <- (SFopp_involutive x) at 1; rewrite SFltb_opp. Qed.

(** Rounding does not look at the sign: [y - x] is the opposite of
    [x - y], or both are the zero that an exact difference of 0 gives. *)
Lemma binary_round_aux_opp s mx ex lx :
  binary_round_aux prec emax (negb s) mx ex lx
  = SFopp (binary_round_aux prec emax s mx ex lx).
Proof.
  unfold binary_round_aux.
  destruct (shr_fexp prec emax mx ex lx) as [mrs' e'].
  destruct (shr_fexp _ _ _ _ _) as [mrs'' e''].
  destruct (shr_m mrs''); try reflexivity.
  now destruct (_ <=? _)%Z.
Qed.

Lemma binary_round_opp s m e :
  binary_round prec emax (negb s) m e = SFopp (binary_round prec emax s m e).
Proof.
  unfold binary_round. destruct (shl_align _ _ _) as [mz ez].
  apply binary_round_aux_opp.
Qed.

Lemma binary_normalize_opp m e :
  binary_normalize prec emax (- m) e false
  = SFopp (binary_normalize prec emax m e false)
  \/ (binary_normalize prec emax (- m) e false = S754_zero false
      /\ binary_normalize prec emax m e false = S754_zero false).
Proof.
  destruct m as [|p|p]; simpl.
  - now right.
  - left. apply (binary_round_opp false).
  - left. rewrite <- (binary_round_opp true). reflexivity.
Qed.

Lemma SFsub_swap x y :
  SF64sub y x = SFopp (SF64sub x y)
  \/ (SF64sub y x = S754_zero false /\ SF64sub x y = S754_zero false).
Proof.
  unfold SF64sub, SFsub.
  destruct x as [sx|sx| |sx mx ex], y as [sy|sy| |sy my ey];
    try (destruct sx, sy; simpl; auto; fail);
    try (destruct sx; simpl; auto; fail);
    try (destruct sy; simpl; auto; fail); auto.
  cbv zeta. replace (IntDef.Z.min ey ex) with (IntDef.Z.min ex ey).
  2:{ change IntDef.Z.min with Z.min. apply Z.min_comm. }
  set (A := cond_Zopp sx _). set (B := cond_Zopp sy _).
  replace (B - A)%Z with (- (A - B))%Z by lia.
  apply binary_normalize_opp.
Qed.

(** Two absolute values that compare equal are the same number. *)
Lemma SFeqb_abs x y : SFeqb (SFabs x) (SFabs y) = true -> SFabs x = SFabs y.
Proof.
  unfold SFeqb. intros H.
  destruct x as [sx|sx| |sx mx ex], y as [sy|sy| |sy my ey];
    simpl in *; try discriminate; auto.
  destruct (Z.compare_spec ex ey); try discriminate. subst.
  change (Pos.compare_cont Eq mx my) with (Pos.compare mx my) in H.
  destruct (Pos.compare_spec mx my); try discriminate. now subst.
Qed.

Lemma SFeqb_abs_refl x : x <> S754_nan -> SFeqb (SFabs x) (SFabs x) = true.
Proof.
  destruct x as [s|s| |s m e]; try congruence; try reflexivity.
  intros _. unfold SFeqb. cbn.
  now rewrite Z.compare_refl, Pos.compare_cont_refl.
Qed.

(** [Sign] on a NaN, on opposites, and on numbers that compare equal. *)
Lemma Sign_of_nan v t :
  Prim2SF v = S754_nan \/ Prim2SF t = S754_nan -> Sign v t = 0%Z.
Proof.
  unfold Sign. rewrite !ltb_spec, opp_spec.
  intros [-> | ->]; cbn [SFopp]; now rewrite ?SFltb_nan_r.
Qed.

Lemma Sign_opp v t :
  (t <? 0)%float = false -> Sign (- v) t = (- Sign v t)%Z.
Proof.
  intros Ht. unfold Sign.
  assert (E1 : (t <? - v)%float = (v <? - t)%float).
  { rewrite !ltb_spec, !opp_spec. apply SFltb_opp_r. }
  assert (E2 : (- v <? - t)%float = (t <? v)%float).
  { rewrite !ltb_spec, !opp_spec. apply SFltb_opp. }
  rewrite E1, E2.
  destruct (t <? v)%float eqn:A.
  - now rewrite (Sign_exclusive _ _ Ht A).
  - now destruct (v <? - t)%float.
Qed.

Lemma Sign_eqb v v' t : (v =? v')%float = true -> Sign v t = Sign v' t.
Proof.
  intros E. unfold Sign.
  now rewrite (eqb_ltb_r _ _ t E), (eqb_ltb_l _ _ (- t)%float E).
Qed.

Lemma sub_swap a b :
  (b - a = - (a - b))%float \/ (b - a =? - (a - b))%float = true.
Proof.
  destruct (SFsub_swap (Prim2SF a) (Prim2SF b)) as [E|[E1 E2]].
  - left. apply Prim2SF_inj. now rewrite opp_spec, !sub_spec.
  - right. rewrite eqb_spec, opp_spec, !sub_spec, E1, E2. reflexivity.
Qed.

(** [std::max(fabs(a), fabs(b))] does not depend on the order of its
    arguments when neither is a NaN. *)
Lemma std_max_abs_sym a b :
  Prim2SF a <> S754_nan -> Prim2SF b <> S754_nan ->
  std_max (abs a) (abs b) = std_max (abs b) (abs a).
Proof.
  intros Ha Hb. unfold std_max.
  destruct (abs a <? abs b)%float eqn:A.
  - now rewrite (ltb_asym _ _ A).
  - destruct (abs b <? abs a)%float eqn:B; auto.
    apply Prim2SF_inj. rewrite ltb_spec, !abs_spec in A, B.
    rewrite !abs_spec. symmetry. apply SFeqb_abs.
    apply SFcompare_trichotomy; auto.
    + now apply SFeqb_abs_refl.
    + now apply SFeqb_abs_refl.
Qed.

Lemma sub_nan a b :
  Prim2SF a = S754_nan \/ Prim2SF b = S754_nan ->
  Prim2SF (a - b) = S754_nan.
Proof.
  rewrite sub_spec. intros [-> | ->]; [reflexivity|].
  now destruct (Prim2SF a) as [[]|[]| |[] ? ?].
Qed.

(** Exchanging [p0] and [p2] exchanges the two products. *)
Lemma Direction_swap p0 p1 p2 tolerance :
  Direction p2 p1 p0 tolerance = (- Direction p0 p1 p2 tolerance)%Z.
Proof.
  unfold Direction, GeoPoint_sub; cbn [longitude latitude].
  set (a := (_ * _)%float). set (b := (_ * _)%float).
  assert (N : forall x, Prim2SF x = S754_nan \/ Prim2SF x <> S754_nan).
  { intros x. destruct (Prim2SF x); auto; right; discriminate. }
  destruct (N a) as [Na|Na]; [|destruct (N b) as [Nb|Nb]].
  - rewrite !Sign_of_nan; auto; left; apply sub_nan; auto.
  - rewrite !Sign_of_nan; auto; left; apply sub_nan; auto.
  - rewrite (std_max_abs_sym b a Nb Na).
    set (t := if (tolerance <? 0)%float then _ else _).
    assert (Ht : (t <? 0)%float = false).
    { unfold t. destruct (tolerance <? 0)%float eqn:E; auto.
      apply auto_tolerance_not_below_zero. }
    rewrite <- (Sign_opp _ _ Ht).
    destruct (sub_swap b a) as [->|E]; [reflexivity|].
    now apply Sign_eqb.
Qed.

(** Numbers that compare equal are the same number or two zeros; the
    operations of [Direction] keep that. *)
Lemma SFeqb_cases x y :
  SFeqb x y = true ->
  x = y \/ exists s s', x = S754_zero s /\ y = S754_zero s'.
Proof.
  unfold SFeqb. intros H.
  destruct x as [sx|sx| |sx mx ex], y as [sy|sy| |sy my ey];
    try (destruct sx, sy; simpl in H; try discriminate; auto; fail);
    try (destruct sx; simpl in H; discriminate);
    try (destruct sy; simpl in H; discriminate);
    try discriminate; eauto.
  left. destruct sx, sy; simpl in H; try discriminate;
    destruct (Z.compare_spec ex ey); try discriminate; subst;
    change (Pos.compare_cont Eq mx my) with (Pos.compare mx my) in H;
    destruct (Pos.compare_spec mx my); try discriminate; now subst.
Qed.

Lemma SFsame_cases x y :
  SFsame x y ->
  x = y \/ exists s s', x = S754_zero s /\ y = S754_zero s'.
Proof. intros [H|H]; auto. now apply SFeqb_cases. Qed.

Lemma SFsame_sub_l x x' z :
  SFsame x x' -> SFsame (SF64sub x z) (SF64sub x' z).
Proof.
  intros [->|(s & s' & -> & ->)]%SFsame_cases; [now left|].
  destruct z as [sz|sz| |sz mz ez]; [|now left..].
  right. now destruct s, s', sz.
Qed.

Lemma SFsame_mul x x' y y' :
  SFsame x x' -> SFsame y y' -> SFsame (SF64mul x y) (SF64mul x' y').
Proof.
  intros [->|(s & s' & -> & ->)]%SFsame_cases
         [->|(t & t' & -> & ->)]%SFsame_cases.
  - now left.
  - destruct x' as [sx|sx| |sx mx ex]; try (now left);
      right; now destruct sx, t, t'.
  - destruct y' as [sy|sy| |sy my ey]; try (now left);
      right; now destruct sy, s, s'.
  - right. now destruct s, s', t, t'.
Qed.

Lemma SFsame_sub_null x y : SFsame x y -> SFnull (SF64sub x y) = true.
Proof.
  intros [->|H]; [|now apply SFsub_null_of_eqb].
  destruct y as [[]|[]| |[] m e]; try reflexivity;
    apply SFsub_null_of_eqb; unfold SFeqb; cbn;
    now rewrite Z.compare_refl, Pos.compare_cont_refl.
Qed.

Lemma sub_same_l x x' z :
  (x =? x')%float = true -> SFsame (Prim2SF (x - z)) (Prim2SF (x' - z)).
Proof.
  intros H. rewrite !sub_spec. apply SFsame_sub_l. right.
  now rewrite <- eqb_spec.
Qed.

(** When [p0] is at the location of [p2], the two products are the same
    number, or both zeros: their difference is a zero or a NaN. *)
Lemma Direction_same_ends p0 p1 p2 tolerance :
  location_differs p0 p2 = false -> Direction p0 p1 p2 tolerance = 0%Z.
Proof.
  intros [D1 D2]%location_differs_false.
  unfold Direction, GeoPoint_sub; cbn [longitude latitude].
  set (a := (_ * _)%float). set (b := (_ * _)%float).
  assert (S : SFsame (Prim2SF a) (Prim2SF b)).
  { unfold a, b. rewrite !mul_spec. apply SFsame_mul.
    - now apply sub_same_l.
    - apply sub_same_l. now rewrite eqb_sym. }
  apply Sign_null.
  - unfold null. rewrite sub_spec. now apply SFsame_sub_null.
  - destruct (tolerance <? 0)%float eqn:T; auto.
    apply auto_tolerance_not_below_zero.
Qed.

Lemma mul_nan a b :
  Prim2SF a = S754_nan \/ Prim2SF b = S754_nan ->
  Prim2SF (a * b) = S754_nan.
Proof.
  rewrite mul_spec. intros [-> | ->]; [reflexivity|].
  now destruct (Prim2SF a) as [[]|[]| |[] ? ?].
Qed.

Lemma sub_nan_l a b : is_nan a = true -> Prim2SF (a - b) = S754_nan.
Proof. intros H%is_nan_spec. apply sub_nan. now left. Qed.

Lemma sub_nan_r a b : is_nan b = true -> Prim2SF (a - b) = S754_nan.
Proof. intros H%is_nan_spec. apply sub_nan. now right. Qed.

(** A NaN among the six coordinates, or as the tolerance, makes one of
    the two products, or the tolerance, a NaN: no comparison of [Sign]
    holds. *)
Lemma Direction_of_nan p0 p1 p2 tolerance :
  is_nan (longitude p0) || is_nan (latitude p0)
  || is_nan (longitude p1) || is_nan (latitude p1)
  || is_nan (longitude p2) || is_nan (latitude p2)
  || is_nan tolerance = true ->
  Direction p0 p1 p2 tolerance = 0%Z.
Proof.
  rewrite !orb_true_iff.
  unfold Direction, GeoPoint_sub; cbn [longitude latitude].
  intros [[[[[[H|H]|H]|H]|H]|H]|H].
  1-6: apply Sign_of_nan; left; apply sub_nan.
  - left. apply mul_nan. left. now apply sub_nan_l.
  - right. apply mul_nan. right. now apply sub_nan_l.
  - left. apply mul_nan. left. now apply sub_nan_r.
  - left. apply mul_nan. right. now apply sub_nan_r.
  - right. apply mul_nan. left. now apply sub_nan_l.
  - left. apply mul_nan. right. now apply sub_nan_l.
  - apply Sign_of_nan. right. apply is_nan_spec in H.
    rewrite ltb_spec, H. cbn. exact H.
Qed.

(** ** Lists with elements left out *)

Section Sublist.
Context {A : Type}.
Implicit Types l : list A.

Lemma sublist_refl l : sublist l l.
Proof. induction l; [apply sublist_nil | now apply sublist_cons]. Qed.

Lemma sublist_nil_l l : sublist [] l.
Proof. induction l; [apply sublist_nil | now apply sublist_skip]. Qed.

Lemma sublist_length l1 l2 : sublist l1 l2 -> length l1 <= length l2.
Proof. induction 1; simpl; lia. Qed.

Lemma sublist_In l1 l2 x : sublist l1 l2 -> In x l1 -> In x l2.
Proof. induction 1; simpl; intuition. Qed.

Lemma sublist_Forall (P : A -> Prop) l1 l2 :
  sublist l1 l2 -> Forall P l2 -> Forall P l1.
Proof.
  intros S F. rewrite Forall_forall in *. eauto using sublist_In.
Qed.

Lemma sublist_trans l1 l2 l3 :
  sublist l1 l2 -> sublist l2 l3 -> sublist l1 l3.
Proof.
  intros S12 S23. revert l1 S12.
  induction S23; intros l0 S12.
  - assumption.
  - apply sublist_skip. auto.
  - inversion S12; subst; [apply sublist_skip | apply sublist_cons]; auto.
Qed.

Lemma sublist_app l1 l2 l3 l4 :
  sublist l1 l2 -> sublist l3 l4 -> sublist (l1 ++ l3) (l2 ++ l4).
Proof.
  induction 1; simpl; intros; auto;
    [apply sublist_skip | apply sublist_cons]; auto.
Qed.

Lemma sublist_app_r l1 l2 : sublist l2 (l1 ++ l2).
Proof.
  change l2 with ([] ++ l2) at 1.
  apply sublist_app; auto using sublist_nil_l, sublist_refl.
Qed.

Lemma sublist_rev l1 l2 : sublist l1 l2 -> sublist (rev l1) (rev l2).
Proof.
  induction 1; simpl.
  - constructor.
  - rewrite <- (app_nil_r (rev l1)).
    apply sublist_app; auto using sublist_nil_l.
  - apply sublist_app; auto using sublist_refl.
Qed.

Lemma sublist_filter (f : A -> bool) l : sublist (filter f l) l.
Proof.
  induction l as [|a l IH]; simpl; [apply sublist_nil|].
  destruct (f a); [apply sublist_cons | apply sublist_skip]; auto.
Qed.

Lemma sublist_StronglySorted (R : A -> A -> Prop) l1 l2 :
  sublist l1 l2 -> StronglySorted R l2 -> StronglySorted R l1.
Proof.
  induction 1; intros S; auto.
  - apply StronglySorted_inv in S as [S _]. auto.
  - apply StronglySorted_inv in S as [S F]. constructor; auto.
    eapply sublist_Forall; eauto.
Qed.

Lemma last_cons_default l (x d : A) : last (x :: l) d = last l x.
Proof.
  revert x d. induction l as [|y l IH]; intros; auto.
  change (last (x :: y :: l) d) with (last (y :: l) d).
  now rewrite !IH.
Qed.

(** A list that ends with [bot], cut in two with a second half that is
    not empty: the second half ends with [bot]. *)
Lemma app_eq_snoc (body dropped kept : list A) bot :
  body ++ [bot] = dropped ++ kept -> kept <> [] ->
  exists kept', kept = kept' ++ [bot] /\ body = dropped ++ kept'.
Proof.
  intros E N. destruct (exists_last N) as (kept' & x & ->).
  rewrite app_assoc in E. apply app_inj_tail in E as [-> ->]. eauto.
Qed.
End Sublist.

Section GrahamScanProperties.

Variable Payload : Type.
Local Abbreviation SP := (SearchPoint Payload).
Implicit Types (left right top bot i : SP) (tolerance : float) (factor : Z).
Implicit Types (input output below body raw_vector res : list SP).
Implicit Types (pruned : bool) (p : Partition Payload).

(** ** The half-hull builder *)

Lemma convex_stack_tail tolerance factor x output :
  convex_stack tolerance factor (x :: output) ->
  convex_stack tolerance factor output.
Proof.
  destruct output as [|b [|a l]]; simpl; auto. tauto.
Qed.

Lemma convex_stack_app_r tolerance factor l output :
  convex_stack tolerance factor (l ++ output) ->
  convex_stack tolerance factor output.
Proof.
  induction l; simpl; auto. intros H. eauto using convex_stack_tail.
Qed.

Lemma restore_convexity_eq tolerance factor top mid prev rest pruned :
  restore_convexity tolerance factor top (mid :: prev :: rest) pruned
  = if (factor * Direction (GetLocation prev) (GetLocation top)
                           (GetLocation mid) tolerance >? 0)%Z
    then (top :: mid :: prev :: rest, pruned)
    else restore_convexity tolerance factor top (prev :: rest) true.
Proof. reflexivity. Qed.

(** The [while] loop drops elements from the back of the vector, the one
    below the top first, never the front one; the flag is set when it
    drops one; what it leaves passes the test at the top. *)
Lemma restore_convexity_spec tolerance factor top below pruned :
  exists dropped kept,
    below = dropped ++ kept
    /\ restore_convexity tolerance factor top below pruned
       = (top :: kept, match dropped with [] => pruned | _ => true end)
    /\ (below <> [] -> kept <> [])
    /\ (convex_stack tolerance factor below ->
        convex_stack tolerance factor (top :: kept)).
Proof.
  revert pruned. induction below as [|mid below' IH]; intros pruned.
  - exists [], []. simpl. auto.
  - destruct below' as [|prev rest].
    + exists [], [mid]. simpl. repeat split; auto; discriminate.
    + rewrite restore_convexity_eq.
      destruct (factor * Direction _ _ _ tolerance >? 0)%Z eqn:T.
      * exists [], (mid :: prev :: rest).
        split; [reflexivity|]. split; [reflexivity|].
        split; [discriminate|]. intros C. cbn [convex_stack]. split; auto.
        now apply Z.gtb_gt.
      * destruct (IH true) as (dropped & kept & E & R & N & C).
        exists (mid :: dropped), kept. split; [|split; [|split]].
        -- simpl. now rewrite <- E.
        -- rewrite R. now destruct dropped.
        -- intros _. apply N. discriminate.
        -- intros C'. apply C. eauto using convex_stack_tail.
Qed.

Lemma restore_convexity_stable tolerance factor top below pruned :
  convex_stack tolerance factor (top :: below) ->
  restore_convexity tolerance factor top below pruned = (top :: below, pruned).
Proof.
  destruct below as [|mid [|prev rest]]; auto.
  rewrite restore_convexity_eq. cbn [convex_stack]. intros [T _].
  apply Z.gtb_gt in T. now rewrite T.
Qed.

Lemma build_loop_app tolerance factor input1 input2 output pruned :
  build_loop tolerance factor (input1 ++ input2) output pruned
  = let '(output', pruned') :=
      build_loop tolerance factor input1 output pruned in
    build_loop tolerance factor input2 output' pruned'.
Proof.
  revert output pruned. induction input1 as [|i input1 IH]; intros; simpl.
  - reflexivity.
  - destruct (restore_convexity tolerance factor i output pruned). apply IH.
Qed.

(** The [for] loop, from a vector [body ++ [bot]] held back to front:
    [bot] stays; with the flag unchanged every input has been pushed and
    nothing dropped, with the flag set something has been dropped. *)
Lemma build_loop_spec tolerance factor input :
  forall body bot pruned,
    convex_stack tolerance factor (body ++ [bot]) ->
    exists body' pruned',
      build_loop tolerance factor input (body ++ [bot]) pruned
      = (body' ++ [bot], pruned')
      /\ sublist body' (rev input ++ body)
      /\ convex_stack tolerance factor (body' ++ [bot])
      /\ ((pruned' = pruned /\ body' = rev input ++ body)
          \/ (pruned' = true /\ length body' < length input + length body)).
Proof.
  induction input as [|i input IH]; intros body bot pruned C.
  - exists body, pruned. simpl. repeat split; auto using sublist_refl.
  - cbn [build_loop].
    destruct (restore_convexity_spec tolerance factor i (body ++ [bot]) pruned)
      as (dropped & kept & E & R & N & C').
    destruct (app_eq_snoc _ _ _ _ E) as (kept' & -> & ->).
    { apply N. now destruct body. }
    rewrite R.
    destruct (IH (i :: kept') bot
                 (match dropped with [] => pruned | _ => true end))
      as (body' & pruned' & B & Sub & C'' & F).
    { apply C'. assumption. }
    exists body', pruned'. cbn [app] in B. rewrite B. repeat split; auto.
    + eapply sublist_trans; [exact Sub|].
      cbn [rev]. rewrite <- app_assoc. apply sublist_app; [apply sublist_refl|].
      cbn [app]. apply sublist_cons, sublist_app_r.
    + cbn [rev]. rewrite <- app_assoc. cbn [app].
      destruct F as [[-> ->]|[-> L]].
      * destruct dropped; [left; auto|right]. split; auto. list_length.
      * right. split; auto. list_length.
Qed.

Lemma convex_stack_at tolerance factor (l : list SP) (a b c : SP) l' :
  convex_stack tolerance factor (l ++ c :: b :: a :: l') ->
  (factor * Direction (GetLocation a) (GetLocation c) (GetLocation b)
                      tolerance > 0)%Z.
Proof.
  intros C%convex_stack_app_r. now destruct C.
Qed.

Lemma convex_stack_chain tolerance factor output :
  convex_stack tolerance factor output ->
  convex_chain tolerance factor (rev output).
Proof.
  intros C pre a b c post E.
  apply (f_equal (@rev _)) in E. rewrite rev_involutive in E.
  rewrite rev_app_distr in E. cbn [rev] in E.
  rewrite <- !app_assoc in E. cbn [app] in E. subst output.
  eapply convex_stack_at; eauto.
Qed.

Lemma convex_chain_stack tolerance factor output :
  convex_chain tolerance factor (rev output) ->
  convex_stack tolerance factor output.
Proof.
  induction output as [|c [|b [|a l]] IH]; cbn [convex_stack]; auto.
  intros C. split.
  - apply (C (rev l) a b c []). cbn [rev]. now rewrite <- !app_assoc.
  - apply IH. intros pre a' b' c' post E. cbn [rev] in *.
    apply (C pre a' b' c' (post ++ [c])).
    rewrite E. now rewrite <- !app_assoc.
Qed.

Lemma build_loop_stable tolerance factor input :
  forall output pruned,
    convex_stack tolerance factor (rev input ++ output) ->
    build_loop tolerance factor input output pruned
    = (rev input ++ output, pruned).
Proof.
  induction input as [|i input IH]; intros output pruned C; auto.
  cbn [rev] in *. rewrite <- app_assoc in *. cbn [app build_loop] in *.
  rewrite restore_convexity_stable by eauto using convex_stack_app_r.
  now apply IH.
Qed.

(** The back of a vector of three elements or more. *)
Lemma vector_back (pre : list SP) (p0 p2 p1 : SP) :
  let output := pre ++ [p0; p2; p1] in
  (3 <=? length output)%nat = true
  /\ nth_error output (length output - 1 - 2) = Some p0
  /\ nth_error output (length output - 1) = Some p1
  /\ nth_error output (length output - 1 - 1) = Some p2
  /\ erase (length output - 1 - 1) output = pre ++ [p0; p1].
Proof.
  intros output. unfold output. rewrite length_app. cbn [length].
  replace (length pre + 3 - 1 - 2) with (length pre + 0) by lia.
  replace (length pre + 3 - 1 - 1) with (length pre + 1) by lia.
  replace (length pre + 3 - 1) with (length pre + 2) by lia.
  split; [apply Nat.leb_le; lia|].
  rewrite !nth_error_app2 by lia.
  replace (length pre + 0 - length pre) with 0 by lia.
  replace (length pre + 1 - length pre) with 1 by lia.
  replace (length pre + 2 - length pre) with 2 by lia.
  repeat split. unfold erase.
  rewrite firstn_app, skipn_app, firstn_all2, skipn_all2 by lia.
  replace (length pre + 1 - length pre) with 1 by lia.
  replace (S (length pre + 1) - length pre) with 2 by lia.
  cbn [firstn skipn app]. now rewrite <- app_assoc.
Qed.

(** The [while] loop on the vector and on the vector held back to front:
    the same vector and the same flag, for every bound that is not
    smaller than the number of elements below the top. *)
Lemma while_loop_stack tolerance factor below :
  forall rounds top pruned,
    length below <= rounds ->
    while_loop rounds tolerance factor (rev (top :: below)) pruned
    = let '(output, pruned') :=
        restore_convexity tolerance factor top below pruned in
      (rev output, pruned').
Proof.
  induction below as [|mid below IH]; intros rounds top pruned L.
  - destruct rounds; reflexivity.
  - destruct below as [|prev rest].
    + destruct rounds; reflexivity.
    + destruct rounds as [|rounds]; [cbn [length] in L; lia|].
      rewrite restore_convexity_eq.
      assert (E : rev (top :: mid :: prev :: rest)
                  = rev rest ++ [prev; mid; top]).
      { cbn [rev]. now rewrite <- !app_assoc. }
      rewrite E. cbn [while_loop].
      destruct (vector_back (rev rest) prev mid top)
        as (E1 & E2 & E3 & E4 & E5).
      cbv zeta in *. rewrite E1, E2, E3, E4, E5.
      destruct (factor * Direction _ _ _ tolerance >? 0)%Z.
      * now rewrite E.
      * rewrite <- (IH rounds top true) by (cbn [length] in *; lia).
        cbn [rev]. now rewrite <- !app_assoc.
Qed.

Lemma for_loop_stack tolerance factor input :
  forall output pruned,
    for_loop tolerance factor input (rev output) pruned
    = let '(output', pruned') :=
        build_loop tolerance factor input output pruned in
      (rev output', pruned').
Proof.
  induction input as [|i input IH]; intros output pruned.
  - reflexivity.
  - cbn [for_loop build_loop]. cbv zeta.
    change (rev output ++ [i]) with (rev (i :: output)).
    rewrite while_loop_stack by (cbn [rev]; list_length).
    destruct (restore_convexity tolerance factor i output pruned). apply IH.
Qed.

Lemma BuildHalfHull_stack left right tolerance input factor :
  BuildHalfHull left right tolerance input factor
  = let '(output, pruned) :=
      build_loop tolerance factor (input ++ [right]) [left] false in
    (rev output, pruned).
Proof.
  exact (for_loop_stack tolerance factor (input ++ [right]) [left] false).
Qed.

(** [BuildHalfHull]: the vector built starts with [left], ends with
    [right] and holds in between input elements in their order; the three
    elements at its back pass the test whenever the loop is left, so any
    three consecutive elements do; the flag tells whether an element was
    dropped. *)
Lemma BuildHalfHull_spec left right tolerance input factor :
  exists mid pruned,
    BuildHalfHull left right tolerance input factor
    = (left :: mid ++ [right], pruned)
    /\ sublist mid input
    /\ convex_chain tolerance factor (left :: mid ++ [right])
    /\ ((pruned = false /\ mid = input)
        \/ (pruned = true /\ length mid < length input)).
Proof.
  rewrite BuildHalfHull_stack, build_loop_app.
  destruct (build_loop_spec tolerance factor input [] left false)
    as (body & pruned1 & B & Sub & C & F); [exact I|].
  cbn [app] in B. rewrite B. cbn [build_loop].
  destruct (restore_convexity_spec tolerance factor right (body ++ [left])
                                   pruned1)
    as (dropped & kept & E & R & N & C').
  destruct (app_eq_snoc _ _ _ _ E) as (kept' & -> & ->).
  { apply N. now destruct body. }
  rewrite R. rewrite app_nil_r in *.
  exists (rev kept'), (match dropped with [] => pruned1 | _ => true end).
  assert (Hrev : rev (right :: kept' ++ [left]) = left :: rev kept' ++ [right]).
  { cbn [rev]. now rewrite rev_app_distr. }
  split; [now rewrite Hrev|]. split; [|split].
  - rewrite <- (rev_involutive input). apply sublist_rev.
    eapply sublist_trans; [apply sublist_app_r|exact Sub].
  - rewrite <- Hrev. apply convex_stack_chain. auto.
  - destruct F as [[-> E']|[-> L]].
    + destruct dropped; [left|right]; split; auto.
      * cbn [app] in E'. rewrite E'. apply rev_involutive.
      * apply (f_equal (@length _)) in E'. list_length.
    + right. split; [now destruct dropped|]. list_length.
Qed.

(** ** The sort *)

Lemma insert_stable_perm (comp : SP -> SP -> bool) x l :
  Permutation (insert_stable comp x l) (x :: l).
Proof.
  induction l as [|y l IH]; simpl; auto.
  destruct (comp y x); auto.
  rewrite IH. apply perm_swap.
Qed.

Lemma list_sort_perm (comp : SP -> SP -> bool) l :
  Permutation (list_sort comp l) l.
Proof.
  induction l as [|x l IH]; simpl; auto.
  rewrite insert_stable_perm. auto.
Qed.

Lemma before_trans (a b c : SP) : before a b -> before b c -> before a c.
Proof. apply location_less_trans. Qed.

Lemma before_not_after (a b : SP) : before a b -> not_after a b.
Proof. apply location_less_asym. Qed.

Lemma before_irrefl (a : SP) : ~ before a a.
Proof. unfold before, sort_comp. now rewrite location_less_irrefl. Qed.

Lemma insert_stable_HdRel (x y : SP) l :
  not_after y x -> HdRel (@not_after Payload) y l ->
  HdRel (@not_after Payload) y (insert_stable (@sort_comp Payload) x l).
Proof.
  intros Hyx H. destruct l as [|z l]; simpl.
  - constructor. assumption.
  - destruct (sort_comp z x); constructor; auto.
    now inversion H.
Qed.

Lemma insert_stable_sorted (x : SP) l :
  Sorted (@not_after Payload) l ->
  Sorted (@not_after Payload) (insert_stable (@sort_comp Payload) x l).
Proof.
  induction 1 as [|y l S IH H]; simpl.
  - repeat constructor.
  - destruct (sort_comp y x) eqn:E.
    + constructor; auto. apply insert_stable_HdRel; auto.
      now apply before_not_after.
    + repeat constructor; auto.
Qed.

Lemma list_sort_sorted (l : list SP) :
  Sorted (@not_after Payload) (list_sort (@sort_comp Payload) l).
Proof.
  induction l; simpl; auto using insert_stable_sorted.
Qed.

(** The sort is stable: the elements at one location come out in the
    order they went in. *)
Lemma location_differs_trans (g p q : GeoPoint) :
  location_differs g p = false -> location_differs g q = false ->
  location_differs p q = false.
Proof.
  intros [P1 P2]%location_differs_false [Q1 Q2]%location_differs_false.
  apply location_differs_false.
  now rewrite <- (eqb_eqb_l _ _ _ P1), <- (eqb_eqb_l _ _ _ P2).
Qed.

Lemma insert_stable_at_location g (x : SP) l :
  filter (fun y => negb (location_differs g (GetLocation y)))
         (insert_stable (@sort_comp Payload) x l)
  = filter (fun y => negb (location_differs g (GetLocation y))) (x :: l).
Proof.
  induction l as [|y l IH]; [reflexivity|].
  cbn [insert_stable]. destruct (sort_comp y x) eqn:E; [|reflexivity].
  cbn [filter] in *. rewrite IH.
  destruct (location_differs g (GetLocation x)) eqn:Dx,
           (location_differs g (GetLocation y)) eqn:Dy;
    cbn [negb]; try reflexivity.
  apply location_less_differs in E.
  rewrite (location_differs_trans g _ _ Dy Dx) in E. discriminate.
Qed.

Lemma list_sort_stable g (l : list SP) :
  filter (fun y => negb (location_differs g (GetLocation y)))
         (list_sort (@sort_comp Payload) l)
  = filter (fun y => negb (location_differs g (GetLocation y))) l.
Proof.
  induction l as [|x l IH]; [reflexivity|].
  cbn [list_sort fold_right]. rewrite insert_stable_at_location.
  cbn [filter]. fold (list_sort (@sort_comp Payload) l). now rewrite IH.
Qed.

(** Without NaNs, two elements are ordered one way or the other unless
    they are at the same location, and [not_after] is transitive. *)
Lemma not_after_cases (a b : SP) :
  no_nan a -> no_nan b -> not_after a b ->
  before a b
  \/ location_differs (GetLocation a) (GetLocation b) = false.
Proof.
  intros [Na1 Na2] [Nb1 Nb2] H. unfold before, sort_comp.
  destruct (location_less (GetLocation a) (GetLocation b)) eqn:E; auto.
  right. apply location_trichotomy; auto.
Qed.

Lemma not_after_trans (a b c : SP) :
  no_nan a -> no_nan b -> no_nan c ->
  not_after a b -> not_after b c -> not_after a c.
Proof.
  intros Na Nb Nc Hab Hbc.
  destruct (sort_comp c a) eqn:E; [|exact E]. exfalso.
  destruct (not_after_cases a b Na Nb Hab) as [L|D].
  - pose proof (before_trans _ _ _ E L) as F.
    unfold not_after, before in *. congruence.
  - unfold not_after, sort_comp in *.
    rewrite (location_less_same_r _ _ _ D) in E. congruence.
Qed.

Lemma Sorted_not_after_strong (l : list SP) :
  Forall no_nan l -> Sorted (@not_after Payload) l ->
  StronglySorted (@not_after Payload) l.
Proof.
  intros N S. induction S as [|a l S IH H]; constructor.
  - apply IH. now inversion N.
  - inversion N as [|? ? Na Nl]; subst.
    specialize (IH Nl).
    destruct H as [|b l H]; constructor; auto.
    apply StronglySorted_inv in IH as [_ F].
    inversion Nl as [|? ? Nb Nl']; subst.
    rewrite Forall_forall in *. intros c Hc.
    eapply not_after_trans; eauto.
Qed.

(** ** The partitioner *)

Lemma partition_loop_spec left right tolerance js :
  forall loclast upper lower,
    partition_loop left right tolerance loclast js upper lower
    = (upper ++ filter (goes_upper left right tolerance)
                       (retained loclast js),
       lower ++ filter (fun i => negb (goes_upper left right tolerance i))
                       (retained loclast js)).
Proof.
  induction js as [|i js IH]; intros loclast upper lower;
    cbn [partition_loop retained].
  - cbn [filter]. now rewrite !app_nil_r.
  - destruct (location_differs loclast (GetLocation i)); [|apply IH].
    cbn [filter]. fold (goes_upper left right tolerance i).
    destruct (goes_upper left right tolerance i); cbn [negb];
      rewrite IH, <- app_assoc; reflexivity.
Qed.

(** [PartitionPoints] on a sequence of two elements or more: the sorted
    sequence is [left], the elements in between, [right]; the two vectors
    are the retained elements in between, split by [goes_upper]. *)
Lemma PartitionPoints_spec raw_vector tolerance :
  2 <= length raw_vector ->
  exists left middle right,
    list_sort (@sort_comp Payload) raw_vector = left :: middle ++ [right]
    /\ PartitionPoints raw_vector tolerance
       = Some (mkPartition left right
                 (filter (goes_upper left right tolerance)
                         (retained (GetLocation left) middle))
                 (filter (fun i => negb (goes_upper left right tolerance i))
                         (retained (GetLocation left) middle))).
Proof.
  intros L. unfold PartitionPoints.
  pose proof (Permutation_length
                (list_sort_perm (@sort_comp Payload) raw_vector)) as E.
  destruct (list_sort (@sort_comp Payload) raw_vector)
    as [|front [|second rest]];
    cbn [length] in E; try lia.
  set (l := second :: rest).
  assert (N : l <> []) by discriminate.
  exists front, (removelast l), (last l front). split.
  - f_equal. now apply app_removelast_last.
  - rewrite partition_loop_spec. reflexivity.
Qed.

Lemma PartitionPoints_some raw_vector tolerance p :
  PartitionPoints raw_vector tolerance = Some p ->
  exists middle,
    list_sort (@sort_comp Payload) raw_vector
    = left p :: middle ++ [right p]
    /\ upper_partition_points p
       = filter (goes_upper (left p) (right p) tolerance)
                (retained (GetLocation (left p)) middle)
    /\ lower_partition_points p
       = filter (fun i => negb (goes_upper (left p) (right p) tolerance i))
                (retained (GetLocation (left p)) middle).
Proof.
  intros E.
  assert (L : 2 <= length raw_vector).
  { unfold PartitionPoints in E.
    pose proof (Permutation_length
                  (list_sort_perm (@sort_comp Payload) raw_vector)) as P.
    destruct (list_sort (@sort_comp Payload) raw_vector) as [|? [|? ?]];
      try discriminate. cbn [length] in P. lia. }
  destruct (PartitionPoints_spec raw_vector tolerance L)
    as (l & middle & r & S & E').
  rewrite E' in E. injection E as <-. exists middle. auto.
Qed.

(** The retained elements: a subsequence, each at a location that differs
    from that of the element retained before it. *)
Lemma retained_sublist (js : list SP) loclast :
  sublist (retained loclast js) js.
Proof.
  revert loclast. induction js as [|i js IH]; intros; cbn [retained].
  - apply sublist_nil.
  - destruct (location_differs loclast (GetLocation i));
      [apply sublist_cons | apply sublist_skip]; auto.
Qed.

Lemma retained_differs (js : list SP) loclast :
  differs_from_previous loclast (retained loclast js).
Proof.
  revert loclast. induction js as [|i js IH]; intros; cbn [retained].
  - exact I.
  - destruct (location_differs loclast (GetLocation i)) eqn:E; auto.
    split; auto.
Qed.

(** The loop, one element further: [i] is retained exactly when its
    location differs from the one then held in [loclast]. *)
Lemma retained_snoc (js : list SP) i loclast :
  retained loclast (js ++ [i])
  = retained loclast js
    ++ (if location_differs (loclast_after loclast js) (GetLocation i)
        then [i] else []).
Proof.
  unfold loclast_after.
  revert loclast. induction js as [|j js IH]; intros; cbn [retained app].
  - cbn [map last]. now destruct (location_differs loclast (GetLocation i)).
  - destruct (location_differs loclast (GetLocation j)).
    + rewrite IH. cbn [map app]. now rewrite last_cons_default.
    + apply IH.
Qed.

(** ** The pruner *)

Lemma filter_split_length (f : SP -> bool) (l : list SP) :
  length (filter f l) + length (filter (fun i => negb (f i)) l) = length l.
Proof.
  induction l as [|x l IH]; cbn [filter]; auto.
  destruct (f x); cbn [negb length]; lia.
Qed.

Lemma assemble_hulls left right (lower upper : list SP) :
  assemble (left :: lower ++ [right]) (left :: upper ++ [right])
  = Some (left :: lower ++ right :: rev upper).
Proof.
  unfold assemble. f_equal.
  rewrite app_comm_cons, removelast_last, rev_app_distr. reflexivity.
Qed.

Lemma BuildHull_eq left right (upper lower : list SP) tolerance :
  BuildHull (mkPartition left right upper lower) tolerance
  = let '(lower_hull, lower_pruned) :=
      BuildHalfHull left right tolerance lower 1 in
    let '(upper_hull, upper_pruned) :=
      BuildHalfHull left right tolerance upper (-1) in
    mkHulls lower_hull upper_hull (lower_pruned || upper_pruned).
Proof. reflexivity. Qed.

(** One run of [PruneInterior] on a sequence of three elements or more,
    step by step. *)
Lemma PruneInterior_run raw_vector tolerance :
  3 <= length raw_vector ->
  exists left middle right lower upper lower_pruned upper_pruned,
    let kept := retained (GetLocation left) middle in
    let lower_partition :=
      filter (fun i => negb (goes_upper left right tolerance i)) kept in
    let upper_partition := filter (goes_upper left right tolerance) kept in
    list_sort (@sort_comp Payload) raw_vector = left :: middle ++ [right]
    /\ PartitionPoints raw_vector tolerance
       = Some (mkPartition left right upper_partition lower_partition)
    /\ BuildHalfHull left right tolerance lower_partition 1
       = (left :: lower ++ [right], lower_pruned)
    /\ BuildHalfHull left right tolerance upper_partition (-1)
       = (left :: upper ++ [right], upper_pruned)
    /\ sublist lower lower_partition
    /\ sublist upper upper_partition
    /\ convex_chain tolerance 1 (left :: lower ++ [right])
    /\ convex_chain tolerance (-1) (left :: upper ++ [right])
    /\ ((lower_pruned = false /\ lower = lower_partition)
        \/ (lower_pruned = true /\ length lower < length lower_partition))
    /\ ((upper_pruned = false /\ upper = upper_partition)
        \/ (upper_pruned = true /\ length upper < length upper_partition))
    /\ length (left :: lower ++ right :: rev upper) <= length raw_vector
    /\ PruneInterior raw_vector tolerance
       = if lower_pruned || upper_pruned
         then Some (true, left :: lower ++ right :: rev upper)
         else Some (false, raw_vector).
Proof.
  intros L.
  destruct (PartitionPoints_spec raw_vector tolerance) as
    (left & middle & right & ES & EP); [lia|].
  set (kept := retained (GetLocation left) middle) in *.
  set (lower_partition :=
         filter (fun i => negb (goes_upper left right tolerance i)) kept) in *.
  set (upper_partition := filter (goes_upper left right tolerance) kept) in *.
  destruct (BuildHalfHull_spec left right tolerance lower_partition 1)
    as (lower & lower_pruned & EL & SL & CL & FL).
  destruct (BuildHalfHull_spec left right tolerance upper_partition (-1))
    as (upper & upper_pruned & EU & SU & CU & FU).
  exists left, middle, right, lower, upper, lower_pruned, upper_pruned.
  cbv zeta. fold kept. fold lower_partition. fold upper_partition.
  assert (Len : length (left :: lower ++ right :: rev upper)
                <= length raw_vector).
  { rewrite <- (Permutation_length
                  (list_sort_perm (@sort_comp Payload) raw_vector)), ES.
    pose proof (filter_split_length (goes_upper left right tolerance) kept).
    pose proof (sublist_length _ _
                  (retained_sublist middle (GetLocation left))).
    apply sublist_length in SL, SU.
    fold kept in H0. fold lower_partition upper_partition in H.
    list_length. }
  repeat (split; [assumption|]).
  unfold PruneInterior.
  destruct (length raw_vector <? 3)%nat eqn:E3;
    [apply Nat.ltb_lt in E3; lia|].
  rewrite EP, BuildHull_eq, EL, EU. cbn [hull_pruned lower_hull upper_hull].
  destruct (lower_pruned || upper_pruned); cbn [negb]; auto.
  rewrite assemble_hulls.
  apply Nat.leb_le in Len. now rewrite Len.
Qed.

Lemma PartitionPoints_undefined raw_vector tolerance :
  length raw_vector < 2 -> PartitionPoints raw_vector tolerance = None.
Proof.
  intros L. unfold PartitionPoints.
  pose proof (Permutation_length
                (list_sort_perm (@sort_comp Payload) raw_vector)) as P.
  destruct (list_sort (@sort_comp Payload) raw_vector) as [|? [|? ?]];
    auto. cbn [length] in P. lia.
Qed.

(** A run that starts from fewer than three elements or prunes nothing
    returns [false] and leaves the sequence; any other run returns [true]
    and leaves fewer elements than it found. *)
Lemma PruneInterior_cases raw_vector tolerance :
  PruneInterior raw_vector tolerance = Some (false, raw_vector)
  \/ exists res,
       PruneInterior raw_vector tolerance = Some (true, res)
       /\ length res < length raw_vector.
Proof.
  destruct (Nat.lt_ge_cases (length raw_vector) 3) as [L|L].
  - left. unfold PruneInterior. apply Nat.ltb_lt in L. now rewrite L.
  - destruct (PruneInterior_run raw_vector tolerance L)
      as (left & middle & right & lower & upper & lp & up
          & ES & _ & _ & _ & SL & SU & _ & _ & FL & FU & _ & E).
    cbv zeta in *. rewrite E.
    destruct (lp || up) eqn:F; [right|now left].
    eexists. split; [reflexivity|].
    rewrite <- (Permutation_length
                  (list_sort_perm (@sort_comp Payload) raw_vector)), ES.
    pose proof (filter_split_length (goes_upper left right tolerance)
                  (retained (GetLocation left) middle)).
    pose proof (sublist_length _ _
                  (retained_sublist middle (GetLocation left))).
    apply sublist_length in SL, SU.
    destruct FL as [[-> _]|[_ FL]], FU as [[-> _]|[_ FU]];
      try discriminate; list_length.
Qed.

(** C8.  A boundary sequence of fewer than three elements (0, 1 or 2):
    [PruneInterior] returns [false] and the sequence is as it was.  The
    guard comes before any other step: the result is there for sequences
    of 0 or 1 elements too, on which [PartitionPoints] has no defined
    result. *)
Theorem PruneInterior_fewer_than_three raw_vector tolerance :
  length raw_vector < 3 ->
  PruneInterior raw_vector tolerance = Some (false, raw_vector)
  /\ (length raw_vector < 2 ->
      PartitionPoints raw_vector tolerance = None).
Proof.
  intros L. split.
  - unfold PruneInterior. apply Nat.ltb_lt in L. now rewrite L.
  - apply PartitionPoints_undefined.
Qed.

(** C7.  When neither of the two [BuildHalfHull] calls reports a dropped
    point, [PruneInterior] returns [false] and the boundary sequence is,
    element for element, the one it was given. *)
Theorem PruneInterior_nothing_pruned raw_vector tolerance p :
  PartitionPoints raw_vector tolerance = Some p ->
  snd (BuildHalfHull (left p) (right p) tolerance
                     (lower_partition_points p) 1) = false ->
  snd (BuildHalfHull (left p) (right p) tolerance
                     (upper_partition_points p) (-1)) = false ->
  PruneInterior raw_vector tolerance = Some (false, raw_vector).
Proof.
  intros EP EL EU. unfold PruneInterior.
  destruct (length raw_vector <? 3)%nat; auto.
  rewrite EP. unfold BuildHull.
  destruct (BuildHalfHull _ _ _ (lower_partition_points p) _) as [lh lp].
  destruct (BuildHalfHull _ _ _ (upper_partition_points p) _) as [uh up].
  cbn [snd] in *. subst. reflexivity.
Qed.

(** C9.  Every run of [PruneInterior] has a result (the assertion
    [res.size() <= size] holds whenever it is reached) and leaves a
    sequence that is not longer than the one it was given. *)
Theorem PruneInterior_size_monotone raw_vector tolerance :
  exists changed res,
    PruneInterior raw_vector tolerance = Some (changed, res)
    /\ length res <= length raw_vector.
Proof.
  destruct (PruneInterior_cases raw_vector tolerance) as [E|(res & E & L)].
  - exists false, raw_vector. auto.
  - exists true, res. split; auto. lia.
Qed.

(** C10.  When [PruneInterior] returns [true], the sequence it leaves is
    strictly shorter than the one it was given. *)
Theorem PruneInterior_true_shrinks raw_vector tolerance res :
  PruneInterior raw_vector tolerance = Some (true, res) ->
  length res < length raw_vector.
Proof.
  intros E.
  destruct (PruneInterior_cases raw_vector tolerance) as [E'|(res' & E' & L)];
    rewrite E' in E; [discriminate|].
  now injection E as <-.
Qed.

(** A run that returns [true], step by step. *)
Lemma PruneInterior_true_run raw_vector tolerance res :
  PruneInterior raw_vector tolerance = Some (true, res) ->
  exists p lower upper,
    PartitionPoints raw_vector tolerance = Some p
    /\ BuildHull p tolerance
       = mkHulls (left p :: lower ++ [right p])
                 (left p :: upper ++ [right p]) true
    /\ sublist lower (lower_partition_points p)
    /\ sublist upper (upper_partition_points p)
    /\ convex_chain tolerance 1 (left p :: lower ++ [right p])
    /\ convex_chain tolerance (-1) (left p :: upper ++ [right p])
    /\ res = left p :: lower ++ right p :: rev upper.
Proof.
  intros E.
  destruct (Nat.lt_ge_cases (length raw_vector) 3) as [L|L].
  { unfold PruneInterior in E. apply Nat.ltb_lt in L.
    rewrite L in E. discriminate. }
  destruct (PruneInterior_run raw_vector tolerance L)
    as (left & middle & right & lower & upper & lp & up
        & _ & EP & EL & EU & SL & SU & CL & CU & _ & _ & _ & E').
  cbv zeta in *. rewrite E' in E.
  destruct (lp || up) eqn:F; [|discriminate]. injection E as <-.
  eexists _, lower, upper. split; [exact EP|].
  rewrite BuildHull_eq, EL, EU, F. auto 10.
Qed.

(** C2 (as amended).  When [PruneInterior] returns [true], the sequence
    it leaves is all of [lower_hull] except its last element, followed by
    [upper_hull] read back to front except the element read last.  Both
    hulls start with [left] and end with [right]: the element left out of
    [lower_hull] is [right], the one left out of [upper_hull] is its first
    element [left].  So the result is [left], the lower chain from left to
    right, [right], then the upper chain from right to left. *)
Theorem PruneInterior_assembles_hulls raw_vector tolerance res :
  PruneInterior raw_vector tolerance = Some (true, res) ->
  exists p lower upper,
    PartitionPoints raw_vector tolerance = Some p
    /\ lower_hull (BuildHull p tolerance) = left p :: lower ++ [right p]
    /\ upper_hull (BuildHull p tolerance) = left p :: upper ++ [right p]
    /\ res = removelast (lower_hull (BuildHull p tolerance))
             ++ removelast (rev (upper_hull (BuildHull p tolerance)))
    /\ res = left p :: lower ++ right p :: rev upper.
Proof.
  intros E.
  destruct (PruneInterior_true_run raw_vector tolerance res E)
    as (p & lower & upper & EP & EH & _ & _ & _ & _ & ->).
  exists p, lower, upper. rewrite EH. cbn [lower_hull upper_hull].
  repeat split; auto.
  rewrite (app_comm_cons lower [right p] (left p)), removelast_last.
  cbn [rev]. rewrite removelast_last, rev_app_distr. reflexivity.
Qed.

(** When [PruneInterior] returns [true], the sequence it leaves is
    [left], the inner elements of [lower_hull], [right], and the inner
    elements of [upper_hull] from right to left; any three consecutive
    elements [a], [b], [c] of [lower_hull] pass the test of the builder,
    [Direction(a, c, b, tolerance) > 0], and any three consecutive
    elements of [upper_hull] pass it with the other sign,
    [- Direction(a, c, b, tolerance) > 0]. *)
Lemma PruneInterior_hulls_pass_test raw_vector tolerance res :
  PruneInterior raw_vector tolerance = Some (true, res) ->
  exists p lower upper,
    PartitionPoints raw_vector tolerance = Some p
    /\ lower_hull (BuildHull p tolerance) = left p :: lower ++ [right p]
    /\ upper_hull (BuildHull p tolerance) = left p :: upper ++ [right p]
    /\ res = left p :: lower ++ right p :: rev upper
    /\ convex_chain tolerance 1 (lower_hull (BuildHull p tolerance))
    /\ convex_chain tolerance (-1) (upper_hull (BuildHull p tolerance)).
Proof.
  intros E.
  destruct (PruneInterior_true_run raw_vector tolerance res E)
    as (p & lower & upper & EP & EH & _ & _ & CL & CU & ->).
  exists p, lower, upper. rewrite EH. cbn [lower_hull upper_hull]. auto 10.
Qed.

(** C4.  The partitioner puts a retained element into the upper vector
    exactly when [Direction(left, right, element, tolerance)] is negative
    and into the lower vector exactly when it is zero or positive; an
    element with direction zero is in the lower vector.  The two vectors
    hold retained elements only. *)
Theorem PartitionPoints_by_direction raw_vector tolerance p :
  PartitionPoints raw_vector tolerance = Some p ->
  exists middle,
    list_sort (@sort_comp Payload) raw_vector
    = left p :: middle ++ [right p]
    /\ (forall e,
          In e (upper_partition_points p) \/ In e (lower_partition_points p)
          -> In e (retained (GetLocation (left p)) middle))
    /\ forall e,
         In e (retained (GetLocation (left p)) middle) ->
         let dir := Direction (GetLocation (left p)) (GetLocation (right p))
                              (GetLocation e) tolerance in
         (In e (upper_partition_points p) <-> (dir < 0)%Z)
         /\ (In e (lower_partition_points p) <-> (0 <= dir)%Z)
         /\ (dir = 0%Z -> In e (lower_partition_points p)).
Proof.
  intros E.
  destruct (PartitionPoints_some raw_vector tolerance p E)
    as (middle & ES & -> & ->).
  exists middle. split; [exact ES|]. split.
  - intros e [H|H]; apply filter_In in H; tauto.
  - intros e He dir. rewrite !filter_In. unfold goes_upper. fold dir.
    rewrite negb_true_iff, Z.ltb_lt, Z.ltb_ge. intuition lia.
Qed.

(** C5.  The partitioner goes through the sorted elements between [left]
    and [right] with the location of the last retained element in
    [loclast] (at first the location of [left]): an element is retained
    exactly when its location differs from [loclast], so of consecutive
    elements at one location the first one is kept.  Every retained
    element is at a location that differs from that of the retained
    element before it, and the two vectors hold the retained elements, in
    their order. *)
Theorem PartitionPoints_collapses_duplicates raw_vector tolerance p :
  PartitionPoints raw_vector tolerance = Some p ->
  exists middle,
    let loclast := GetLocation (left p) in
    let kept := retained loclast middle in
    list_sort (@sort_comp Payload) raw_vector
    = left p :: middle ++ [right p]
    /\ sublist kept middle
    /\ differs_from_previous loclast kept
    /\ (forall js i rest,
          middle = js ++ i :: rest ->
          retained loclast (js ++ [i])
          = retained loclast js
            ++ (if location_differs (loclast_after loclast js)
                                    (GetLocation i)
                then [i] else []))
    /\ sublist (upper_partition_points p) kept
    /\ sublist (lower_partition_points p) kept
    /\ (forall e, In e kept ->
          In e (upper_partition_points p) \/ In e (lower_partition_points p)).
Proof.
  intros E.
  destruct (PartitionPoints_some raw_vector tolerance p E)
    as (middle & ES & -> & ->).
  exists middle. cbv zeta.
  split; [exact ES|].
  split; [apply retained_sublist|].
  split; [apply retained_differs|].
  split; [intros; apply retained_snoc|].
  split; [apply sublist_filter|].
  split; [apply sublist_filter|].
  intros e He. rewrite !filter_In.
  destruct (goes_upper (left p) (right p) tolerance e); auto.
Qed.

(** ** Strictly sorted sequences *)

Lemma StronglySorted_snoc {A} (R : A -> A -> Prop) l x :
  StronglySorted R l -> Forall (fun e => R e x) l ->
  StronglySorted R (l ++ [x]).
Proof.
  induction 1 as [|a l S IH F]; intros H; cbn [app].
  - repeat constructor.
  - inversion H; subst. constructor; auto.
    apply Forall_app. auto.
Qed.

Lemma StronglySorted_snoc_inv {A} (R : A -> A -> Prop) l x :
  StronglySorted R (l ++ [x]) ->
  StronglySorted R l /\ Forall (fun e => R e x) l.
Proof.
  induction l as [|a l IH]; cbn [app]; intros S.
  - split; constructor.
  - apply StronglySorted_inv in S as [S F].
    apply Forall_app in F as [F1 F2]. destruct (IH S) as [S' F'].
    split; constructor; auto. now inversion F2.
Qed.

Lemma StronglySorted_In_cases {A} (R : A -> A -> Prop) l a b :
  StronglySorted R l -> In a l -> In b l -> a = b \/ R a b \/ R b a.
Proof.
  induction 1 as [|x l S IH F]; intros Ha Hb; [easy|].
  rewrite Forall_forall in F.
  destruct Ha as [<-|Ha], Hb as [<-|Hb]; auto.
Qed.

Lemma StronglySorted_NoDup {A} (R : A -> A -> Prop) l :
  (forall a, ~ R a a) -> StronglySorted R l -> NoDup l.
Proof.
  intros Irr. induction 1 as [|x l S IH F]; constructor; auto.
  rewrite Forall_forall in F. intros H. eapply Irr; eauto.
Qed.

(** Sorted without ties and a permutation of each other: equal. *)
Lemma sorted_permutation_unique (l1 l2 : list SP) :
  StronglySorted (@before Payload) l1 ->
  StronglySorted (@before Payload) l2 ->
  Permutation l1 l2 -> l1 = l2.
Proof.
  intros S1. revert l2.
  induction S1 as [|a l1 S1 IH F1]; intros l2 S2 P.
  - now apply Permutation_nil in P.
  - destruct S2 as [|b l2 S2 F2].
    + symmetry in P. now apply Permutation_nil in P.
    + assert (a = b) as <-.
      { rewrite Forall_forall in F1, F2.
        assert (Ha : In a (b :: l2))
          by (eapply Permutation_in; [exact P|now left]).
        assert (Hb : In b (a :: l1))
          by (eapply Permutation_in; [symmetry; exact P|now left]).
        destruct Ha as [Ha|Ha]; [now symmetry|].
        destruct Hb as [Hb|Hb]; [assumption|]. exfalso.
        apply F2 in Ha. apply F1 in Hb.
        apply before_not_after in Ha. unfold not_after, before in *.
        congruence. }
      f_equal. apply IH; auto. eapply Permutation_cons_inv; eauto.
Qed.

(** A strictly sorted chain from [left] through [mid] to [right]. *)
Lemma chain_facts (left right : SP) mid :
  StronglySorted (@before Payload) (left :: mid ++ [right]) ->
  before left right
  /\ Forall (before left) mid
  /\ Forall (fun e => before e right) mid
  /\ StronglySorted (@before Payload) mid.
Proof.
  intros S. apply StronglySorted_inv in S as [S F].
  apply Forall_app in F as [F1 F2].
  apply StronglySorted_snoc_inv in S as [S F3].
  inversion F2; subst. auto.
Qed.

(** ** The retained elements of a sorted sequence *)

Lemma retained_strict (js : list SP) :
  forall x,
    Forall no_nan (x :: js) ->
    StronglySorted (@not_after Payload) (x :: js) ->
    StronglySorted (@before Payload) (x :: retained (GetLocation x) js).
Proof.
  induction js as [|i js IH]; intros x N S; cbn [retained].
  - repeat constructor.
  - inversion N as [|? ? Nx N']; subst. inversion N' as [|? ? Ni Njs]; subst.
    apply StronglySorted_inv in S as [S F].
    destruct (location_differs (GetLocation x) (GetLocation i)) eqn:D.
    + specialize (IH i N' S).
      assert (Hxi : before x i).
      { inversion F; subst.
        destruct (not_after_cases x i) as [|D']; auto. congruence. }
      constructor; auto. constructor; auto.
      apply StronglySorted_inv in IH as [_ F'].
      eapply Forall_impl; [|exact F']. intros r. now apply before_trans.
    + apply IH.
      * constructor; auto.
      * apply StronglySorted_inv in S as [S' _].
        constructor; auto. now inversion F.
Qed.

Lemma retained_all (js : list SP) :
  forall x,
    StronglySorted (@before Payload) (x :: js) ->
    retained (GetLocation x) js = js.
Proof.
  induction js as [|i js IH]; intros x S; cbn [retained]; auto.
  apply StronglySorted_inv in S as [S F]. inversion F; subst.
  rewrite location_less_differs by assumption.
  f_equal. now apply IH.
Qed.

Lemma StronglySorted_after {A} (R : A -> A -> Prop) l1 a l2 :
  StronglySorted R (l1 ++ a :: l2) -> Forall (R a) l2.
Proof.
  induction l1 as [|x l1 IH]; cbn [app]; intros S;
    apply StronglySorted_inv in S as [S F]; auto.
Qed.

(** ** The hulls of a sequence without NaNs *)

(** An element of a hull at the location of [right] would stand right
    before [right] and fail the test there: every inner element of a hull
    is before [right]. *)
Lemma hull_before_right tolerance factor (left right : SP) mid :
  Forall no_nan mid -> no_nan right ->
  StronglySorted (@before Payload) (left :: mid) ->
  Forall (fun e => not_after e right) mid ->
  convex_chain tolerance factor (left :: mid ++ [right]) ->
  Forall (fun e => before e right) mid.
Proof.
  intros N Nr S F C. rewrite Forall_forall in *. intros m Hm.
  destruct (not_after_cases m right) as [|D]; auto. exfalso.
  destruct (in_split _ _ Hm) as (pre & post & ->).
  destruct post as [|m' post].
  - destruct (@exists_last _ (left :: pre)) as (pre' & a & E);
      [discriminate|].
    specialize (C pre' a m right []).
    rewrite (Direction_same_location _ _ _ tolerance) in C.
    + rewrite Z.mul_0_r in C. enough (0 > 0)%Z by lia. apply C.
      change (left :: (pre ++ [m]) ++ [right])
        with (((left :: pre) ++ [m]) ++ [right]).
      rewrite E, <- !app_assoc. reflexivity.
    + now rewrite location_differs_sym.
  - rewrite app_comm_cons in S. apply StronglySorted_after in S.
    inversion S as [|? ? Hmm' _]; subst.
    assert (Hr : not_after m' right).
    { apply F. apply in_or_app. right. right. now left. }
    unfold before, not_after, sort_comp in *.
    rewrite (location_less_same_l _ _ _ D) in Hmm'. congruence.
Qed.

(** A run that returns [true] on a sequence without NaNs: both hulls are
    sorted without ties, the inner elements of the lower hull are those
    that [goes_upper] rejects, those of the upper hull those it accepts. *)
Lemma PruneInterior_true_sorted raw_vector tolerance res :
  Forall no_nan raw_vector ->
  PruneInterior raw_vector tolerance = Some (true, res) ->
  exists (left right : SP) lower upper,
    res = left :: lower ++ right :: rev upper
    /\ StronglySorted (@before Payload) (left :: lower ++ [right])
    /\ StronglySorted (@before Payload) (left :: upper ++ [right])
    /\ (forall a b, In a lower -> In b upper -> before a b \/ before b a)
    /\ Forall (fun e => goes_upper left right tolerance e = false) lower
    /\ Forall (fun e => goes_upper left right tolerance e = true) upper
    /\ convex_chain tolerance 1 (left :: lower ++ [right])
    /\ convex_chain tolerance (-1) (left :: upper ++ [right]).
Proof.
  intros N E.
  destruct (Nat.lt_ge_cases (length raw_vector) 3) as [L|L].
  { unfold PruneInterior in E. apply Nat.ltb_lt in L.
    rewrite L in E. discriminate. }
  destruct (PruneInterior_run raw_vector tolerance L)
    as (left & middle & right & lower & upper & lp & up
        & ES & _ & _ & _ & SL & SU & CL & CU & FL & FU & _ & E').
  cbv zeta in *. rewrite E' in E.
  destruct (lp || up) eqn:F; [|discriminate]. injection E as <-.
  set (kept := retained (GetLocation left) middle) in *.
  (* the sorted sequence *)
  assert (NS : Forall no_nan (left :: middle ++ [right])).
  { rewrite <- ES. eapply Permutation_Forall; [|exact N].
    symmetry. apply list_sort_perm. }
  assert (SS : StronglySorted (@not_after Payload)
                              (left :: middle ++ [right])).
  { rewrite <- ES in *. apply Sorted_not_after_strong; auto.
    apply list_sort_sorted. }
  rewrite app_comm_cons in NS, SS.
  apply Forall_app in NS as [NM Nr]. inversion Nr as [|? ? Nr' _]; subst.
  apply StronglySorted_snoc_inv in SS as [SM FM].
  (* the retained elements *)
  assert (SK : StronglySorted (@before Payload) (left :: kept))
    by now apply retained_strict.
  assert (SubK : sublist kept middle) by apply retained_sublist.
  assert (NK : Forall no_nan kept).
  { eapply sublist_Forall; [exact SubK|]. now inversion NM. }
  assert (FK : Forall (fun e => not_after e right) kept).
  { eapply sublist_Forall; [exact SubK|]. now inversion FM. }
  assert (SubL : sublist lower kept)
    by (eapply sublist_trans; [exact SL|apply sublist_filter]).
  assert (SubU : sublist upper kept)
    by (eapply sublist_trans; [exact SU|apply sublist_filter]).
  (* [left] is before [right] *)
  assert (Hlr : before left right).
  { assert (exists k, In k kept) as [k Hk].
    { destruct kept as [|k kept']; [|exists k; now left].
      cbn [filter length] in FL, FU.
      destruct FL as [[-> _]|[_ FL]], FU as [[-> _]|[_ FU]];
        try discriminate; lia. }
    apply StronglySorted_inv in SK as [_ FK'].
    rewrite Forall_forall in FK', FK, NK.
    destruct (not_after_cases k right) as [Hk'|D]; auto.
    - eapply before_trans; eauto.
    - specialize (FK' k Hk). unfold before, sort_comp in *.
      now rewrite <- (location_less_same_r _ _ _ D). }
  (* the two hulls *)
  assert (Chain : forall factor mid,
             sublist mid kept ->
             convex_chain tolerance factor (left :: mid ++ [right]) ->
             StronglySorted (@before Payload) (left :: mid ++ [right])).
  { intros factor mid Sub C.
    assert (S' : StronglySorted (@before Payload) (left :: mid)).
    { eapply sublist_StronglySorted; [|exact SK]. now apply sublist_cons. }
    rewrite app_comm_cons. apply StronglySorted_snoc; auto.
    constructor; auto.
    eapply hull_before_right; eauto using sublist_Forall. }
  exists left, right, lower, upper.
  split; [reflexivity|]. split; [now apply (Chain 1%Z)|].
  split; [now apply (Chain (-1)%Z)|].
  split; [|split; [|split; [|split; assumption]]].
  - intros a b Ha Hb.
    apply StronglySorted_inv in SK as [SK _].
    destruct (StronglySorted_In_cases _ kept a b SK) as [->|H];
      eauto using sublist_In.
    apply (sublist_In _ _ _ SL), filter_In in Ha as [_ Ha].
    apply (sublist_In _ _ _ SU), filter_In in Hb as [_ Hb].
    rewrite Hb in Ha. discriminate.
  - rewrite Forall_forall. intros e He.
    apply (sublist_In _ _ _ SL), filter_In in He as [_ He].
    now apply negb_true_iff.
  - rewrite Forall_forall. intros e He.
    now apply (sublist_In _ _ _ SU), filter_In in He as [_ He].
Qed.

(** ** A second run *)

Lemma BuildHalfHull_stable left right tolerance input factor :
  convex_chain tolerance factor (left :: input ++ [right]) ->
  BuildHalfHull left right tolerance input factor
  = (left :: input ++ [right], false).
Proof.
  intros C. rewrite BuildHalfHull_stack, build_loop_stable.
  - f_equal. rewrite rev_app_distr, rev_involutive. reflexivity.
  - apply convex_chain_stack.
    rewrite rev_app_distr, rev_involutive. exact C.
Qed.

Lemma filter_all {A} (f : A -> bool) l :
  Forall (fun e => f e = true) l -> filter f l = l.
Proof.
  induction 1 as [|x l H F IH]; cbn [filter]; auto. now rewrite H, IH.
Qed.

Lemma filter_none {A} (f : A -> bool) l :
  Forall (fun e => f e = false) l -> filter f l = [].
Proof.
  induction 1 as [|x l H F IH]; cbn [filter]; auto. now rewrite H.
Qed.

Lemma filter_permutation {A} (f : A -> bool) l l' :
  Permutation l l' -> Permutation (filter f l) (filter f l').
Proof.
  induction 1 as [|x l l' P IH|x y l|l l' l'' P1 IH1 P2 IH2]; cbn [filter].
  - constructor.
  - destruct (f x); auto.
  - destruct (f x), (f y); auto. apply perm_swap.
  - now rewrite IH1.
Qed.

(** A sequence sorted by the comparison, without repetition and with
    elements that the comparison orders two by two, is sorted without
    ties. *)
Lemma sorted_strict (l : list SP) :
  NoDup l ->
  (forall a b, In a l -> In b l -> a = b \/ before a b \/ before b a) ->
  Sorted (@not_after Payload) l ->
  StronglySorted (@before Payload) l.
Proof.
  intros ND Cmp S. induction S as [|a l S IH H]; constructor.
  - apply IH.
    + now inversion ND.
    + intros; apply Cmp; now right.
  - apply NoDup_cons_iff in ND as [Ha ND].
    assert (IH' : StronglySorted (@before Payload) l).
    { apply IH; auto. intros; apply Cmp; now right. }
    destruct H as [|b l Hab]; constructor.
    + destruct (Cmp a b) as [->|[Hb|Hb]]; auto.
      * now left.
      * right. now left.
      * exfalso. apply Ha. now left.
      * unfold not_after, before in *. congruence.
    + assert (Hb : before a b).
      { destruct (Cmp a b) as [->|[Hb|Hb]]; auto.
        - now left.
        - right. now left.
        - exfalso. apply Ha. now left.
        - unfold not_after, before in *. congruence. }
      apply StronglySorted_inv in IH' as [_ F].
      eapply Forall_impl; [|exact F]. intros c. now apply before_trans.
Qed.

(** A sequence sorted without ties starts with its least element and
    ends with its greatest one. *)
Lemma sorted_head (m : SP) l :
  StronglySorted (@before Payload) l -> In m l ->
  (forall e, In e l -> e = m \/ before m e) ->
  exists l', l = m :: l'.
Proof.
  intros S Hm Min. destruct S as [|x l S F]; [easy|].
  exists l. f_equal. destruct Hm as [Hm|Hm]; auto.
  rewrite Forall_forall in F. apply F in Hm.
  destruct (Min x) as [|Hx]; [now left|auto|].
  apply before_not_after in Hx. unfold not_after, before in *. congruence.
Qed.

Lemma sorted_last (m : SP) l :
  StronglySorted (@before Payload) l -> In m l ->
  (forall e, In e l -> e = m \/ before e m) ->
  exists l', l = l' ++ [m].
Proof.
  intros S Hm Max.
  destruct (@exists_last _ l) as (l' & x & ->).
  { intros ->. easy. }
  exists l'. f_equal. f_equal.
  apply StronglySorted_snoc_inv in S as [_ F].
  apply in_app_or in Hm as [Hm|[Hm|[]]]; auto.
  rewrite Forall_forall in F. apply F in Hm.
  destruct (Max x) as [|Hx]; [apply in_or_app; right; now left|auto|].
  apply before_not_after in Hx. unfold not_after, before in *. congruence.
Qed.

(** The sequence left by a run that returned [true], when both hulls are
    sorted without ties: a second run sorts it back into [left], the inner
    elements of both hulls, [right]; it retains every element, partitions
    them into the inner elements of the two hulls, and both builders run
    through without dropping any. *)
Lemma PruneInterior_fixed_point (left right : SP) lower upper tolerance :
  StronglySorted (@before Payload) (left :: lower ++ [right]) ->
  StronglySorted (@before Payload) (left :: upper ++ [right]) ->
  (forall a b, In a lower -> In b upper -> before a b \/ before b a) ->
  Forall (fun e => goes_upper left right tolerance e = false) lower ->
  Forall (fun e => goes_upper left right tolerance e = true) upper ->
  convex_chain tolerance 1 (left :: lower ++ [right]) ->
  convex_chain tolerance (-1) (left :: upper ++ [right]) ->
  PruneInterior (left :: lower ++ right :: rev upper) tolerance
  = Some (false, left :: lower ++ right :: rev upper).
Proof.
  intros SL SU Cross GL GU CL CU.
  set (res := left :: lower ++ right :: rev upper).
  destruct (Nat.lt_ge_cases (length res) 3) as [L|L].
  { unfold PruneInterior. apply Nat.ltb_lt in L. now rewrite L. }
  destruct (chain_facts _ _ _ SL) as (Hlr & LL & LR & SL').
  destruct (chain_facts _ _ _ SU) as (_ & UL & UR & SU').
  rewrite Forall_forall in LL, LR, UL, UR, GL, GU.
  assert (Irr : forall a : SP, ~ before a a) by apply before_irrefl.
  (* membership in the sequence *)
  assert (Mem : forall e, In e res <->
                          e = left \/ In e lower \/ e = right \/ In e upper).
  { intros e. unfold res. cbn [In]. rewrite in_app_iff. cbn [In].
    rewrite <- in_rev. intuition auto. }
  (* no element twice *)
  assert (ND : NoDup res).
  { unfold res. constructor.
    - intros H. apply in_app_or in H as [H|[H|H]].
      + eapply Irr; eauto.
      + subst. eapply Irr; eauto.
      + apply in_rev in H. eapply Irr; eauto.
    - apply NoDup_app.
      + eapply StronglySorted_NoDup; eauto.
      + constructor.
        * intros H. apply in_rev in H. eapply Irr; eauto.
        * apply NoDup_rev. eapply StronglySorted_NoDup; eauto.
      + intros a Ha [<-|Hb].
        * eapply Irr; eauto.
        * apply in_rev in Hb. apply GL in Ha. apply GU in Hb. congruence. }
  (* any two elements are ordered *)
  assert (Cmp : forall a b, In a res -> In b res ->
                            a = b \/ before a b \/ before b a).
  { intros a b Ha Hb. apply Mem in Ha, Hb.
    destruct Ha as [->|[Ha|[->|Ha]]], Hb as [->|[Hb|[->|Hb]]]; auto 6;
      try (apply (StronglySorted_In_cases _ lower); now auto);
      try (apply (StronglySorted_In_cases _ upper); now auto);
      try (destruct (Cross a b) as [|]; now auto);
      try (destruct (Cross b a) as [|]; now auto). }
  (* the sorted sequence *)
  pose proof (list_sort_perm (@sort_comp Payload) res) as P.
  assert (SX : StronglySorted (@before Payload)
                              (list_sort (@sort_comp Payload) res)).
  { apply sorted_strict.
    - eapply Permutation_NoDup; [symmetry; exact P|exact ND].
    - intros a b Ha Hb. apply Cmp; eapply Permutation_in; eauto.
    - apply list_sort_sorted. }
  destruct (sorted_head left _ SX) as (X' & EX).
  { eapply Permutation_in; [symmetry; exact P|]. apply Mem. auto. }
  { intros e He. eapply Permutation_in in He; [|exact P].
    apply Mem in He. destruct He as [->|[He|[->|He]]]; auto. }
  destruct (sorted_last right _ SX) as (X'' & EX').
  { eapply Permutation_in; [symmetry; exact P|]. apply Mem. auto. }
  { intros e He. eapply Permutation_in in He; [|exact P].
    apply Mem in He. destruct He as [->|[He|[->|He]]]; auto. }
  assert (exists middle, list_sort (@sort_comp Payload) res
                         = left :: middle ++ [right]) as (middle & ES).
  { rewrite EX in EX'. destruct X'' as [|x X''].
    - injection EX' as E _. subst. exfalso. eapply Irr; eauto.
    - injection EX' as <- ->. exists X''. exact EX. }
  clear X' X'' EX EX'. rewrite ES in *.
  assert (PM : Permutation middle (lower ++ upper)).
  { unfold res in P. apply Permutation_cons_inv in P.
    rewrite <- Permutation_cons_append in P.
    rewrite <- Permutation_middle in P.
    apply Permutation_cons_inv in P.
    now rewrite <- Permutation_rev in P. }
  destruct (chain_facts _ _ _ SX) as (_ & ML & MR & SM).
  (* the partition *)
  assert (EK : retained (GetLocation left) middle = middle).
  { apply retained_all. constructor; auto. }
  assert (EU : filter (goes_upper left right tolerance) middle = upper).
  { apply sorted_permutation_unique; auto.
    - eapply sublist_StronglySorted; [apply sublist_filter|exact SM].
    - rewrite (filter_permutation _ _ _ PM), filter_app.
      rewrite filter_none, filter_all; auto; now apply Forall_forall. }
  assert (EL : filter (fun i => negb (goes_upper left right tolerance i))
                      middle = lower).
  { apply sorted_permutation_unique; auto.
    - eapply sublist_StronglySorted; [apply sublist_filter|exact SM].
    - rewrite (filter_permutation _ _ _ PM), filter_app.
      rewrite filter_all, filter_none, app_nil_r; auto;
        apply Forall_forall; intros e He.
      * apply negb_false_iff. auto.
      * apply negb_true_iff. auto. }
  (* the run *)
  destruct (PartitionPoints_spec res tolerance) as
    (left' & middle' & right' & ES' & EP); [lia|].
  rewrite ES in ES'. injection ES' as <- ES'.
  apply app_inj_tail in ES' as [<- <-].
  rewrite EK, EU, EL in EP.
  unfold PruneInterior.
  destruct (length res <? 3)%nat eqn:E3; [apply Nat.ltb_lt in E3; lia|].
  rewrite EP, BuildHull_eq.
  rewrite !BuildHalfHull_stable by assumption. reflexivity.
Qed.

(** C6.  On a boundary sequence without NaN coordinates (the sequences on
    which the comparison handed to the sort is a strict weak ordering),
    [PruneInterior] has a result, and a second run on the sequence it
    leaves returns [false] and leaves that sequence as it is. *)
Theorem PruneInterior_idempotent raw_vector tolerance :
  Forall no_nan raw_vector ->
  exists changed res,
    PruneInterior raw_vector tolerance = Some (changed, res)
    /\ PruneInterior res tolerance = Some (false, res).
Proof.
  intros N.
  destruct (PruneInterior_cases raw_vector tolerance) as [E|(res & E & _)].
  - exists false, raw_vector. auto.
  - exists true, res. split; [exact E|].
    destruct (PruneInterior_true_sorted raw_vector tolerance res N E)
      as (left & right & lower & upper & -> & SL & SU & Cross & GL & GU
          & CL & CU).
    now apply PruneInterior_fixed_point.
Qed.

(** ** Further properties of a run *)

(** Every element that [PruneInterior] leaves in the boundary sequence is
    an element of the sequence it was given. *)
Theorem PruneInterior_subset raw_vector tolerance changed res :
  PruneInterior raw_vector tolerance = Some (changed, res) ->
  forall e, In e res -> In e raw_vector.
Proof.
  intros E e He. destruct changed.
  - destruct (PruneInterior_true_run raw_vector tolerance res E)
      as (p & lower & upper & EP & _ & SL & SU & _ & _ & ->).
    destruct (PartitionPoints_some raw_vector tolerance p EP)
      as (middle & ES & EU & EL).
    rewrite EL in SL. rewrite EU in SU.
    apply (Permutation_in e (list_sort_perm (@sort_comp Payload) raw_vector)).
    rewrite ES.
    assert (Mid : forall l f,
               sublist l (filter f (retained (GetLocation (left p)) middle)) ->
               In e l -> In e middle).
    { intros l f Sub H. eapply sublist_In; [apply retained_sublist|].
      eapply sublist_In; [apply sublist_filter|].
      eapply sublist_In; eauto. }
    destruct He as [<-|He]; [now left|right].
    apply in_or_app.
    apply in_app_or in He as [He|[<-|He]].
    + left. eapply Mid; [exact SL|exact He].
    + right. now left.
    + left. rewrite <- in_rev in He. eapply Mid; [exact SU|exact He].
  - destruct (PruneInterior_cases raw_vector tolerance)
      as [E'|(res' & E' & _)]; rewrite E' in E; [|discriminate].
    now injection E as <-.
Qed.

(** On a sequence without NaNs, [left] is an element that no element is
    before and [right] one that is before no element, in the order of the
    sort (longitude, then latitude). *)
Theorem PartitionPoints_extremes raw_vector tolerance p :
  Forall no_nan raw_vector ->
  PartitionPoints raw_vector tolerance = Some p ->
  In (left p) raw_vector /\ In (right p) raw_vector
  /\ forall e, In e raw_vector ->
       not_after (left p) e /\ not_after e (right p).
Proof.
  intros N EP.
  destruct (PartitionPoints_some raw_vector tolerance p EP)
    as (middle & ES & _ & _).
  pose proof (list_sort_perm (@sort_comp Payload) raw_vector) as P.
  assert (NS : Forall no_nan (left p :: middle ++ [right p])).
  { rewrite <- ES. eapply Permutation_Forall; [|exact N]. now symmetry. }
  assert (SS : StronglySorted (@not_after Payload)
                              (left p :: middle ++ [right p])).
  { rewrite <- ES in *. apply Sorted_not_after_strong; auto.
    apply list_sort_sorted. }
  rewrite ES in P.
  assert (Refl : forall e : SP, not_after e e).
  { intros e. unfold not_after, sort_comp. apply location_less_irrefl. }
  split; [|split].
  - eapply Permutation_in; [exact P|]. now left.
  - eapply Permutation_in; [exact P|]. right. apply in_or_app.
    right. now left.
  - intros e He. eapply Permutation_in in He; [|symmetry; exact P].
    split.
    + apply StronglySorted_inv in SS as [_ F]. rewrite Forall_forall in F.
      destruct He as [<-|He]; auto.
    + rewrite app_comm_cons in SS, He.
      apply StronglySorted_snoc_inv in SS as [_ F].
      rewrite Forall_forall in F.
      apply in_app_or in He as [He|[<-|[]]]; auto.
Qed.

(** ** The half-hull builder *)

(** [BuildHalfHull] returns a vector that starts with [left] and ends
    with [right]; what is between them is its input with elements left
    out, in the order of the input.  It returns [false] exactly when
    nothing was left out, and [true] exactly when the vector holds fewer
    elements than the input. *)
Theorem BuildHalfHull_shape left right tolerance input factor :
  exists mid,
    fst (BuildHalfHull left right tolerance input factor)
    = left :: mid ++ [right]
    /\ sublist mid input
    /\ (snd (BuildHalfHull left right tolerance input factor) = false
        <-> mid = input)
    /\ (snd (BuildHalfHull left right tolerance input factor) = true
        <-> length mid < length input).
Proof.
  destruct (BuildHalfHull_spec left right tolerance input factor)
    as (mid & pruned & E & Sub & _ & [[-> Hm]|[-> L]]);
    exists mid; rewrite E; cbn [fst snd].
  - subst mid. repeat split; auto; try discriminate. lia.
  - repeat split; auto; try discriminate. intros ->. lia.
Qed.

(** Any three consecutive elements [a], [b], [c] of the vector that
    [BuildHalfHull] returns pass the test that ends its [while] loop, and
    no two of them are at the same location: [Direction] is 0 as soon as
    two of its points coincide. *)
Theorem BuildHalfHull_passes_test left right tolerance input factor :
  forall pre (a b c : SP) post,
    fst (BuildHalfHull left right tolerance input factor)
    = pre ++ a :: b :: c :: post ->
    (factor * Direction (GetLocation a) (GetLocation c) (GetLocation b)
                        tolerance > 0)%Z
    /\ location_differs (GetLocation a) (GetLocation b) = true
    /\ location_differs (GetLocation b) (GetLocation c) = true
    /\ location_differs (GetLocation a) (GetLocation c) = true.
Proof.
  intros pre a b c post E.
  destruct (BuildHalfHull_spec left right tolerance input factor)
    as (mid & pruned & E' & _ & C & _).
  rewrite E' in E. cbn [fst] in E. specialize (C _ _ _ _ _ E).
  split; [exact C|].
  repeat split; apply not_false_is_true; intros D.
  - rewrite (Direction_same_ends _ _ _ _ D) in C. lia.
  - rewrite location_differs_sym in D.
    rewrite (Direction_same_location _ _ _ _ D) in C. lia.
  - rewrite location_differs_sym in D.
    rewrite Direction_swap, (Direction_same_location _ _ _ _ D) in C. lia.
Qed.

(** [BuildHalfHull] returns [false] exactly when its input, with [left]
    in front and [right] behind, already passes the test at any three
    consecutive elements. *)
Theorem BuildHalfHull_false_iff left right tolerance input factor :
  snd (BuildHalfHull left right tolerance input factor) = false
  <-> convex_chain tolerance factor (left :: input ++ [right]).
Proof.
  split.
  - destruct (BuildHalfHull_spec left right tolerance input factor)
      as (mid & pruned & E & _ & C & [[-> Hm]|[-> L]]);
      rewrite E; cbn [snd]; [now subst mid|discriminate].
  - intros C. now rewrite (BuildHalfHull_stable _ _ _ _ _ C).
Qed.

(** Giving [BuildHalfHull] the inner elements of its own result (all but
    the first and the last) gives that result again, with [false]. *)
Theorem BuildHalfHull_idempotent left right tolerance input factor :
  let output := fst (BuildHalfHull left right tolerance input factor) in
  BuildHalfHull left right tolerance (removelast (tl output)) factor
  = (output, false).
Proof.
  destruct (BuildHalfHull_spec left right tolerance input factor)
    as (mid & pruned & E & _ & C & _).
  rewrite E. cbn [fst tl]. rewrite removelast_last.
  now apply BuildHalfHull_stable.
Qed.

(** ** The partitioner, on sizes and on the order of its vectors *)

(** The two vectors that [PartitionPoints] fills hold together at most
    [size - 2] elements: no [push_back] goes beyond the [reserve(size)]. *)
Theorem PartitionPoints_sizes raw_vector tolerance p :
  PartitionPoints raw_vector tolerance = Some p ->
  length (upper_partition_points p) + length (lower_partition_points p) + 2
  <= length raw_vector.
Proof.
  intros EP.
  destruct (PartitionPoints_some raw_vector tolerance p EP)
    as (middle & ES & -> & ->).
  rewrite filter_split_length.
  pose proof (sublist_length _ _
                (retained_sublist middle (GetLocation (left p)))).
  rewrite <- (Permutation_length
                (list_sort_perm (@sort_comp Payload) raw_vector)), ES.
  list_length.
Qed.

(** On a sequence without NaNs, the elements that pass the test of the
    partition loop are strictly increasing in the order of the sort,
    behind [left], and none is after [right]: each vector is strictly
    increasing, and no two of its elements are at one location. *)
Theorem PartitionPoints_strictly_sorted raw_vector tolerance p :
  Forall no_nan raw_vector ->
  PartitionPoints raw_vector tolerance = Some p ->
  exists middle,
    let kept := retained (GetLocation (left p)) middle in
    list_sort (@sort_comp Payload) raw_vector
    = left p :: middle ++ [right p]
    /\ StronglySorted (@before Payload) (left p :: kept)
    /\ Forall (fun e => not_after e (right p)) kept
    /\ StronglySorted (@before Payload) (left p :: upper_partition_points p)
    /\ StronglySorted (@before Payload) (left p :: lower_partition_points p).
Proof.
  intros N EP.
  destruct (PartitionPoints_some raw_vector tolerance p EP)
    as (middle & ES & EU & EL).
  exists middle. cbv zeta. split; [exact ES|].
  pose proof (list_sort_perm (@sort_comp Payload) raw_vector) as P.
  assert (NS : Forall no_nan (left p :: middle ++ [right p])).
  { rewrite <- ES. eapply Permutation_Forall; [|exact N]. now symmetry. }
  assert (SS : StronglySorted (@not_after Payload)
                              (left p :: middle ++ [right p])).
  { rewrite <- ES in *. apply Sorted_not_after_strong; auto.
    apply list_sort_sorted. }
  rewrite app_comm_cons in SS, NS.
  apply StronglySorted_snoc_inv in SS as [SS F].
  apply Forall_app in NS as [NS _].
  pose proof (retained_strict middle (left p) NS SS) as K.
  pose proof (retained_sublist middle (GetLocation (left p))) as Sub.
  split; [exact K|]. split; [|split].
  - apply (sublist_Forall _ _ _ Sub). now apply Forall_inv_tail in F.
  - rewrite EU. eapply sublist_StronglySorted; [|exact K].
    apply sublist_cons, sublist_filter.
  - rewrite EL. eapply sublist_StronglySorted; [|exact K].
    apply sublist_cons, sublist_filter.
Qed.

(** ** Small and degenerate sequences *)

(** No element passes the test of the partition loop when all are at the
    location held in [loclast]. *)
Lemma retained_none (js : list SP) loclast :
  Forall (fun e => location_differs loclast (GetLocation e) = false) js ->
  retained loclast js = [].
Proof.
  induction 1 as [|i js D _ IH]; cbn [retained]; [reflexivity|].
  now rewrite D.
Qed.

(** A boundary sequence whose elements are all at one location [g]:
    [PruneInterior] returns [false] and the sequence is as it was, for any
    number of elements. *)
Theorem PruneInterior_all_coincident raw_vector tolerance g :
  Forall (fun e => location_differs g (GetLocation e) = false) raw_vector ->
  PruneInterior raw_vector tolerance = Some (false, raw_vector).
Proof.
  intros G.
  destruct (Nat.lt_ge_cases (length raw_vector) 3) as [L|L].
  { unfold PruneInterior. apply Nat.ltb_lt in L. now rewrite L. }
  destruct (PruneInterior_run raw_vector tolerance L)
    as (left & middle & right & lower & upper & lp & up
        & ES & _ & _ & _ & _ & _ & _ & _ & FL & FU & _ & E).
  cbv zeta in *. rewrite E.
  assert (GS : Forall (fun e => location_differs g (GetLocation e) = false)
                      (left :: middle ++ [right])).
  { rewrite <- ES. eapply Permutation_Forall; [|exact G].
    symmetry. apply list_sort_perm. }
  apply Forall_cons_iff in GS as [Gl GS]. apply Forall_app in GS as [GS _].
  rewrite retained_none in FL, FU.
  2,3: eapply Forall_impl; [|exact GS]; intros e Ge;
       now apply (location_differs_trans g).
  cbn [filter length] in FL, FU.
  destruct FL as [[-> _]|[_ FL]], FU as [[-> _]|[_ FU]]; try lia.
  reflexivity.
Qed.

(** A boundary sequence of three elements without NaNs, [left], [mid],
    [right] once sorted: [PruneInterior] returns [true] exactly when
    [mid] is not at the location of [left] and
    [Direction(left, right, mid)] is 0, and it then leaves [left],
    [right]; otherwise it returns [false] and the sequence is as it
    was. *)
Theorem PruneInterior_three_points raw_vector tolerance :
  Forall no_nan raw_vector ->
  length raw_vector = 3 ->
  exists left mid right,
    list_sort (@sort_comp Payload) raw_vector = [left; mid; right]
    /\ Permutation [left; mid; right] raw_vector
    /\ StronglySorted (@not_after Payload) [left; mid; right]
    /\ PruneInterior raw_vector tolerance
       = if location_differs (GetLocation left) (GetLocation mid)
            && (Direction (GetLocation left) (GetLocation right)
                          (GetLocation mid) tolerance =? 0)%Z
         then Some (true, [left; right])
         else Some (false, raw_vector).
Proof.
  intros N L.
  pose proof (list_sort_perm (@sort_comp Payload) raw_vector) as P.
  pose proof (Permutation_length P) as LS.
  pose proof (list_sort_sorted raw_vector) as SS.
  apply Sorted_not_after_strong in SS.
  2:{ eapply Permutation_Forall; [|exact N]. now symmetry. }
  rewrite L in LS.
  destruct (list_sort (@sort_comp Payload) raw_vector)
    as [|left [|mid [|right [|]]]] eqn:ES; try discriminate.
  exists left, mid, right. split; [reflexivity|].
  split; [exact P|]. split; [exact SS|].
  unfold PruneInterior, PartitionPoints. rewrite L, ES.
  cbn [Nat.ltb Nat.leb last removelast partition_loop].
  destruct (location_differs (GetLocation left) (GetLocation mid)) eqn:D;
    cbn [andb].
  - destruct (Direction (GetLocation left) (GetLocation right)
                        (GetLocation mid) tolerance) as [|q|q] eqn:Ed;
      cbn -[Direction BuildHull]; rewrite BuildHull_eq;
      unfold BuildHalfHull; cbn -[Direction]; rewrite ?Ed; reflexivity.
  - cbn -[BuildHull]. rewrite BuildHull_eq. reflexivity.
Qed.

(** [PruneInterior] has a result on any sequence.  It returns [false]
    exactly when the sequence is as it was, and [true] exactly when the
    sequence holds fewer elements than before; two elements at least are
    left then. *)
Theorem PruneInterior_flag raw_vector tolerance :
  exists changed res,
    PruneInterior raw_vector tolerance = Some (changed, res)
    /\ (changed = false <-> res = raw_vector)
    /\ (changed = true <-> length res < length raw_vector)
    /\ (changed = true -> 2 <= length res).
Proof.
  destruct (PruneInterior_cases raw_vector tolerance) as [E|(res & E & L)].
  - exists false, raw_vector. split; [exact E|].
    repeat split; auto; try discriminate. lia.
  - exists true, res. split; [exact E|].
    destruct (PruneInterior_true_run raw_vector tolerance res E)
      as (p & lower & upper & _ & _ & _ & _ & _ & _ & ->).
    repeat split; auto; try discriminate.
    + intros R. rewrite R in L. lia.
    + intros _. list_length.
Qed.

(** ** Sequences whose elements are at different locations *)

(** An element without NaNs is at its own location. *)
Lemma no_nan_same_location (a : SP) :
  no_nan a -> location_differs (GetLocation a) (GetLocation a) = false.
Proof.
  intros [N1 N2]. apply location_differs_false. unfold is_nan in N1, N2.
  split; now apply negb_false_iff.
Qed.

(** In a sequence without NaNs whose elements are at different
    locations, no element comes twice and any two are ordered by the sort
    one way or the other; and conversely. *)
Lemma distinct_locations_cases (l : list SP) :
  Forall no_nan l ->
  ForallOrdPairs
    (fun a b => location_differs (GetLocation a) (GetLocation b) = true) l ->
  NoDup l
  /\ forall a b, In a l -> In b l -> a = b \/ before a b \/ before b a.
Proof.
  intros N D. split.
  - induction D as [|a l F _ IH]; constructor.
    + intros H. rewrite Forall_forall in F. specialize (F a H).
      rewrite no_nan_same_location in F; [discriminate|].
      now apply Forall_inv in N.
    + apply IH. now apply Forall_inv_tail in N.
  - intros a b Ha Hb. rewrite Forall_forall in N.
    destruct (ForallOrdPairs_In D a b Ha Hb) as [->|H]; [now left|right].
    assert (Da : location_differs (GetLocation a) (GetLocation b) = true).
    { destruct H as [H|H]; auto. now rewrite location_differs_sym. }
    unfold before, sort_comp.
    destruct (location_less (GetLocation a) (GetLocation b)) eqn:L1; auto.
    destruct (location_less (GetLocation b) (GetLocation a)) eqn:L2; auto.
    destruct (N a Ha) as [A1 A2], (N b Hb) as [B1 B2].
    rewrite (location_trichotomy _ _ A1 A2 B1 B2 L1 L2) in Da. discriminate.
Qed.

Lemma cases_distinct_locations (l : list SP) :
  NoDup l ->
  (forall a b, In a l -> In b l -> a = b \/ before a b \/ before b a) ->
  ForallOrdPairs
    (fun a b => location_differs (GetLocation a) (GetLocation b) = true) l.
Proof.
  induction 1 as [|a l Ha ND IH]; intros Cmp; constructor.
  - apply Forall_forall. intros b Hb.
    destruct (Cmp a b (or_introl eq_refl) (or_intror Hb)) as [->|[H|H]].
    + contradiction.
    + now apply location_less_differs.
    + rewrite location_differs_sym. now apply location_less_differs.
  - apply IH. intros x y Hx Hy. apply Cmp; now right.
Qed.

(** Such a sequence is strictly increasing once sorted. *)
Lemma list_sort_strict (l : list SP) :
  NoDup l ->
  (forall a b, In a l -> In b l -> a = b \/ before a b \/ before b a) ->
  StronglySorted (@before Payload) (list_sort (@sort_comp Payload) l).
Proof.
  intros ND Cmp.
  pose proof (list_sort_perm (@sort_comp Payload) l) as P.
  apply sorted_strict.
  - eapply Permutation_NoDup; [symmetry; exact P|exact ND].
  - intros a b Ha Hb. apply Cmp; eapply Permutation_in; eauto.
  - apply list_sort_sorted.
Qed.

(** On a sequence without NaNs whose elements are at different
    locations, a run does not depend on the order of the elements: any
    rearrangement [raw_vector'] gives the same sorted list, the same
    [left], [right] and partition vectors, the same flag and, when the
    flag is [true], the same sequence. *)
Theorem PruneInterior_order_independent raw_vector raw_vector' tolerance :
  Forall no_nan raw_vector ->
  ForallOrdPairs
    (fun a b => location_differs (GetLocation a) (GetLocation b) = true)
    raw_vector ->
  Permutation raw_vector raw_vector' ->
  list_sort (@sort_comp Payload) raw_vector'
  = list_sort (@sort_comp Payload) raw_vector
  /\ PartitionPoints raw_vector' tolerance
     = PartitionPoints raw_vector tolerance
  /\ forall changed res,
       PruneInterior raw_vector tolerance = Some (changed, res) ->
       PruneInterior raw_vector' tolerance
       = Some (changed, if changed then res else raw_vector').
Proof.
  intros N D P.
  destruct (distinct_locations_cases raw_vector N D) as [ND Cmp].
  assert (ES : list_sort (@sort_comp Payload) raw_vector'
               = list_sort (@sort_comp Payload) raw_vector).
  { apply sorted_permutation_unique.
    - apply list_sort_strict.
      + eapply Permutation_NoDup; eauto.
      + intros a b Ha Hb.
        apply Cmp; apply (Permutation_in _ (Permutation_sym P)); assumption.
    - now apply list_sort_strict.
    - rewrite !list_sort_perm. now symmetry. }
  assert (EP : PartitionPoints raw_vector' tolerance
               = PartitionPoints raw_vector tolerance).
  { unfold PartitionPoints. now rewrite ES. }
  split; [exact ES|]. split; [exact EP|].
  intros changed res. unfold PruneInterior.
  rewrite EP, <- (Permutation_length P).
  destruct (length raw_vector <? 3).
  { now intros [= <- <-]. }
  destruct (PartitionPoints raw_vector tolerance) as [p|]; [|discriminate].
  destruct (negb (hull_pruned (BuildHull p tolerance))).
  { now intros [= <- <-]. }
  destruct (assemble _ _) as [res'|]; [|discriminate].
  destruct (length res' <=? length raw_vector); [|discriminate].
  now intros [= <- <-].
Qed.

(** ** The sequence left by a run that pruned *)

(** The sequence left by a run that returned [true], on a sequence
    without NaNs: [left], then elements [e] with
    [Direction(left, right, e) >= 0] strictly increasing in the order of
    the sort up to [right], then elements with
    [Direction(left, right, e) < 0] strictly decreasing down to [left].
    No element comes twice and no two elements are at one location. *)
Theorem PruneInterior_true_chains raw_vector tolerance res :
  Forall no_nan raw_vector ->
  PruneInterior raw_vector tolerance = Some (true, res) ->
  exists (left right : SP) lower upper,
    res = left :: lower ++ right :: rev upper
    /\ StronglySorted (@before Payload) (left :: lower ++ [right])
    /\ StronglySorted (@before Payload) (left :: upper ++ [right])
    /\ Forall (fun e => (0 <= Direction (GetLocation left) (GetLocation right)
                                        (GetLocation e) tolerance)%Z) lower
    /\ Forall (fun e => (Direction (GetLocation left) (GetLocation right)
                                   (GetLocation e) tolerance < 0)%Z) upper
    /\ NoDup res
    /\ ForallOrdPairs
         (fun a b => location_differs (GetLocation a) (GetLocation b) = true)
         res.
Proof.
  intros N E.
  destruct (PruneInterior_true_sorted raw_vector tolerance res N E)
    as (left & right & lower & upper & -> & SL & SU & Cross & GL & GU & _).
  exists left, right, lower, upper.
  split; [reflexivity|]. split; [exact SL|]. split; [exact SU|].
  set (res := left :: lower ++ right :: rev upper).
  destruct (chain_facts _ _ _ SL) as (Hlr & LL & LR & SL').
  destruct (chain_facts _ _ _ SU) as (_ & UL & UR & SU').
  assert (Irr : forall a : SP, ~ before a a) by apply before_irrefl.
  split; [|split].
  { eapply Forall_impl; [|exact GL]. intros e. unfold goes_upper.
    intros H%Z.ltb_ge. exact H. }
  { eapply Forall_impl; [|exact GU]. intros e. unfold goes_upper.
    intros H%Z.ltb_lt. exact H. }
  rewrite Forall_forall in LL, LR, UL, UR, GL, GU.
  assert (Mem : forall e, In e res <->
                          e = left \/ In e lower \/ e = right \/ In e upper).
  { intros e. unfold res. cbn [In]. rewrite in_app_iff. cbn [In].
    rewrite <- in_rev. intuition auto. }
  assert (ND : NoDup res).
  { unfold res. constructor.
    - intros H. apply in_app_or in H as [H|[H|H]].
      + eapply Irr; eauto.
      + subst. eapply Irr; eauto.
      + apply in_rev in H. eapply Irr; eauto.
    - apply NoDup_app.
      + eapply StronglySorted_NoDup; eauto.
      + constructor.
        * intros H. apply in_rev in H. eapply Irr; eauto.
        * apply NoDup_rev. eapply StronglySorted_NoDup; eauto.
      + intros a Ha [<-|Hb].
        * eapply Irr; eauto.
        * apply in_rev in Hb. apply GL in Ha. apply GU in Hb. congruence. }
  split; [exact ND|].
  apply cases_distinct_locations; [exact ND|].
  intros a b Ha Hb. apply Mem in Ha, Hb.
  destruct Ha as [->|[Ha|[->|Ha]]], Hb as [->|[Hb|[->|Hb]]]; auto 6;
    try (apply (StronglySorted_In_cases _ lower); now auto);
    try (apply (StronglySorted_In_cases _ upper); now auto);
    try (destruct (Cross a b) as [|]; now auto);
    try (destruct (Cross b a) as [|]; now auto).
Qed.

(** ** NaNs *)

(** What holds of any three consecutive elements of a sequence of three
    elements or more holds of all its elements. *)
Lemma triples_cover (Q : SP -> Prop) (l : list SP) :
  (forall pre a b c post,
      l = pre ++ a :: b :: c :: post -> Q a /\ Q b /\ Q c) ->
  3 <= length l -> Forall Q l.
Proof.
  induction l as [|a l IH]; intros T L; [cbn in L; lia|].
  destruct l as [|b [|c rest]]; try (cbn in L; lia).
  destruct (T [] a b c rest eq_refl) as (Qa & Qb & Qc).
  constructor; [exact Qa|].
  destruct rest as [|d rest]; [now repeat constructor|].
  apply IH; [|cbn; lia].
  intros pre x y z post E. apply (T (a :: pre) x y z post).
  cbn [app]. now rewrite E.
Qed.

(** A [Direction] other than 0 has no NaN among its arguments. *)
Lemma Direction_not_nan (a b c : SP) tolerance :
  Direction (GetLocation a) (GetLocation c) (GetLocation b) tolerance <> 0%Z ->
  is_nan tolerance = false /\ no_nan a /\ no_nan b /\ no_nan c.
Proof.
  intros D. unfold no_nan.
  destruct (is_nan tolerance) eqn:Nt,
           (is_nan (longitude (GetLocation a))) eqn:N1,
           (is_nan (latitude (GetLocation a))) eqn:N2,
           (is_nan (longitude (GetLocation b))) eqn:N3,
           (is_nan (latitude (GetLocation b))) eqn:N4,
           (is_nan (longitude (GetLocation c))) eqn:N5,
           (is_nan (latitude (GetLocation c))) eqn:N6;
    try (now auto);
    exfalso; apply D, Direction_of_nan; rewrite Nt, N1, N2, N3, N4, N5, N6;
    reflexivity.
Qed.

(** When the vector that [BuildHalfHull] returns holds an element
    besides [left] and [right], the tolerance is not a NaN and no element
    of the vector, [left] and [right] included, has a NaN coordinate: with
    a NaN in the tolerance, in [left] or in [right], every element of the
    input is erased. *)
Theorem BuildHalfHull_no_nan left right tolerance input factor :
  3 <= length (fst (BuildHalfHull left right tolerance input factor)) ->
  is_nan tolerance = false
  /\ Forall no_nan (fst (BuildHalfHull left right tolerance input factor)).
Proof.
  destruct (BuildHalfHull_spec left right tolerance input factor)
    as (mid & pruned & -> & _ & C & _).
  cbn [fst]. intros L.
  assert (T : forall pre a b c post,
             left :: mid ++ [right] = pre ++ a :: b :: c :: post ->
             is_nan tolerance = false /\ no_nan a /\ no_nan b /\ no_nan c).
  { intros pre a b c post E. apply Direction_not_nan.
    specialize (C pre a b c post E). lia. }
  split.
  - destruct mid as [|m mid]; [cbn in L; lia|].
    destruct (mid ++ [right]) as [|x rest] eqn:Em.
    { now destruct mid. }
    apply (T [] left m x rest). cbn [app]. now rewrite Em.
  - apply triples_cover; [|exact L].
    intros pre a b c post E. now apply (T pre a b c post).
Qed.

(** With a NaN as tolerance, every element that passes the test of the
    partition loop goes into the lower vector, and a run that returns
    [true] leaves [left] and [right] alone. *)
Theorem PruneInterior_nan_tolerance raw_vector tolerance res :
  is_nan tolerance = true ->
  PruneInterior raw_vector tolerance = Some (true, res) ->
  exists p,
    PartitionPoints raw_vector tolerance = Some p
    /\ upper_partition_points p = []
    /\ res = [left p; right p].
Proof.
  intros Nt E.
  destruct (PruneInterior_true_run raw_vector tolerance res E)
    as (p & lower & upper & EP & _ & _ & SU & CL & CU & ->).
  assert (Z : forall (c : Z) (mid : list SP),
             convex_chain tolerance c (left p :: mid ++ [right p]) ->
             mid = []).
  { intros c [|m mid] C; [reflexivity|exfalso].
    destruct (mid ++ [right p]) as [|x rest] eqn:Em.
    { now destruct mid. }
    specialize (C [] (left p) m x rest). cbn [app] in C.
    rewrite Em, Direction_of_nan in C.
    - specialize (C eq_refl). lia.
    - rewrite Nt. now rewrite !orb_true_r. }
  apply Z in CL, CU. subst lower upper.
  exists p. split; [exact EP|]. split; [|reflexivity].
  destruct (PartitionPoints_some raw_vector tolerance p EP)
    as (middle & _ & EU & _).
  rewrite EU. apply filter_none, Forall_forall. intros e _.
  unfold goes_upper. rewrite Direction_of_nan; [reflexivity|].
  rewrite Nt. now rewrite !orb_true_r.
Qed.

(** ** Which of the elements at one location is kept *)

(** In a sorted sequence without NaNs, all that comes in front of an
    element that passes the test of the partition loop is before it in
    the order of the sort. *)
Lemma retained_first (js : list SP) :
  forall x e,
    Forall no_nan (x :: js) ->
    StronglySorted (@not_after Payload) (x :: js) ->
    In e (retained (GetLocation x) js) ->
    exists pre post,
      js = pre ++ e :: post
      /\ Forall (fun y => before y e) (x :: pre).
Proof.
  induction js as [|i js IH]; intros x e N SS He; [contradiction|].
  cbn [retained] in He.
  apply StronglySorted_inv in SS as [SS Fx].
  apply Forall_cons_iff in N as [Nx N].
  pose proof (Forall_inv N) as Ni. pose proof (Forall_inv Fx) as Hxi.
  assert (SX : StronglySorted (@not_after Payload) (x :: js)).
  { constructor.
    - now apply StronglySorted_inv in SS.
    - now apply Forall_inv_tail in Fx. }
  assert (NX : Forall no_nan (x :: js)).
  { constructor; [exact Nx|]. now apply Forall_inv_tail in N. }
  destruct (location_differs (GetLocation x) (GetLocation i)) eqn:D.
  - destruct (not_after_cases x i Nx Ni Hxi) as [B|B]; [|congruence].
    destruct He as [<-|He].
    + exists [], js. split; [reflexivity|]. now repeat constructor.
    + destruct (IH i e N SS He) as (pre & post & -> & F).
      exists (i :: pre), post. split; [reflexivity|].
      constructor; [|exact F].
      eapply before_trans; [exact B|]. now apply Forall_inv in F.
  - destruct (IH x e NX SX He) as (pre & post & -> & F).
    exists (i :: pre), post. split; [reflexivity|].
    apply Forall_cons_iff in F as [Fx' F].
    constructor; [exact Fx'|]. constructor; [|exact F].
    unfold before, sort_comp in *.
    now rewrite <- (location_less_same_l _ _ _ D).
Qed.

(** Which of the elements at one location takes part, on a sequence
    without NaNs ([std::list::sort] keeps the elements of one location in
    the order of the boundary sequence): [left] is the first element of
    the boundary sequence at its location, [right] is the last one at its
    location, and an element of the upper or lower vector is the first
    one at its location. *)
Theorem PartitionPoints_first_of_location raw_vector tolerance p :
  Forall no_nan raw_vector ->
  PartitionPoints raw_vector tolerance = Some p ->
  let at_location_of e :=
    filter (fun y => negb (location_differs (GetLocation e) (GetLocation y)))
           raw_vector in
  (exists rest, at_location_of (left p) = left p :: rest)
  /\ (exists rest, at_location_of (right p) = rest ++ [right p])
  /\ forall e,
       In e (upper_partition_points p) \/ In e (lower_partition_points p) ->
       exists rest, at_location_of e = e :: rest.
Proof.
  intros N EP at_location_of.
  destruct (PartitionPoints_some raw_vector tolerance p EP)
    as (middle & ES & EU & EL).
  pose proof (list_sort_perm (@sort_comp Payload) raw_vector) as P.
  assert (NS : Forall no_nan (left p :: middle ++ [right p])).
  { rewrite <- ES. eapply Permutation_Forall; [|exact N]. now symmetry. }
  assert (SS : StronglySorted (@not_after Payload)
                              (left p :: middle ++ [right p])).
  { rewrite <- ES in *. apply Sorted_not_after_strong; auto.
    apply list_sort_sorted. }
  assert (Same : forall e : SP, no_nan e ->
                   negb (location_differs (GetLocation e) (GetLocation e))
                   = true).
  { intros e Ne. now rewrite no_nan_same_location. }
  assert (EF : forall e : SP, at_location_of e
                 = filter (fun y => negb (location_differs (GetLocation e)
                                                           (GetLocation y)))
                          (left p :: middle ++ [right p])).
  { intros e. unfold at_location_of. now rewrite <- list_sort_stable, ES. }
  split; [|split].
  - rewrite EF. cbn [filter]. rewrite Same by now apply Forall_inv in NS.
    eauto.
  - rewrite EF, app_comm_cons, filter_app. cbn [filter].
    rewrite Same; [eauto|].
    apply Forall_inv_tail, Forall_app in NS as [_ NS].
    now apply Forall_inv in NS.
  - intros e He.
    assert (Hk : In e (retained (GetLocation (left p)) middle)).
    { rewrite EU, EL in He. destruct He as [He|He];
        now apply filter_In in He. }
    rewrite app_comm_cons in SS, NS.
    apply StronglySorted_snoc_inv in SS as [SS _].
    apply Forall_app in NS as [NS _].
    destruct (retained_first middle (left p) e NS SS Hk)
      as (pre & post & EM & F).
    rewrite EF, EM.
    replace (left p :: (pre ++ e :: post) ++ [right p])
      with ((left p :: pre) ++ e :: post ++ [right p])
      by (cbn [app]; now rewrite <- app_assoc).
    rewrite filter_app, filter_none.
    + cbn [app filter]. rewrite Same; [eauto|].
      rewrite Forall_forall in NS. apply NS. right. rewrite EM.
      apply in_or_app. right. now left.
    + eapply Forall_impl; [|exact F]. intros y B. cbn beta.
      apply negb_false_iff. rewrite location_differs_sym.
      now apply location_less_differs.
Qed.

End GrahamScanProperties.

(** ** Exact positions *)

Section ExactPositions.
Local Open Scope Z_scope.

(** The comparisons of binary64 on finite numbers are those of the
    numbers they stand for. *)
Lemma is_finite_spec x : is_finite x = true -> SFfinite (Prim2SF x) = true.
Proof.
  unfold is_finite, is_nan, is_infinity.
  rewrite !eqb_spec, abs_spec.
  change (Prim2SF infinity) with (S754_infinity false).
  destruct (Prim2SF x) as [s|s| |s m e]; try reflexivity;
    try destruct s; intros H; vm_compute in H; discriminate.
Qed.

Lemma digits2_pos_bounds m :
  2 ^ (Z.pos (digits2_pos m) - 1) <= Z.pos m < 2 ^ Z.pos (digits2_pos m).
Proof.
  induction m as [m IH|m IH|]; cbn [digits2_pos].
  - rewrite Pos2Z.inj_succ.
    replace (Z.succ (Z.pos (digits2_pos m)) - 1)
      with (Z.succ (Z.pos (digits2_pos m) - 1)) by lia.
    rewrite !Z.pow_succ_r by lia. lia.
  - rewrite Pos2Z.inj_succ.
    replace (Z.succ (Z.pos (digits2_pos m)) - 1)
      with (Z.succ (Z.pos (digits2_pos m) - 1)) by lia.
    rewrite !Z.pow_succ_r by lia. lia.
  - cbn. lia.
Qed.

Lemma bounded_canonical m e :
  bounded prec emax m e = true ->
  -1074 <= e
  /\ Z.pos m < 2 ^ 53
  /\ (-1074 < e -> 2 ^ 52 <= Z.pos m).
Proof.
  unfold bounded, canonical_mantissa, fexp.
  intros [H _]%andb_prop. apply Z.eqb_eq in H.
  change (SpecFloat.emin prec emax) with (-1074) in H.
  change prec with 53 in H. change IntDef.Z.max with Z.max in H.
  pose proof (digits2_pos_bounds m) as [B1 B2].
  set (d := Z.pos (digits2_pos m)) in *.
  assert (D : 0 < d) by (unfold d; lia).
  split; [lia|]. split.
  - apply Z.lt_le_trans with (2 ^ d); auto.
    apply Z.pow_le_mono_r; lia.
  - intros L. assert (d = 53) as E by lia. rewrite E in B1. exact B1.
Qed.

Lemma scaled_lt m1 e1 m2 e2 :
  bounded prec emax m1 e1 = true -> bounded prec emax m2 e2 = true ->
  e1 < e2 ->
  Z.pos m1 * 2 ^ (e1 + 1074) < Z.pos m2 * 2 ^ (e2 + 1074).
Proof.
  intros (L1 & U1 & _)%bounded_canonical (L2 & _ & N2)%bounded_canonical E.
  specialize (N2 ltac:(lia)).
  assert (P : 0 < 2 ^ (e1 + 1074)) by (apply Z.pow_pos_nonneg; lia).
  assert (M : 2 * 2 ^ (e1 + 1074) <= 2 ^ (e2 + 1074)).
  { rewrite <- Z.pow_succ_r by lia. apply Z.pow_le_mono_r; lia. }
  change (2 ^ 53) with (2 * 2 ^ 52) in U1.
  nia.
Qed.

Lemma SFcompare_exact x y :
  valid_binary x = true -> valid_binary y = true ->
  SFfinite x = true -> SFfinite y = true ->
  SFcompare x y = Some (SFexact x ?= SFexact y).
Proof.
  intros Vx Vy Fx Fy.
  destruct x as [sx|sx| |sx mx ex], y as [sy|sy| |sy my ey];
    try discriminate; cbn [SFcompare SFexact].
  - reflexivity.
  - assert (0 < Z.pos my * 2 ^ (ey + 1074)).
    { apply bounded_canonical in Vy. apply Z.mul_pos_pos; [lia|].
      apply Z.pow_pos_nonneg; lia. }
    destruct sy; f_equal; symmetry.
    + apply Z.compare_gt_iff. lia.
    + apply Z.compare_lt_iff. lia.
  - assert (0 < Z.pos mx * 2 ^ (ex + 1074)).
    { apply bounded_canonical in Vx. apply Z.mul_pos_pos; [lia|].
      apply Z.pow_pos_nonneg; lia. }
    destruct sx; f_equal; symmetry.
    + apply Z.compare_lt_iff. lia.
    + apply Z.compare_gt_iff. lia.
  - cbn [valid_binary] in Vx, Vy.
    assert (Px : 0 < Z.pos mx * 2 ^ (ex + 1074)).
    { apply bounded_canonical in Vx. apply Z.mul_pos_pos; [lia|].
      apply Z.pow_pos_nonneg; lia. }
    assert (Py : 0 < Z.pos my * 2 ^ (ey + 1074)).
    { apply bounded_canonical in Vy. apply Z.mul_pos_pos; [lia|].
      apply Z.pow_pos_nonneg; lia. }
    assert (Q : 0 < 2 ^ (ey + 1074)).
    { apply bounded_canonical in Vy. apply Z.pow_pos_nonneg; lia. }
    destruct sx, sy; f_equal; symmetry.
    + destruct (Z.compare_spec ex ey) as [->|L|L].
      * change (Pos.compare_cont Eq mx my) with (Pos.compare mx my).
        destruct (Pos.compare_spec mx my) as [->|L|L]; cbn [CompOpp].
        -- apply Z.compare_eq_iff. reflexivity.
        -- apply Z.compare_gt_iff. nia.
        -- apply Z.compare_lt_iff. nia.
      * apply Z.compare_gt_iff.
        pose proof (scaled_lt _ _ _ _ Vx Vy L). lia.
      * apply Z.compare_lt_iff.
        pose proof (scaled_lt _ _ _ _ Vy Vx L). lia.
    + apply Z.compare_lt_iff. lia.
    + apply Z.compare_gt_iff. lia.
    + destruct (Z.compare_spec ex ey) as [->|L|L].
      * change (Pos.compare_cont Eq mx my) with (Pos.compare mx my).
        destruct (Pos.compare_spec mx my) as [->|L|L].
        -- apply Z.compare_eq_iff. reflexivity.
        -- apply Z.compare_lt_iff. nia.
        -- apply Z.compare_gt_iff. nia.
      * apply Z.compare_lt_iff.
        pose proof (scaled_lt _ _ _ _ Vx Vy L). lia.
      * apply Z.compare_gt_iff.
        pose proof (scaled_lt _ _ _ _ Vy Vx L). lia.
Qed.

Lemma ltb_exact x y :
  is_finite x = true -> is_finite y = true ->
  (x <? y)%float = true -> exact_value x < exact_value y.
Proof.
  intros Fx%is_finite_spec Fy%is_finite_spec. rewrite ltb_spec.
  unfold SFltb, exact_value.
  rewrite (SFcompare_exact _ _ (Prim2SF_valid x) (Prim2SF_valid y) Fx Fy).
  destruct (Z.compare_spec (SFexact (Prim2SF x)) (SFexact (Prim2SF y)));
    congruence.
Qed.

Lemma eqb_exact x y :
  is_finite x = true -> is_finite y = true ->
  (x =? y)%float = true -> exact_value x = exact_value y.
Proof.
  intros Fx%is_finite_spec Fy%is_finite_spec. rewrite eqb_spec.
  unfold SFeqb, exact_value.
  rewrite (SFcompare_exact _ _ (Prim2SF_valid x) (Prim2SF_valid y) Fx Fy).
  destruct (Z.compare_spec (SFexact (Prim2SF x)) (SFexact (Prim2SF y)));
    congruence.
Qed.

(** Vectors that go forward in the order of the sort are in a half
    plane: turning left is transitive among them. *)
Lemma lex_pos_trans e f g :
  lex_pos e -> lex_pos f -> lex_pos g ->
  0 < cross e f -> 0 < cross f g -> 0 < cross e g.
Proof.
  unfold lex_pos, cross. destruct e as [ex ey], f as [fx fy], g as [gx gy].
  cbn [fst snd]. intros He Hf Hg H1 H2.
  destruct Hf as [Hf|[-> Hf]].
  - assert (0 < fx * (ex * gy - gx * ey)); [|nia].
    replace (fx * (ex * gy - gx * ey))
      with ((ex * fy - fx * ey) * gx + (fx * gy - gx * fy) * ex) by ring.
    destruct He as [He|[-> He]], Hg as [Hg|[-> Hg]]; nia.
  - destruct He as [He|[-> He]], Hg as [Hg|[-> Hg]]; nia.
Qed.

Lemma lex_neg_trans e f g :
  lex_neg e -> lex_neg f -> lex_neg g ->
  0 < cross e f -> 0 < cross f g -> 0 < cross e g.
Proof.
  unfold lex_neg, cross. destruct e as [ex ey], f as [fx fy], g as [gx gy].
  cbn [fst snd]. intros He Hf Hg H1 H2.
  destruct Hf as [Hf|[-> Hf]].
  - assert (0 < (- fx) * (ex * gy - gx * ey)); [|nia].
    replace (- fx * (ex * gy - gx * ey))
      with ((ex * fy - fx * ey) * (- gx) + (fx * gy - gx * fy) * (- ex))
      by ring.
    destruct He as [He|[-> He]], Hg as [Hg|[-> Hg]]; nia.
  - destruct He as [He|[-> He]], Hg as [Hg|[-> Hg]]; nia.
Qed.

Lemma cross_sub_r e x z y :
  cross e (vsub y x) = cross e (vsub z x) + cross e (vsub y z).
Proof. unfold cross, vsub. cbn [fst snd]. ring. Qed.

Lemma cross_sub_l e x z y :
  cross (vsub y x) e = cross (vsub z x) e + cross (vsub y z) e.
Proof. unfold cross, vsub. cbn [fst snd]. ring. Qed.

Lemma cross_flip e p s : cross e (vsub s p) = cross (vsub p s) e.
Proof. unfold cross, vsub. cbn [fst snd]. ring. Qed.

Lemma cross_self e : cross e e = 0.
Proof. unfold cross. ring. Qed.

Lemma edges_app (l1 : list vec) x l2 :
  edges (l1 ++ x :: l2) = edges (l1 ++ [x]) ++ edges (x :: l2).
Proof.
  induction l1 as [|a l1 IH]; [reflexivity|].
  destruct l1 as [|b l1]; [reflexivity|].
  change (edges ((a :: b :: l1) ++ x :: l2))
    with (vsub b a :: edges ((b :: l1) ++ x :: l2)).
  now rewrite IH.
Qed.

Lemma StronglySorted_before {A} (R : A -> A -> Prop) l1 a l2 :
  StronglySorted R (l1 ++ a :: l2) -> Forall (fun x => R x a) l1.
Proof.
  induction l1 as [|x l1 IH]; cbn [app]; intros S; [constructor|].
  apply StronglySorted_inv in S as [S F]. constructor; auto.
  rewrite Forall_forall in F. apply F, in_or_app. right. now left.
Qed.

Lemma StronglySorted_cross {A} (R : A -> A -> Prop) l1 l2 :
  StronglySorted R (l1 ++ l2) ->
  forall a b, In a l1 -> In b l2 -> R a b.
Proof.
  induction l1 as [|x l1 IH]; cbn [app]; intros S a b Ha Hb; [easy|].
  apply StronglySorted_inv in S as [S F]. destruct Ha as [<-|Ha]; eauto.
  rewrite Forall_forall in F. apply F, in_or_app. now right.
Qed.

Lemma last_In {A} (q : A) post : In (last post q) (q :: post).
Proof.
  revert q. induction post as [|x post IH]; intros q; [now left|].
  right. rewrite last_cons_default. apply IH.
Qed.

Section Increments.
Variable phi : vec -> Z.
Hypothesis phi_add :
  forall x z y, phi (vsub y x) = phi (vsub z x) + phi (vsub y z).

Lemma increments_nonneg c :
  Forall (fun f => 0 <= phi f) (edges c) ->
  StronglySorted (fun x y => 0 <= phi (vsub y x)) c.
Proof.
  induction c as [|a c IH]; intros F; [constructor|].
  destruct c as [|b c]; [repeat constructor|].
  cbn [edges] in F. apply Forall_cons_iff in F as [Fa F].
  specialize (IH F). constructor; [exact IH|].
  constructor; [exact Fa|].
  apply StronglySorted_inv in IH as [_ Fb].
  eapply Forall_impl; [|exact Fb]. intros y Hy. cbn beta in *.
  rewrite (phi_add a b y). lia.
Qed.

Lemma increments_pos c :
  Forall (fun f => 0 < phi f) (edges c) ->
  StronglySorted (fun x y => 0 < phi (vsub y x)) c.
Proof.
  induction c as [|a c IH]; intros F; [constructor|].
  destruct c as [|b c]; [repeat constructor|].
  cbn [edges] in F. apply Forall_cons_iff in F as [Fa F].
  specialize (IH F). constructor; [exact IH|].
  constructor; [exact Fa|].
  apply StronglySorted_inv in IH as [_ Fb].
  eapply Forall_impl; [|exact Fb]. intros y Hy. cbn beta in *.
  rewrite (phi_add a b y). lia.
Qed.
End Increments.

Section ConvexPath.
Variable cone : vec -> Prop.
Hypothesis cone_trans :
  forall e f g,
    cone e -> cone f -> cone g ->
    0 < cross e f -> 0 < cross f g -> 0 < cross e g.

Lemma turns_trans : Relations_1.Transitive (turns cone).
Proof.
  intros e f g (He & Hf & H1) (_ & Hg & H2).
  split; [exact He|]. split; [exact Hg|].
  exact (cone_trans e f g He Hf Hg H1 H2).
Qed.

Lemma convex_path_strong c :
  convex_path cone c -> StronglySorted (turns cone) (edges c).
Proof. intros [_ S]. apply Sorted_StronglySorted; auto using turns_trans. Qed.

(** Every point of a convex path is on the left of, or on, the line along
    any of its edges. *)
Lemma convex_path_left pre p q post s :
  convex_path cone (pre ++ p :: q :: post) ->
  In s (pre ++ p :: q :: post) ->
  0 <= cross (vsub q p) (vsub s p).
Proof.
  intros C Hs. apply convex_path_strong in C.
  rewrite edges_app in C. cbn [edges] in C.
  set (e := vsub q p) in *.
  apply in_app_or in Hs as [Hs|[<-|Hs]].
  - rewrite cross_flip.
    apply StronglySorted_before in C.
    assert (F : Forall (fun f => 0 <= cross f e) (edges (pre ++ [p]))).
    { eapply Forall_impl; [|exact C]. intros f (_ & _ & H). lia. }
    apply (increments_nonneg (fun v => cross v e)) in F.
    2:{ intros x z y. apply cross_sub_l. }
    apply StronglySorted_cross with (a := s) (b := p) in F; auto.
    now left.
  - unfold cross, vsub. cbn [fst snd]. lia.
  - apply StronglySorted_after in C.
    assert (F : Forall (fun f => 0 <= cross e f) (edges (p :: q :: post))).
    { cbn [edges]. constructor; [fold e; rewrite cross_self; lia|].
      eapply Forall_impl; [|exact C]. intros f (_ & _ & H). lia. }
    apply (increments_nonneg (cross e)) in F.
    2:{ intros x z y. apply cross_sub_r. }
    apply StronglySorted_inv in F as [_ F]. rewrite Forall_forall in F.
    now apply F.
Qed.

(** An inner point of a convex path is strictly on the right of the line
    from its first point to its last. *)
Lemma convex_path_inner a m1 s m2 b :
  convex_path cone (a :: m1 ++ s :: m2 ++ [b]) ->
  0 < cross (vsub s a) (vsub b s).
Proof.
  intros C. apply convex_path_strong in C.
  rewrite app_comm_cons, edges_app in C.
  pose proof (StronglySorted_cross _ _ _ C) as X.
  assert (F : forall f, In f (edges ((a :: m1) ++ [s])) ->
                        0 < cross f (vsub b s)).
  { intros f Hf.
    assert (G : Forall (fun g => 0 < cross f g) (edges (s :: m2 ++ [b]))).
    { apply Forall_forall. intros g Hg. now apply (X f g). }
    apply (increments_pos (cross f)) in G.
    2:{ intros x z y. apply cross_sub_r. }
    apply StronglySorted_inv in G as [_ G]. rewrite Forall_forall in G.
    apply G, in_or_app. right. now left. }
  apply Forall_forall in F.
  apply (increments_pos (fun v => cross v (vsub b s))) in F.
  2:{ intros x z y. apply cross_sub_l. }
  cbn [app] in F. apply StronglySorted_inv in F as [_ F].
  rewrite Forall_forall in F. apply F, in_or_app. right. now left.
Qed.

(** A point between the first point [a] and the last point [b] of a
    convex path, on the left of the line from [a] to [b], is on the left
    of the line along any edge of the path. *)
Lemma convex_path_left_of pre p q post a b s :
  convex_path cone (pre ++ p :: q :: post) ->
  hd p pre = a -> last post q = b ->
  cone (vsub s a) -> cone (vsub b s) ->
  cross (vsub s a) (vsub b s) < 0 ->
  0 <= cross (vsub q p) (vsub s p).
Proof.
  intros C Ha Hb Ca Cb X.
  assert (Ia : In a (pre ++ p :: q :: post)).
  { subst a. destruct pre; cbn; auto. }
  assert (Ib : In b (pre ++ p :: q :: post)).
  { subst b. apply in_or_app. right. right.
    apply last_In. }
  pose proof (convex_path_left _ _ _ _ a C Ia) as La.
  pose proof (convex_path_left _ _ _ _ b C Ib) as Lb.
  assert (Ce : cone (vsub q p)).
  { destruct C as [F _]. rewrite edges_app in F. cbn [edges] in F.
    apply Forall_app in F as [_ F]. now apply Forall_inv in F. }
  set (e := vsub q p) in *.
  rewrite (cross_sub_r e p a s).
  destruct (Z_le_gt_dec 0 (cross e (vsub s a))) as [H|H]; [lia|].
  assert (H1 : 0 < cross (vsub b s) (vsub s a)).
  { revert X. unfold cross. lia. }
  assert (H2 : 0 < cross (vsub s a) e).
  { revert H. unfold cross. lia. }
  pose proof (cone_trans _ _ _ Cb Ca Ce H1 H2) as H3.
  rewrite (cross_sub_r e p s b) in Lb.
  rewrite <- (cross_sub_r e p a s).
  revert Lb H3. unfold cross. lia.
Qed.
End ConvexPath.

Lemma pair_in_app {A} (l1 : list A) x l2 pre p q post :
  l1 ++ x :: l2 = pre ++ p :: q :: post ->
  (exists post', l1 ++ [x] = pre ++ p :: q :: post')
  \/ (exists pre', x :: l2 = pre' ++ p :: q :: post).
Proof.
  revert pre. induction l1 as [|y l1 IH]; intros pre E.
  - right. exists pre. exact E.
  - destruct pre as [|z pre].
    + cbn [app] in E. injection E as -> E.
      destruct l1 as [|y' l1].
      * cbn [app] in E. injection E as -> E.
        left. exists []. reflexivity.
      * cbn [app] in E. injection E as -> E.
        left. exists (l1 ++ [x]). reflexivity.
    + cbn [app] in E. injection E as -> E.
      destruct (IH pre E) as [(post' & E')|(pre' & E')].
      * left. exists post'. cbn [app]. now rewrite E'.
      * right. exists pre'. exact E'.
Qed.

Lemma last_app_cons {A} (pre : list A) x l d :
  last (pre ++ x :: l) d = last l x.
Proof.
  revert d. induction pre as [|y pre IH]; intros d; cbn [app];
    rewrite last_cons_default; auto.
Qed.

Lemma last_of_split {A} (l : list A) b pre p q post :
  l ++ [b] = pre ++ p :: q :: post -> last post q = b.
Proof.
  intros E. apply (f_equal (fun l => last l b)) in E.
  rewrite last_last in E.
  rewrite (last_app_cons pre p (q :: post)), last_cons_default in E.
  now symmetry.
Qed.

Lemma hd_of_split {A} (a : A) l pre p q post :
  a :: l = pre ++ p :: q :: post -> hd p pre = a.
Proof. destruct pre; cbn; congruence. Qed.

Lemma lex_neg_opp u v : lex_pos (vsub u v) -> lex_neg (vsub v u).
Proof. unfold lex_pos, lex_neg, vsub. cbn [fst snd]. lia. Qed.

(** Two convex paths from [a] to [b], one leaving to the right of the
    line from [a] to [b] and gone through from [a] to [b], one leaving to
    the left and gone through from [b] to [a]: every point of the closed
    path is on the left of, or on, the line along any of its edges. *)
Lemma closed_path_left a b lo up :
  convex_path lex_pos (a :: lo ++ [b]) ->
  convex_path lex_neg (b :: rev up ++ [a]) ->
  (forall s, In s lo -> lex_pos (vsub s a) /\ lex_pos (vsub b s)) ->
  (forall s, In s up ->
     lex_pos (vsub s a) /\ lex_pos (vsub b s)
     /\ cross (vsub s a) (vsub b s) < 0) ->
  forall pre p q post s,
    (a :: lo ++ b :: rev up) ++ [a] = pre ++ p :: q :: post ->
    In s (a :: lo ++ b :: rev up) ->
    0 <= cross (vsub q p) (vsub s p).
Proof.
  intros HL HU SL SU pre p q post s E Hs.
  assert (Hs' : In s (a :: lo ++ [b]) \/ In s up).
  { destruct Hs as [<-|Hs]; [left; now left|].
    apply in_app_or in Hs as [Hs|[<-|Hs]].
    - left. right. apply in_or_app. now left.
    - left. right. apply in_or_app. right. now left.
    - right. now apply in_rev. }
  assert (Hs'' : In s (b :: rev up ++ [a]) \/ In s lo).
  { destruct Hs as [<-|Hs].
    - left. right. apply in_or_app. right. now left.
    - apply in_app_or in Hs as [Hs|[<-|Hs]]; auto.
      + left. now left.
      + left. right. apply in_or_app. now left. }
  change ((a :: lo ++ b :: rev up) ++ [a])
    with (a :: (lo ++ b :: rev up) ++ [a]) in E.
  rewrite <- app_assoc in E. cbn [app] in E.
  rewrite app_comm_cons in E.
  apply pair_in_app in E as [(post' & E)|(pre' & E)].
  - cbn [app] in E. rewrite E in HL.
    destruct Hs' as [Hl|Hu].
    + rewrite E in Hl.
      exact (convex_path_left lex_pos lex_pos_trans pre p q post' s HL Hl).
    + destruct (SU s Hu) as (C1 & C2 & X).
      apply (convex_path_left_of lex_pos lex_pos_trans pre p q post' a b);
        auto.
      * eapply hd_of_split; eauto.
      * rewrite app_comm_cons in E. eapply last_of_split; eauto.
  - rewrite E in HU.
    destruct Hs'' as [Hu|Hl].
    + rewrite E in Hu.
      exact (convex_path_left lex_neg lex_neg_trans pre' p q post s HU Hu).
    + destruct (SL s Hl) as (C1 & C2).
      apply in_split in Hl as (m1 & m2 & ->).
      rewrite <- app_assoc in HL. cbn [app] in HL.
      pose proof (convex_path_inner lex_pos lex_pos_trans _ _ _ _ _ HL) as X.
      apply (convex_path_left_of lex_neg lex_neg_trans pre' p q post b a);
        auto.
      * eapply hd_of_split; eauto.
      * rewrite app_comm_cons in E. eapply last_of_split; eauto.
      * now apply lex_neg_opp.
      * now apply lex_neg_opp.
      * revert X. unfold cross, vsub. cbn [fst snd]. lia.
Qed.

(** A path whose edges are in the cone and turn left one after the
    other. *)
Lemma convex_path_intro cone c :
  (forall pre x y post, c = pre ++ x :: y :: post -> cone (vsub y x)) ->
  (forall pre x y z post,
     c = pre ++ x :: y :: z :: post -> 0 < cross (vsub y x) (vsub z y)) ->
  convex_path cone c.
Proof.
  induction c as [|x c IH]; intros He Ht; [split; constructor|].
  destruct c as [|y c]; [split; constructor|].
  destruct IH as [F S].
  { intros pre x' y' post E. apply (He (x :: pre) x' y' post).
    cbn [app]. now rewrite E. }
  { intros pre x' y' z' post E. apply (Ht (x :: pre) x' y' z' post).
    cbn [app]. now rewrite E. }
  pose proof (He [] x y c eq_refl) as Cx.
  split; cbn [edges]; constructor; auto.
  destruct c as [|z c]; constructor.
  split; [exact Cx|]. split.
  - now apply Forall_inv in F.
  - apply (Ht [] x y z c eq_refl).
Qed.

Lemma convex_path_edge cone pre p q post :
  convex_path cone (pre ++ p :: q :: post) -> cone (vsub q p).
Proof.
  intros [F _]. rewrite edges_app in F. cbn [edges] in F.
  apply Forall_app in F as [_ F]. now apply Forall_inv in F.
Qed.

(** No edge of the closed path is the null vector. *)
Lemma closed_path_edge a b lo up :
  convex_path lex_pos (a :: lo ++ [b]) ->
  convex_path lex_neg (b :: rev up ++ [a]) ->
  forall pre p q post,
    (a :: lo ++ b :: rev up) ++ [a] = pre ++ p :: q :: post ->
    lex_pos (vsub q p) \/ lex_neg (vsub q p).
Proof.
  intros HL HU pre p q post E.
  change ((a :: lo ++ b :: rev up) ++ [a])
    with (a :: (lo ++ b :: rev up) ++ [a]) in E.
  rewrite <- app_assoc in E. cbn [app] in E.
  rewrite app_comm_cons in E.
  apply pair_in_app in E as [(post' & E)|(pre' & E)].
  - cbn [app] in E. rewrite E in HL. left.
    eapply convex_path_edge; eauto.
  - rewrite E in HU. right. eapply convex_path_edge; eauto.
Qed.

(** A point with all of [a], [b], [c] on the left of, or on, a line
    through it is not strictly inside the triangle [a], [b], [c]; [d] is
    the direction of the line, and [a], [b], [c] are taken from the
    point. *)
Lemma not_inside_triangle d a b c :
  lex_pos d \/ lex_neg d ->
  0 <= cross d a -> 0 <= cross d b -> 0 <= cross d c ->
  ~ ((0 < cross a b /\ 0 < cross b c /\ 0 < cross c a)
     \/ (cross a b < 0 /\ cross b c < 0 /\ cross c a < 0)).
Proof.
  unfold lex_pos, lex_neg, cross.
  destruct d as [dx dy], a as [ax ay], b as [bx b_y], c as [cx cy].
  cbn [fst snd]. intros D Ha Hb Hc.
  set (la := dx * ay - ax * dy) in *.
  set (lb := dx * b_y - bx * dy) in *.
  set (lc := dx * cy - cx * dy) in *.
  set (wa := bx * cy - cx * b_y). set (wb := cx * ay - ax * cy).
  set (wc := ax * b_y - bx * ay).
  assert (I : wa * la + wb * lb + wc * lc = 0)
    by (unfold la, lb, lc, wa, wb, wc; ring).
  assert (Jx : dx * wc = ax * lb - bx * la) by (unfold la, lb, wc; ring).
  assert (Jy : dy * wc = ay * lb - b_y * la) by (unfold la, lb, wc; ring).
  intros [(W1 & W2 & W3)|(W1 & W2 & W3)].
  - assert (la = 0 /\ lb = 0) as [Za Zb] by nia.
    rewrite Za, Zb in Jx, Jy. nia.
  - assert (la = 0 /\ lb = 0) as [Za Zb] by nia.
    rewrite Za, Zb in Jx, Jy. nia.
Qed.

(** A value above a tolerance that is not below zero is above zero, and a
    value below the opposite of such a tolerance is below zero. *)
Lemma SFltb_above_tolerance t v :
  SFltb t (S754_zero false) = false -> SFltb t v = true ->
  SFltb (S754_zero false) v = true.
Proof. unfold SFltb. intros H1 H2. case_floats; case_compare. Qed.

Lemma SFltb_below_tolerance t v :
  SFltb t (S754_zero false) = false -> SFltb v (SFopp t) = true ->
  SFltb v (S754_zero false) = true.
Proof. unfold SFltb. intros H1 H2. case_floats; case_compare. Qed.

Lemma Sign_exact v t :
  is_finite v = true -> (t <? 0)%float = false ->
  (0 < Sign v t -> 0 < exact_value v)
  /\ (Sign v t < 0 -> exact_value v < 0).
Proof.
  intros Fv Ht. unfold Sign.
  assert (F0 : is_finite 0 = true) by reflexivity.
  assert (E0 : exact_value 0 = 0) by reflexivity.
  split; intros S.
  - destruct (t <? v)%float eqn:A.
    + rewrite <- E0. apply ltb_exact; auto.
      rewrite ltb_spec in *. eapply SFltb_above_tolerance; eauto.
    + destruct (v <? - t)%float; lia.
  - destruct (t <? v)%float eqn:A; [lia|].
    destruct (v <? - t)%float eqn:B; [|lia].
    rewrite <- E0. apply ltb_exact; auto.
    rewrite ltb_spec, ?opp_spec in *. eapply SFltb_below_tolerance; eauto.
Qed.

(** With exact operations [Direction] is sound. *)
Lemma exact_Direction_sound p0 p1 p2 tolerance :
  exact_Direction p0 p1 p2 ->
  (0 < Direction p0 p1 p2 tolerance -> 0 < exact_cross p1 p0 p2)
  /\ (Direction p0 p1 p2 tolerance < 0 -> exact_cross p1 p0 p2 < 0).
Proof.
  unfold exact_Direction, Direction, GeoPoint_sub. cbn [longitude latitude].
  set (a := (_ * _)%float). set (b := (_ * _)%float).
  intros ([_ X0] & [_ Y0] & [_ X2] & [_ Y2] & [_ A] & [_ B] & [Fv V]).
  fold a in A. fold b in B.
  set (t := if (tolerance <? 0)%float then _ else _).
  assert (Ht : (t <? 0)%float = false).
  { unfold t. destruct (tolerance <? 0)%float eqn:E; auto.
    apply auto_tolerance_not_below_zero. }
  destruct (Sign_exact (a - b) t Fv Ht) as [S1 S2].
  assert (K : 0 < 2 ^ 1074) by (apply Z.pow_pos_nonneg; lia).
  assert (C : exact_value (a - b) * 2 ^ 1074 = exact_cross p1 p0 p2).
  { unfold exact_cross, cross, vsub, position. cbn [fst snd].
    rewrite V, Z.mul_sub_distr_r, A, B, X0, Y0, X2, Y2. ring. }
  split; intros D; [specialize (S1 D)|specialize (S2 D)]; nia.
Qed.

End ExactPositions.

(** ** The sequence left by a run, on exact positions *)

Section ConvexResult.

Variable Payload : Type.
Local Abbreviation SP := (SearchPoint Payload).
Implicit Types (left right : SP) (tolerance : float).
Implicit Types (raw_vector res lower upper chain : list SP).

Local Abbreviation pos := (fun s : SP => position (GetLocation s)).

Lemma finite_no_nan (s : SP) : finite_coordinates s -> no_nan s.
Proof.
  unfold finite_coordinates, no_nan, is_finite.
  intros [H1 H2]. apply negb_true_iff, orb_false_elim in H1, H2.
  tauto.
Qed.

(** The order of the sort on finite coordinates is the order of the
    positions. *)
Lemma before_lex_pos (a b : SP) :
  finite_coordinates a -> finite_coordinates b -> before a b ->
  lex_pos (vsub (pos b) (pos a)).
Proof.
  intros [A1 A2] [B1 B2]. unfold before, sort_comp, location_less.
  unfold lex_pos, vsub, position. cbn [fst snd].
  destruct (longitude (GetLocation a) <? longitude (GetLocation b))%float
    eqn:L.
  - intros _. left. pose proof (ltb_exact _ _ A1 B1 L). lia.
  - destruct (longitude (GetLocation a) =? longitude (GetLocation b))%float
      eqn:E; [|discriminate].
    intros L'. right.
    pose proof (eqb_exact _ _ A1 B1 E). pose proof (ltb_exact _ _ A2 B2 L').
    lia.
Qed.

(** The elements left by a run are elements of the sequence given. *)
Lemma PruneInterior_In raw_vector tolerance res (e : SP) :
  PruneInterior raw_vector tolerance = Some (true, res) ->
  In e res -> In e raw_vector.
Proof.
  intros E He.
  destruct (PruneInterior_true_run Payload raw_vector tolerance res E)
    as (p & lower & upper & EP & _ & SL & SU & _ & _ & ->).
  destruct (PartitionPoints_some Payload raw_vector tolerance p EP)
    as (middle & ES & EU & EL).
  rewrite EL in SL. rewrite EU in SU.
  apply (Permutation_in e (list_sort_perm Payload (@sort_comp Payload)
                                          raw_vector)).
  rewrite ES.
  assert (Mid : forall l f,
             sublist l (filter f (retained (GetLocation (left p)) middle)) ->
             In e l -> In e middle).
  { intros l f Sub H. eapply sublist_In; [apply retained_sublist|].
    eapply sublist_In; [apply sublist_filter|].
    eapply sublist_In; eauto. }
  destruct He as [<-|He]; [now left|right].
  apply in_or_app.
  apply in_app_or in He as [He|[<-|He]].
  - left. eapply Mid; [exact SL|exact He].
  - right. now left.
  - left. rewrite <- in_rev in He. eapply Mid; [exact SU|exact He].
Qed.

Lemma map_split2 {A B} (f : A -> B) l pre x y post :
  map f l = pre ++ x :: y :: post ->
  exists pre' a b post',
    l = pre' ++ a :: b :: post' /\ x = f a /\ y = f b.
Proof.
  intros E. apply map_eq_app in E as (pre' & l' & -> & _ & E).
  apply map_eq_cons in E as (a & l'' & -> & <- & E).
  apply map_eq_cons in E as (b & post' & -> & <- & _).
  now exists pre', a, b, post'.
Qed.

Lemma map_split3 {A B} (f : A -> B) l pre x y z post :
  map f l = pre ++ x :: y :: z :: post ->
  exists pre' a b c post',
    l = pre' ++ a :: b :: c :: post' /\ x = f a /\ y = f b /\ z = f c.
Proof.
  intros E. apply map_eq_app in E as (pre' & l' & -> & _ & E).
  apply map_eq_cons in E as (a & l'' & -> & <- & E).
  apply map_eq_cons in E as (b & l''' & -> & <- & E).
  apply map_eq_cons in E as (c & post' & -> & <- & _).
  now exists pre', a, b, c, post'.
Qed.

(** A chain of the sort order whose consecutive elements [a], [b], [c]
    have [c], [a], [b] turning left is a convex path, gone through
    forward. *)
Lemma forward_path chain :
  Forall finite_coordinates chain ->
  StronglySorted (@before Payload) chain ->
  (forall pre a b c post,
     chain = pre ++ a :: b :: c :: post ->
     (0 < exact_cross (GetLocation c) (GetLocation a) (GetLocation b))%Z) ->
  convex_path lex_pos (map pos chain).
Proof.
  intros F S T. rewrite Forall_forall in F. apply convex_path_intro.
  - intros pre x y post (pre' & a & b & post' & -> & -> & ->)%map_split2.
    apply before_lex_pos.
    + apply F, in_or_app. right. now left.
    + apply F, in_or_app. right. right. now left.
    + apply StronglySorted_after in S. now apply Forall_inv in S.
  - intros pre x y z post
           (pre' & a & b & c & post' & E & -> & -> & ->)%map_split3.
    specialize (T _ _ _ _ _ E). revert T.
    unfold exact_cross, cross, vsub. cbn [fst snd]. lia.
Qed.

(** When [c], [a], [b] turn right, it is a convex path gone through
    backward. *)
Lemma backward_path chain :
  Forall finite_coordinates chain ->
  StronglySorted (@before Payload) chain ->
  (forall pre a b c post,
     chain = pre ++ a :: b :: c :: post ->
     (exact_cross (GetLocation c) (GetLocation a) (GetLocation b) < 0)%Z) ->
  convex_path lex_neg (map pos (rev chain)).
Proof.
  intros F S T. rewrite Forall_forall in F. apply convex_path_intro.
  - intros pre x y post (pre' & a & b & post' & E & -> & ->)%map_split2.
    apply (f_equal (@rev SP)) in E. rewrite rev_involutive in E.
    rewrite rev_app_distr in E. cbn [rev] in E.
    rewrite <- !app_assoc in E. cbn [app] in E. subst chain.
    apply lex_neg_opp, before_lex_pos.
    + apply F, in_or_app. right. now left.
    + apply F, in_or_app. right. right. now left.
    + apply StronglySorted_after in S. now apply Forall_inv in S.
  - intros pre x y z post
           (pre' & a & b & c & post' & E & -> & -> & ->)%map_split3.
    apply (f_equal (@rev SP)) in E. rewrite rev_involutive in E.
    rewrite rev_app_distr in E. cbn [rev] in E.
    rewrite <- !app_assoc in E. cbn [app] in E.
    specialize (T _ _ _ _ _ E). revert T.
    unfold exact_cross, cross, vsub. cbn [fst snd]. lia.
Qed.

Lemma consecutive_triples_split (l : list SP) x y z :
  In (x, y, z) (consecutive_triples l) ->
  exists pre post, l = pre ++ x :: y :: z :: post.
Proof.
  induction l as [|a l IH]; [contradiction|].
  destruct l as [|b [|c l]]; try contradiction.
  intros [[= <- <- <-]|H].
  - now exists [], l.
  - destruct (IH H) as (pre & post & E).
    exists (a :: pre), post. cbn [app]. now rewrite E.
Qed.

Lemma triple_without_last {A} (l : list A) w pre x y z post :
  l ++ [w] = pre ++ x :: y :: z :: post ->
  exists post', l = pre ++ x :: y :: post'.
Proof.
  intros E. apply (f_equal (@removelast A)) in E.
  rewrite removelast_last in E.
  rewrite removelast_app in E by discriminate.
  exists (removelast (z :: post)). exact E.
Qed.

Lemma successor_split {A} (r : A) l s :
  In s (r :: l) ->
  exists pre q post, (r :: l) ++ [r] = pre ++ s :: q :: post.
Proof.
  intros (l1 & l2 & E)%in_split. rewrite E, <- app_assoc. cbn [app].
  destruct l2 as [|y l2].
  - now exists l1, r, [].
  - now exists l1, y, (l2 ++ [r]).
Qed.

(** On finite coordinates and with a sound [Direction], the sequence
    left by a run that returned [true] is a closed convex path: from each
    element to the next the position changes, and every element is on
    the left of, or on, the line from each element to the next. *)
Lemma PruneInterior_true_convex raw_vector tolerance res :
  Forall finite_coordinates raw_vector ->
  Direction_sound tolerance raw_vector ->
  PruneInterior raw_vector tolerance = Some (true, res) ->
  (exists r0 r1 rest, res = r0 :: r1 :: rest)
  /\ forall pre a b post s,
       res ++ firstn 1 res = pre ++ a :: b :: post ->
       In s res ->
       (lex_pos (vsub (pos b) (pos a)) \/ lex_neg (vsub (pos b) (pos a)))
       /\ (0 <= exact_cross (GetLocation a) (GetLocation b)
                            (GetLocation s))%Z.
Proof.
  intros F Snd E.
  assert (N : Forall no_nan raw_vector).
  { eapply Forall_impl; [|exact F]. apply finite_no_nan. }
  pose proof (fun e => PruneInterior_In raw_vector tolerance res e E) as Mem.
  destruct (PruneInterior_true_sorted Payload raw_vector tolerance res N E)
    as (left & right & lower & upper & -> & SL & SU & _ & _ & GU & CL & CU).
  rewrite Forall_forall in F.
  assert (Ml : forall e, In e (left :: lower ++ [right]) -> In e raw_vector).
  { intros e [<-|He]; apply Mem; [now left|right].
    apply in_app_or in He as [He|[<-|[]]]; apply in_or_app; auto.
    right. now left. }
  assert (Mu : forall e, In e (left :: upper ++ [right]) -> In e raw_vector).
  { intros e [<-|He]; apply Mem; [now left|right].
    apply in_app_or in He as [He|[<-|[]]]; apply in_or_app; right.
    - right. now apply -> in_rev.
    - now left. }
  assert (HL : convex_path lex_pos (map pos (left :: lower ++ [right]))).
  { apply forward_path; auto.
    - apply Forall_forall. auto.
    - intros pre a b c post Ec. specialize (CL _ _ _ _ _ Ec).
      assert (Ia : In a raw_vector /\ In b raw_vector /\ In c raw_vector).
      { rewrite Ec in Ml. repeat split; apply Ml, in_or_app; right;
          cbn [In]; auto. }
      destruct Ia as (Ia & Ib & Ic).
      apply (Snd a c b Ia Ic Ib). lia. }
  assert (HU : convex_path lex_neg (map pos (rev (left :: upper ++ [right])))).
  { apply backward_path; auto.
    - apply Forall_forall. auto.
    - intros pre a b c post Ec. specialize (CU _ _ _ _ _ Ec).
      assert (Ia : In a raw_vector /\ In b raw_vector /\ In c raw_vector).
      { rewrite Ec in Mu. repeat split; apply Mu, in_or_app; right;
          cbn [In]; auto. }
      destruct Ia as (Ia & Ib & Ic).
      apply (Snd a c b Ia Ic Ib). lia. }
  destruct (chain_facts Payload _ _ _ SL) as (_ & LL & LR & _).
  destruct (chain_facts Payload _ _ _ SU) as (_ & UL & UR & _).
  rewrite Forall_forall in LL, LR, UL, UR, GU.
  set (a := pos left) in *. set (b := pos right) in *.
  assert (HL' : convex_path lex_pos (a :: map pos lower ++ [b])).
  { cbn [map] in HL. now rewrite map_app in HL. }
  assert (HU' : convex_path lex_neg (b :: rev (map pos upper) ++ [a])).
  { cbn [rev] in HU. rewrite rev_app_distr in HU.
    cbn [rev app map] in HU. rewrite map_app, map_rev in HU. exact HU. }
  assert (SLx : forall s, In s (map pos lower) ->
                          lex_pos (vsub s a) /\ lex_pos (vsub b s)).
  { intros s (e & <- & He)%in_map_iff.
    assert (Fe : finite_coordinates e).
    { apply F, Ml. right. apply in_or_app. now left. }
    split; apply before_lex_pos; auto.
    - apply F, Ml. now left.
    - apply F, Ml. right. apply in_or_app. right. now left. }
  assert (SUx : forall s, In s (map pos upper) ->
                          lex_pos (vsub s a) /\ lex_pos (vsub b s)
                          /\ (cross (vsub s a) (vsub b s) < 0)%Z).
  { intros s (e & <- & He)%in_map_iff.
    assert (Ie : In e raw_vector).
    { apply Mu. right. apply in_or_app. now left. }
    assert (Il : In left raw_vector) by (apply Ml; now left).
    assert (Ir : In right raw_vector).
    { apply Ml. right. apply in_or_app. right. now left. }
    split; [|split].
    - apply before_lex_pos; auto.
    - apply before_lex_pos; auto.
    - specialize (GU e He). unfold goes_upper in GU. apply Z.ltb_lt in GU.
      apply (Snd left right e Il Ir Ie) in GU. revert GU.
      unfold exact_cross, cross, vsub, a, b. cbn [fst snd]. lia. }
  split; [|intros pre x y post s Ex Hs].
  { destruct lower as [|l0 lower]; cbn [app]; eauto. }
  cbn [firstn app] in Ex.
  assert (Ex' : (a :: map pos lower ++ b :: rev (map pos upper)) ++ [a]
                = map pos pre ++ pos x :: pos y :: map pos post).
  { transitivity (map pos ((left :: lower ++ right :: rev upper) ++ [left])).
    - cbn [map app]. rewrite !map_app. cbn [map].
      rewrite map_rev. reflexivity.
    - cbn [app]. rewrite Ex, map_app. reflexivity. }
  assert (Hs' : In (pos s) (a :: map pos lower ++ b :: rev (map pos upper))).
  { apply (in_map pos) in Hs. cbn [map] in Hs.
    rewrite map_app in Hs. cbn [map] in Hs. now rewrite map_rev in Hs. }
  split.
  - exact (closed_path_edge a b _ _ HL' HU' _ _ _ _ Ex').
  - exact (closed_path_left a b _ _ HL' HU' SLx SUx _ _ _ _ _ Ex' Hs').
Qed.

(** The test decides that [Direction] is sound. *)
Lemma Direction_sound_check tolerance (l : list SP) :
  Direction_sound_test tolerance l = true -> Direction_sound tolerance l.
Proof.
  unfold Direction_sound_test, Direction_sound. intros T a b c Ha Hb Hc.
  rewrite forallb_forall in T. specialize (T a Ha).
  rewrite forallb_forall in T. specialize (T b Hb).
  rewrite forallb_forall in T. specialize (T c Hc).
  unfold sound_at in T. cbv zeta. apply andb_prop in T as [T1 T2].
  split; intros D.
  - apply Z.ltb_lt in D. rewrite D in T1. now apply Z.ltb_lt.
  - apply Z.ltb_lt in D. rewrite D in T2. now apply Z.ltb_lt.
Qed.

(** [Direction] is sound, with any tolerance, on elements on which its
    operations are exact. *)
Lemma exact_Direction_sound_all tolerance (l : list SP) :
  (forall a b c,
     In a l -> In b l -> In c l ->
     exact_Direction (GetLocation a) (GetLocation b) (GetLocation c)) ->
  Direction_sound tolerance l.
Proof.
  intros X a b c Ha Hb Hc. cbv zeta.
  apply exact_Direction_sound. now apply X.
Qed.

(** C1 (as amended).  When [PruneInterior] returns [true], the sequence
    it leaves is [left], the inner elements of [lower_hull], [right], and
    the inner elements of [upper_hull] from right to left; any three
    consecutive elements [a], [b], [c] of [lower_hull] pass the test of
    the builder, [Direction(a, c, b, tolerance) > 0], and any three
    consecutive elements of [upper_hull] pass it with the other sign.

    When moreover the coordinates are finite and [Direction] with that
    tolerance is sound on the elements of the sequence (it reports no
    turn that their positions do not have: no rounding has made one up),
    the sequence left is convex: read as a cycle, any three consecutive
    elements have a turn direction, as computed by [Direction] with that
    tolerance, that is 0 or negative, the same winding all around; every
    element is on the left of, or on, the line from any element to the
    next, so that each element is on the boundary of the hull; and no
    element is strictly inside a triangle of three elements. *)
Theorem PruneInterior_convex raw_vector tolerance res :
  PruneInterior raw_vector tolerance = Some (true, res) ->
  (exists p lower upper,
      PartitionPoints raw_vector tolerance = Some p
      /\ lower_hull (BuildHull p tolerance) = left p :: lower ++ [right p]
      /\ upper_hull (BuildHull p tolerance) = left p :: upper ++ [right p]
      /\ res = left p :: lower ++ right p :: rev upper
      /\ convex_chain tolerance 1 (lower_hull (BuildHull p tolerance))
      /\ convex_chain tolerance (-1) (upper_hull (BuildHull p tolerance)))
  /\ (Forall finite_coordinates raw_vector ->
      Direction_sound tolerance raw_vector ->
      Forall (fun t => (turn tolerance t <= 0)%Z) (cyclic_triples res)
      /\ one_winding tolerance res
      /\ (forall pre a b post s,
            res ++ firstn 1 res = pre ++ a :: b :: post ->
            In s res ->
            (0 <= exact_cross (GetLocation a) (GetLocation b)
                              (GetLocation s))%Z)
      /\ (forall s a b c,
            In s res -> In a res -> In b res -> In c res ->
            ~ strictly_inside_triangle
                (GetLocation s) (GetLocation a) (GetLocation b)
                (GetLocation c))).
Proof.
  intros E.
  split; [exact (PruneInterior_hulls_pass_test Payload _ _ _ E)|].
  intros F Snd.
  destruct (PruneInterior_true_convex raw_vector tolerance res F Snd E)
    as ((r0 & r1 & rest & ->) & Cv).
  pose proof (fun e => PruneInterior_In raw_vector tolerance _ e E) as Mem.
  assert (W : Forall (fun t => (turn tolerance t <= 0)%Z)
                     (cyclic_triples (r0 :: r1 :: rest))).
  { apply Forall_forall. intros [[x y] z] Ht. unfold turn.
    unfold cyclic_triples in Ht.
    assert (Hz : In z (r0 :: r1 :: rest)).
    { apply consecutive_triples_split in Ht as (pre & post & Et).
      assert (Hz : In z ((r0 :: r1 :: rest) ++ firstn 2 (r0 :: r1 :: rest))).
      { rewrite Et. apply in_or_app. right. cbn [In]. auto. }
      apply in_app_or in Hz as [Hz|Hz]; [exact Hz|].
      cbn [firstn In] in Hz. cbn [In]. tauto. }
    apply consecutive_triples_split in Ht as (pre & post & Et).
    change (firstn 2 (r0 :: r1 :: rest)) with ([r0] ++ [r1]) in Et.
    rewrite app_assoc in Et.
    apply triple_without_last in Et as (post' & Et).
    destruct (Cv pre x y post' z Et Hz) as [_ C].
    destruct (Z_le_gt_dec (Direction (GetLocation x) (GetLocation y)
                                     (GetLocation z) tolerance) 0)
      as [D|D]; [exact D|exfalso].
    assert (Ix : In x (r0 :: r1 :: rest) /\ In y (r0 :: r1 :: rest)).
    { assert (H : forall e, In e ((r0 :: r1 :: rest) ++ [r0]) ->
                            In e (r0 :: r1 :: rest)).
      { intros e [He|[<-|[]]]%in_app_or; auto. now left. }
      change (firstn 1 (r0 :: r1 :: rest)) with [r0] in Et.
      split; apply H; rewrite Et; apply in_or_app; right; cbn [In]; auto. }
    destruct Ix as [Ix Iy].
    destruct (Snd x y z (Mem x Ix) (Mem y Iy) (Mem z Hz)) as [S1 _].
    cbv zeta in S1. specialize (S1 ltac:(lia)). revert S1 C.
    unfold exact_cross, cross, vsub. cbn [fst snd]. lia. }
  split; [exact W|]. split; [right; exact W|]. split.
  - intros pre a b post s Ep Hs. now apply (Cv pre a b post s Ep Hs).
  - intros s a b c Hs Ha Hb Hc Tri.
    destruct (successor_split r0 (r1 :: rest) s Hs) as (pre & q & post & Ep).
    change ((r0 :: r1 :: rest) ++ [r0])
      with ((r0 :: r1 :: rest) ++ firstn 1 (r0 :: r1 :: rest)) in Ep.
    destruct (Cv pre s q post a Ep Ha) as [Cd Ca].
    destruct (Cv pre s q post b Ep Hb) as [_ Cb].
    destruct (Cv pre s q post c Ep Hc) as [_ Cc].
    apply (not_inside_triangle (vsub (pos q) (pos s))
             (vsub (pos a) (pos s)) (vsub (pos b) (pos s))
             (vsub (pos c) (pos s))); auto.
    revert Tri. unfold strictly_inside_triangle, exact_cross, cross, vsub.
    cbn [fst snd]. lia.
Qed.

End ConvexResult.

(** ** The orientation primitive *)

(** [std::max] returns one of its arguments, and neither argument is
    above what it returns; when no argument is a NaN, both are below or
    equal to it. *)
Lemma is_nan_false x : is_nan x = false -> Prim2SF x <> S754_nan.
Proof.
  unfold is_nan. rewrite eqb_spec. intros H E. rewrite E in H. discriminate.
Qed.

Lemma not_ltb_leb x y :
  is_nan x = false -> is_nan y = false ->
  (y <? x)%float = false -> (x <=? y)%float = true.
Proof.
  intros Nx%is_nan_false Ny%is_nan_false.
  rewrite leb_spec, ltb_spec. unfold SFleb, SFltb.
  destruct (SFcompare_total _ _ Nx Ny) as [c E].
  rewrite (SFcompare_sym (Prim2SF x) (Prim2SF y)), E.
  now destruct c.
Qed.

Lemma ltb_irrefl x : (x <? x)%float = false.
Proof.
  destruct (x <? x)%float eqn:E; auto. now rewrite (ltb_asym _ _ E) in E.
Qed.

Lemma abs_not_nan x : is_nan x = false -> is_nan (abs x) = false.
Proof.
  intros N%is_nan_false. unfold is_nan. rewrite eqb_spec, abs_spec.
  now rewrite SFeqb_abs_refl.
Qed.

Lemma std_max_greater x y :
  (std_max x y = x \/ std_max x y = y)
  /\ (std_max x y <? x)%float = false
  /\ (std_max x y <? y)%float = false
  /\ ((x <? y)%float = true -> std_max x y = y)
  /\ ((x <? y)%float = false -> std_max x y = x)
  /\ (is_nan x = false -> is_nan y = false ->
      (x <=? std_max x y)%float = true /\ (y <=? std_max x y)%float = true).
Proof.
  unfold std_max. destruct (x <? y)%float eqn:E.
  - split; [now right|]. split; [now apply ltb_asym|].
    split; [apply ltb_irrefl|]. split; [reflexivity|].
    split; [discriminate|]. intros Nx Ny. split.
    + apply not_ltb_leb; auto. now apply ltb_asym.
    + apply not_ltb_leb; auto. apply ltb_irrefl.
  - split; [now left|]. split; [apply ltb_irrefl|].
    split; [exact E|]. split; [discriminate|].
    split; [reflexivity|]. intros Nx Ny. split.
    + apply not_ltb_leb; auto. apply ltb_irrefl.
    + apply not_ltb_leb; auto.
Qed.

(** C3.  [Direction(p0, p1, p2, tolerance)] is [Sign(a - b, t)] for the
    products [a = (p0 - p1).longitude * (p2 - p1).latitude] and
    [b = (p2 - p1).longitude * (p0 - p1).latitude], where [t] is the
    tolerance given when that is zero or more, and
    [max(|a|, |b|) / 10] when it is below zero.  [Sign(v, t)] is 1 when
    [v > t], otherwise -1 when [v < -t], otherwise 0.  The [t] of
    [Direction] is never below zero, so that the two comparisons exclude
    each other there: [Direction] is 1 exactly when [a - b > t], -1
    exactly when [a - b < -t], and 0 exactly when neither holds.
    The maximum is the greater of [|a|] and [|b|]: below zero, [t] is
    [m / 10] for an [m] that is [|a|] or [|b|], namely [|b|] when
    [|a| < |b|] and [|a|] otherwise; neither [|a|] nor [|b|] is above
    [m], and both are below or equal to it when neither product is a
    NaN. *)
Theorem Direction_spec p0 p1 p2 tolerance :
  let a := ((longitude p0 - longitude p1)
            * (latitude p2 - latitude p1))%float in
  let b := ((longitude p2 - longitude p1)
            * (latitude p0 - latitude p1))%float in
  exists t,
    Direction p0 p1 p2 tolerance = Sign (a - b) t
    /\ ((0 <=? tolerance)%float = true -> t = tolerance)
    /\ ((tolerance <? 0)%float = true ->
        t = (std_max (abs a) (abs b) / 10)%float)
    /\ (forall v t',
          (Sign v t' = 1%Z <-> (t' <? v)%float = true)
          /\ (Sign v t' = (-1)%Z <->
              (t' <? v)%float = false /\ (v <? - t')%float = true)
          /\ (Sign v t' = 0%Z <->
              (t' <? v)%float = false /\ (v <? - t')%float = false))
    /\ (t <? 0)%float = false
    /\ (Direction p0 p1 p2 tolerance = 1%Z <-> (t <? a - b)%float = true)
    /\ (Direction p0 p1 p2 tolerance = (-1)%Z <->
        (a - b <? - t)%float = true)
    /\ (Direction p0 p1 p2 tolerance = 0%Z <->
        (t <? a - b)%float = false /\ (a - b <? - t)%float = false)
    /\ ((tolerance <? 0)%float = true ->
        exists m,
          t = (m / 10)%float
          /\ (m = abs a \/ m = abs b)
          /\ ((abs a <? abs b)%float = true -> m = abs b)
          /\ ((abs a <? abs b)%float = false -> m = abs a)
          /\ (m <? abs a)%float = false
          /\ (m <? abs b)%float = false
          /\ (is_nan a = false -> is_nan b = false ->
              (abs a <=? m)%float = true /\ (abs b <=? m)%float = true))
    /\ ((tolerance <? 0)%float = false -> t = tolerance).
Proof.
  intros a b.
  set (t := if (tolerance <? 0)%float
            then (std_max (abs a) (abs b) / 10)%float else tolerance).
  assert (Ht : (t <? 0)%float = false).
  { unfold t. destruct (tolerance <? 0)%float eqn:E; auto.
    apply auto_tolerance_not_below_zero. }
  assert (HS : forall v t',
             (Sign v t' = 1%Z <-> (t' <? v)%float = true)
             /\ (Sign v t' = (-1)%Z <->
                 (t' <? v)%float = false /\ (v <? - t')%float = true)
             /\ (Sign v t' = 0%Z <->
                 (t' <? v)%float = false /\ (v <? - t')%float = false)).
  { intros v t'. unfold Sign.
    destruct (t' <? v)%float, (v <? - t')%float; intuition congruence. }
  exists t. change (Direction p0 p1 p2 tolerance) with (Sign (a - b) t).
  split; [reflexivity|]. split; [|split; [|split; [exact HS|]]].
  - intros H%leb_not_ltb. unfold t. now rewrite H.
  - intros H. unfold t. now rewrite H.
  - destruct (HS (a - b)%float t) as (H1 & H2 & H3).
    split; [exact Ht|]. split; [exact H1|]. split; [|split; [exact H3|]].
    + rewrite H2. split; [tauto|]. intros H. split; auto.
      destruct (t <? a - b)%float eqn:E; auto.
      rewrite (Sign_exclusive _ _ Ht E) in H. discriminate.
    + split.
      * intros H. exists (std_max (abs a) (abs b)).
        destruct (std_max_greater (abs a) (abs b))
          as (M1 & M2 & M3 & M4 & M5 & M6).
        split; [unfold t; now rewrite H|].
        split; [exact M1|]. split; [exact M4|]. split; [exact M5|].
        split; [exact M2|]. split; [exact M3|].
        intros Na Nb. apply M6; now apply abs_not_nan.
      * intros H. unfold t. now rewrite H.
Qed.

(** Exchanging the two outer points changes the sign of [Direction], for
    any tolerance and any coordinates (NaNs and infinities included): the
    two products change places, and so do the two arguments of
    [std::max].  With the same point on both sides [Direction] is 0. *)
Theorem Direction_antisymmetric p0 p1 p2 tolerance :
  Direction p2 p1 p0 tolerance = (- Direction p0 p1 p2 tolerance)%Z
  /\ Direction p0 p1 p0 tolerance = 0%Z.
Proof.
  split; [apply Direction_swap|].
  pose proof (Direction_swap p0 p1 p0 tolerance). lia.
Qed.

(** [Direction] is 0 as soon as two of its three points are at the same
    location ([==] on both coordinates), for any tolerance. *)
Theorem Direction_coincident p0 p1 p2 tolerance :
  location_differs p0 p1 = false \/ location_differs p1 p2 = false
  \/ location_differs p0 p2 = false ->
  Direction p0 p1 p2 tolerance = 0%Z.
Proof.
  intros [D|[D|D]].
  - rewrite location_differs_sym in D.
    rewrite (Direction_swap p2 p1 p0).
    now rewrite (Direction_same_location _ _ _ _ D).
  - now apply Direction_same_location.
  - now apply Direction_same_ends.
Qed.

(** [Direction] is 0 as soon as one of the six coordinates, or the
    tolerance, is a NaN. *)
Theorem Direction_nan p0 p1 p2 tolerance :
  is_nan (longitude p0) || is_nan (latitude p0)
  || is_nan (longitude p1) || is_nan (latitude p1)
  || is_nan (longitude p2) || is_nan (latitude p2)
  || is_nan tolerance = true ->
  Direction p0 p1 p2 tolerance = 0%Z.
Proof. apply Direction_of_nan. Qed.

(** For a tolerance that is not below zero, [Sign] of the opposite value
    is the opposite of [Sign]. *)
Theorem Sign_symmetric v t :
  (t <? 0)%float = false -> Sign (- v) t = (- Sign v t)%Z.
Proof. apply Sign_opp. Qed.

(** * The properties on the sample sequences *)

Lemma square_and_centre_run :
  PartitionPoints square_and_centre 0 = Some square_partition
  /\ BuildHull square_partition 0
     = mkHulls square_lower_hull square_upper_hull true
  /\ PruneInterior square_and_centre 0 = Some (true, square_pruned).
Proof. repeat split; vm_compute; reflexivity. Qed.

(** The inner point of the square is dropped; read as a cycle, the
    sequence left makes the same turn everywhere. *)
Lemma square_pruned_turns :
  map (turn 0) (cyclic_triples square_pruned) = [-1; -1; -1; -1]%Z.
Proof. vm_compute. reflexivity. Qed.

(** C1, as stated, fails on [tenths] with tolerance 0: [PruneInterior]
    returns [true] and leaves four elements whose turns, read as a cycle,
    are -1, -1, 1 and -1 (and 1, 1, -1 and 1 in the argument order of
    [BuildHalfHull]), so that no winding fits; and the last of the four
    is strictly inside the triangle of the other three.  [Direction] is
    not sound there: the test of the upper-hull builder on (0.3, 0.1),
    (0.5, 0.3), (1.0, 0.8), [Direction] of (0.3, 0.1), (1.0, 0.8),
    (0.5, 0.3), returns -1 with rounding, and the cross product of the
    positions is above 0. *)
Lemma PruneInterior_winding_counterexample :
  PruneInterior tenths 0 = Some (true, tenths_pruned)
  /\ map (turn 0) (cyclic_triples tenths_pruned) = [-1; -1; 1; -1]%Z
  /\ map (turn_as_tested 0) (cyclic_triples tenths_pruned)
     = [1; 1; -1; 1]%Z
  /\ ~ one_winding 0 tenths_pruned
  /\ strictly_inside_triangle
       (GetLocation tenths_0) (GetLocation tenths_4)
       (GetLocation tenths_2) (GetLocation tenths_3)
  /\ Forall finite_coordinates tenths
  /\ Direction (GetLocation tenths_4) (GetLocation tenths_3)
               (GetLocation tenths_0) 0 = (-1)%Z
  /\ (0 < exact_cross (GetLocation tenths_3) (GetLocation tenths_4)
                      (GetLocation tenths_0))%Z
  /\ ~ Direction_sound 0 tenths.
Proof.
  split; [vm_compute; reflexivity|]. split; [vm_compute; reflexivity|].
  split; [vm_compute; reflexivity|].
  assert (E : map (turn 0) (cyclic_triples tenths_pruned)
              = [-1; -1; 1; -1]%Z) by (vm_compute; reflexivity).
  split; [|split; [|split; [|split; [|split]]]].
  - intros [H|H].
    + apply (proj2 (Forall_map (turn 0) (fun z => (0 <= z)%Z) _)) in H.
      rewrite E in H. inversion H; subst. lia.
    + apply (proj2 (Forall_map (turn 0) (fun z => (z <= 0)%Z) _)) in H.
      rewrite E in H.
      inversion H as [|? ? _ H']; subst. inversion H' as [|? ? _ H'']; subst.
      inversion H''; subst. lia.
  - left. repeat split; vm_compute; reflexivity.
  - repeat constructor.
  - vm_compute. reflexivity.
  - vm_compute. reflexivity.
  - intros S.
    destruct (S tenths_4 tenths_3 tenths_0) as [_ S2];
      [unfold tenths; cbn [In]; tauto..|].
    cbv zeta in S2.
    assert (D : Direction (GetLocation tenths_4) (GetLocation tenths_3)
                          (GetLocation tenths_0) 0 = (-1)%Z)
      by (vm_compute; reflexivity).
    rewrite D in S2. specialize (S2 eq_refl). vm_compute in S2.
    discriminate.
Qed.

(** With the tolerance computed by [Direction] (a tolerance below zero)
    the same five points give a sound [Direction], and the sequence left
    is convex. *)
Lemma PruneInterior_convex_witness :
  PruneInterior tenths (-1) = Some (true, tenths_pruned_auto)
  /\ Forall finite_coordinates tenths
  /\ Direction_sound (-1) tenths
  /\ (exists p lower upper,
        PartitionPoints tenths (-1) = Some p
        /\ lower_hull (BuildHull p (-1)) = left p :: lower ++ [right p]
        /\ upper_hull (BuildHull p (-1)) = left p :: upper ++ [right p]
        /\ tenths_pruned_auto = left p :: lower ++ right p :: rev upper
        /\ convex_chain (-1) 1 (lower_hull (BuildHull p (-1)))
        /\ convex_chain (-1) (-1) (upper_hull (BuildHull p (-1))))
  /\ Forall (fun t => (turn (-1) t <= 0)%Z)
            (cyclic_triples tenths_pruned_auto)
  /\ one_winding (-1) tenths_pruned_auto
  /\ (forall pre a b post s,
        tenths_pruned_auto ++ firstn 1 tenths_pruned_auto
        = pre ++ a :: b :: post ->
        In s tenths_pruned_auto ->
        (0 <= exact_cross (GetLocation a) (GetLocation b)
                          (GetLocation s))%Z)
  /\ (forall s a b c,
        In s tenths_pruned_auto -> In a tenths_pruned_auto ->
        In b tenths_pruned_auto -> In c tenths_pruned_auto ->
        ~ strictly_inside_triangle
            (GetLocation s) (GetLocation a) (GetLocation b)
            (GetLocation c)).
Proof.
  assert (E : PruneInterior tenths (-1) = Some (true, tenths_pruned_auto))
    by (vm_compute; reflexivity).
  assert (F : Forall finite_coordinates tenths) by (repeat constructor).
  assert (S : Direction_sound (-1) tenths)
    by (apply Direction_sound_check; vm_compute; reflexivity).
  split; [exact E|]. split; [exact F|]. split; [exact S|].
  destruct (PruneInterior_convex nat tenths (-1) tenths_pruned_auto E)
    as [A B].
  split; [exact A|]. exact (B F S).
Defined.

(** On the corners of the square and its centre the operations of
    [Direction] are exact: [Direction] is sound there with any
    tolerance. *)
Lemma square_and_centre_sound tolerance :
  Forall finite_coordinates square_and_centre
  /\ Direction_sound tolerance square_and_centre.
Proof.
  split; [repeat constructor|].
  apply exact_Direction_sound_all. intros a b c Ha Hb Hc.
  unfold square_and_centre in Ha, Hb, Hc. cbn [In] in Ha, Hb, Hc.
  repeat match goal with
         | H : _ \/ _ |- _ => destruct H as [<-|H]
         | H : False |- _ => destruct H
         end;
    vm_compute; repeat split; reflexivity.
Qed.

(** C2, as stated, fails on [square_and_centre] with tolerance 0: the
    last element of [upper_hull] is [right], not [left], and the sequence
    left is not [lower_hull] without its last element followed by the
    reverse of [upper_hull] without its last element. *)
Lemma PruneInterior_assembly_counterexample :
  PartitionPoints square_and_centre 0 = Some square_partition
  /\ lower_hull (BuildHull square_partition 0) = square_lower_hull
  /\ upper_hull (BuildHull square_partition 0) = square_upper_hull
  /\ PruneInterior square_and_centre 0 = Some (true, square_pruned)
  /\ last square_upper_hull (left square_partition)
     = right square_partition
  /\ last square_upper_hull (left square_partition)
     <> left square_partition
  /\ square_pruned
     <> removelast square_lower_hull ++ rev (removelast square_upper_hull).
Proof.
  repeat split; try (vm_compute; reflexivity).
  - intros H. apply (f_equal payload) in H. discriminate.
  - intros H. apply (f_equal (map payload)) in H. discriminate.
Qed.

Lemma PruneInterior_assembles_hulls_witness :
  PruneInterior square_and_centre 0 = Some (true, square_pruned)
  /\ exists p lower upper,
       PartitionPoints square_and_centre 0 = Some p
       /\ lower_hull (BuildHull p 0) = left p :: lower ++ [right p]
       /\ upper_hull (BuildHull p 0) = left p :: upper ++ [right p]
       /\ square_pruned
          = removelast (lower_hull (BuildHull p 0))
            ++ removelast (rev (upper_hull (BuildHull p 0)))
       /\ square_pruned = left p :: lower ++ right p :: rev upper.
Proof.
  split; [vm_compute; reflexivity|].
  apply (PruneInterior_assembles_hulls nat square_and_centre 0 square_pruned).
  vm_compute. reflexivity.
Defined.

Lemma PartitionPoints_by_direction_witness :
  PartitionPoints square_and_centre 0 = Some square_partition
  /\ exists middle,
       list_sort (@sort_comp nat) square_and_centre
       = left square_partition :: middle ++ [right square_partition]
       /\ (forall e,
             In e (upper_partition_points square_partition)
             \/ In e (lower_partition_points square_partition)
             -> In e (retained (GetLocation (left square_partition)) middle))
       /\ forall e,
            In e (retained (GetLocation (left square_partition)) middle) ->
            let dir := Direction (GetLocation (left square_partition))
                                 (GetLocation (right square_partition))
                                 (GetLocation e) 0 in
            (In e (upper_partition_points square_partition) <-> (dir < 0)%Z)
            /\ (In e (lower_partition_points square_partition)
                <-> (0 <= dir)%Z)
            /\ (dir = 0%Z -> In e (lower_partition_points square_partition)).
Proof.
  split; [vm_compute; reflexivity|].
  apply (PartitionPoints_by_direction nat square_and_centre 0 square_partition).
  vm_compute. reflexivity.
Defined.

(** Of the elements between [left] and [right], the second one at the
    location of [left] and the second one at (1, 1) are left out. *)
Lemma with_duplicates_retained :
  list_sort (@sort_comp nat) with_duplicates
  = [sample 0 0 2; sample 0 0 4; sample 1 1 1; sample 1 1 3; sample 3 0 0]
  /\ retained (GetLocation (sample 0 0 2))
              [sample 0 0 4; sample 1 1 1; sample 1 1 3]
     = [sample 1 1 1]
  /\ PartitionPoints with_duplicates 0 = Some with_duplicates_partition.
Proof. repeat split; vm_compute; reflexivity. Qed.

Lemma PartitionPoints_collapses_duplicates_witness :
  PartitionPoints with_duplicates 0 = Some with_duplicates_partition
  /\ exists middle,
       let loclast := GetLocation (left with_duplicates_partition) in
       let kept := retained loclast middle in
       list_sort (@sort_comp nat) with_duplicates
       = left with_duplicates_partition
         :: middle ++ [right with_duplicates_partition]
       /\ sublist kept middle
       /\ differs_from_previous loclast kept
       /\ (forall js i rest,
             middle = js ++ i :: rest ->
             retained loclast (js ++ [i])
             = retained loclast js
               ++ (if location_differs (loclast_after loclast js)
                                       (GetLocation i)
                   then [i] else []))
       /\ sublist (upper_partition_points with_duplicates_partition) kept
       /\ sublist (lower_partition_points with_duplicates_partition) kept
       /\ (forall e, In e kept ->
             In e (upper_partition_points with_duplicates_partition)
             \/ In e (lower_partition_points with_duplicates_partition)).
Proof.
  split; [vm_compute; reflexivity|].
  apply (PartitionPoints_collapses_duplicates
           nat with_duplicates 0 with_duplicates_partition).
  vm_compute. reflexivity.
Defined.

Lemma PruneInterior_idempotent_witness :
  Forall no_nan square_and_centre
  /\ exists changed res,
       PruneInterior square_and_centre 0 = Some (changed, res)
       /\ PruneInterior res 0 = Some (false, res).
Proof.
  assert (N : Forall no_nan square_and_centre)
    by (repeat constructor).
  split; [exact N|].
  exact (PruneInterior_idempotent nat square_and_centre 0 N).
Defined.

(** C6, with a NaN.  On [with_nan] no comparison with the NaN holds and
    the sort leaves the elements in the order given, (1, 1) behind the
    NaN: [left] is (2, 1), [right] is (3, 0), and (1, 1), which is
    before [left], goes through the partition loop and the lower-hull
    builder as an inner point.  The first run returns [true] and leaves
    (2, 1), (1, 1), (3, 0), (2, 3), without the NaN; the second run sorts
    them, returns [true] again and leaves (1, 1), (3, 0), (2, 3); only
    the third run returns [false]. *)
Lemma PruneInterior_idempotent_counterexample :
  ~ Forall no_nan with_nan
  /\ list_sort (@sort_comp nat) with_nan = with_nan
  /\ PruneInterior with_nan 0 = Some (true, with_nan_pruned)
  /\ PruneInterior with_nan_pruned 0 = Some (true, with_nan_pruned_twice)
  /\ with_nan_pruned_twice <> with_nan_pruned
  /\ PruneInterior with_nan_pruned_twice 0
     = Some (false, with_nan_pruned_twice)
  /\ ~ (exists changed res,
          PruneInterior with_nan 0 = Some (changed, res)
          /\ PruneInterior res 0 = Some (false, res)).
Proof.
  assert (E1 : PruneInterior with_nan 0 = Some (true, with_nan_pruned))
    by (vm_compute; reflexivity).
  assert (E2 : PruneInterior with_nan_pruned 0
               = Some (true, with_nan_pruned_twice))
    by (vm_compute; reflexivity).
  split; [|split; [|split; [|split; [|split; [|split]]]]].
  - intros N. apply Forall_inv_tail, Forall_inv_tail, Forall_inv in N.
    destruct N as [N _]. vm_compute in N. discriminate.
  - vm_compute. reflexivity.
  - exact E1.
  - exact E2.
  - discriminate.
  - vm_compute. reflexivity.
  - intros (changed & res & E & F). rewrite E1 in E.
    injection E as <- <-. rewrite E2 in F. discriminate.
Qed.

(** The two runs on [square_and_centre]. *)
Lemma square_and_centre_twice :
  PruneInterior square_and_centre 0 = Some (true, square_pruned)
  /\ PruneInterior square_pruned 0 = Some (false, square_pruned).
Proof. split; vm_compute; reflexivity. Qed.

Lemma PruneInterior_nothing_pruned_witness :
  PartitionPoints square 0 = Some square_alone_partition
  /\ snd (BuildHalfHull (left square_alone_partition)
                        (right square_alone_partition) 0
                        (lower_partition_points square_alone_partition) 1)
     = false
  /\ snd (BuildHalfHull (left square_alone_partition)
                        (right square_alone_partition) 0
                        (upper_partition_points square_alone_partition)
                        (-1))
     = false
  /\ PruneInterior square 0 = Some (false, square).
Proof.
  assert (H1 : PartitionPoints square 0 = Some square_alone_partition)
    by (vm_compute; reflexivity).
  assert (H2 : snd (BuildHalfHull
                      (left square_alone_partition)
                      (right square_alone_partition) 0
                      (lower_partition_points square_alone_partition) 1)
               = false) by (vm_compute; reflexivity).
  assert (H3 : snd (BuildHalfHull
                      (left square_alone_partition)
                      (right square_alone_partition) 0
                      (upper_partition_points square_alone_partition) (-1))
               = false) by (vm_compute; reflexivity).
  split; [exact H1|]. split; [exact H2|]. split; [exact H3|].
  exact (PruneInterior_nothing_pruned nat square 0 square_alone_partition
                                      H1 H2 H3).
Defined.

Lemma PruneInterior_fewer_than_three_witness :
  length [sample 0 0 0; sample 1 1 1] < 3
  /\ PruneInterior [sample 0 0 0; sample 1 1 1] 0
     = Some (false, [sample 0 0 0; sample 1 1 1])
  /\ (length [sample 0 0 0; sample 1 1 1] < 2 ->
      PartitionPoints [sample 0 0 0; sample 1 1 1] 0 = None).
Proof.
  assert (L : length [sample 0 0 0; sample 1 1 1] < 3) by (simpl; lia).
  split; [exact L|].
  exact (PruneInterior_fewer_than_three nat [sample 0 0 0; sample 1 1 1] 0 L).
Defined.

Lemma PruneInterior_true_shrinks_witness :
  PruneInterior square_and_centre 0 = Some (true, square_pruned)
  /\ length square_pruned < length square_and_centre.
Proof.
  assert (E : PruneInterior square_and_centre 0 = Some (true, square_pruned))
    by (vm_compute; reflexivity).
  split; [exact E|].
  exact (PruneInterior_true_shrinks nat square_and_centre 0 square_pruned E).
Defined.

Lemma PruneInterior_subset_witness :
  PruneInterior square_and_centre 0 = Some (true, square_pruned)
  /\ forall e, In e square_pruned -> In e square_and_centre.
Proof.
  assert (E : PruneInterior square_and_centre 0 = Some (true, square_pruned))
    by (vm_compute; reflexivity).
  split; [exact E|].
  exact (PruneInterior_subset nat square_and_centre 0 true square_pruned E).
Defined.

Lemma PartitionPoints_extremes_witness :
  Forall no_nan square_and_centre
  /\ PartitionPoints square_and_centre 0 = Some square_partition
  /\ In (left square_partition) square_and_centre
  /\ In (right square_partition) square_and_centre
  /\ forall e, In e square_and_centre ->
       not_after (left square_partition) e
       /\ not_after e (right square_partition).
Proof.
  assert (N : Forall no_nan square_and_centre) by (repeat constructor).
  assert (E : PartitionPoints square_and_centre 0 = Some square_partition)
    by (vm_compute; reflexivity).
  split; [exact N|]. split; [exact E|].
  exact (PartitionPoints_extremes nat square_and_centre 0 square_partition
                                  N E).
Defined.

(** ** The further properties on the sample sequences *)

Lemma BuildHalfHull_passes_test_witness :
  fst (BuildHalfHull (sample 0 0 0) (sample 10 10 2) 0
                     [sample 5 5 4; sample 10 0 3] 1)
  = [] ++ sample 0 0 0 :: sample 10 0 3 :: sample 10 10 2 :: []
  /\ (1 * Direction (GetLocation (sample 0 0 0))
                    (GetLocation (sample 10 10 2))
                    (GetLocation (sample 10 0 3)) 0 > 0)%Z
  /\ location_differs (GetLocation (sample 0 0 0))
                      (GetLocation (sample 10 0 3)) = true
  /\ location_differs (GetLocation (sample 10 0 3))
                      (GetLocation (sample 10 10 2)) = true
  /\ location_differs (GetLocation (sample 0 0 0))
                      (GetLocation (sample 10 10 2)) = true.
Proof.
  assert (E : fst (BuildHalfHull (sample 0 0 0) (sample 10 10 2) 0
                                 [sample 5 5 4; sample 10 0 3] 1)
              = [] ++ sample 0 0 0 :: sample 10 0 3 :: sample 10 10 2 :: [])
    by (vm_compute; reflexivity).
  split; [exact E|].
  exact (BuildHalfHull_passes_test nat _ _ _ _ _ _ _ _ _ _ E).
Defined.

Lemma PartitionPoints_sizes_witness :
  PartitionPoints square_and_centre 0 = Some square_partition
  /\ length (upper_partition_points square_partition)
     + length (lower_partition_points square_partition) + 2
     <= length square_and_centre.
Proof.
  assert (E : PartitionPoints square_and_centre 0 = Some square_partition)
    by (vm_compute; reflexivity).
  split; [exact E|].
  exact (PartitionPoints_sizes nat square_and_centre 0 square_partition E).
Defined.

Lemma PartitionPoints_strictly_sorted_witness :
  Forall no_nan with_duplicates
  /\ PartitionPoints with_duplicates 0 = Some with_duplicates_partition
  /\ exists middle,
       let kept :=
         retained (GetLocation (left with_duplicates_partition)) middle in
       list_sort (@sort_comp nat) with_duplicates
       = left with_duplicates_partition
         :: middle ++ [right with_duplicates_partition]
       /\ StronglySorted (@before nat)
                         (left with_duplicates_partition :: kept)
       /\ Forall (fun e => not_after e (right with_duplicates_partition)) kept
       /\ StronglySorted
            (@before nat)
            (left with_duplicates_partition
             :: upper_partition_points with_duplicates_partition)
       /\ StronglySorted
            (@before nat)
            (left with_duplicates_partition
             :: lower_partition_points with_duplicates_partition).
Proof.
  assert (N : Forall no_nan with_duplicates) by (repeat constructor).
  assert (E : PartitionPoints with_duplicates 0
              = Some with_duplicates_partition)
    by (vm_compute; reflexivity).
  split; [exact N|]. split; [exact E|].
  exact (PartitionPoints_strictly_sorted
           nat with_duplicates 0 with_duplicates_partition N E).
Defined.

Lemma PruneInterior_all_coincident_witness :
  Forall (fun e => location_differs (mkGeoPoint 1 1) (GetLocation e) = false)
         [sample 1 1 0; sample 1 1 1; sample 1 1 2; sample 1 1 3]
  /\ PruneInterior [sample 1 1 0; sample 1 1 1; sample 1 1 2; sample 1 1 3] 0
     = Some (false, [sample 1 1 0; sample 1 1 1; sample 1 1 2; sample 1 1 3]).
Proof.
  assert (G : Forall (fun e => location_differs (mkGeoPoint 1 1)
                                                (GetLocation e) = false)
                     [sample 1 1 0; sample 1 1 1; sample 1 1 2; sample 1 1 3])
    by (repeat constructor).
  split; [exact G|].
  exact (PruneInterior_all_coincident nat _ 0 (mkGeoPoint 1 1) G).
Defined.

Lemma PruneInterior_three_points_witness :
  Forall no_nan [sample 2 2 0; sample 0 0 1; sample 1 1 2]
  /\ length [sample 2 2 0; sample 0 0 1; sample 1 1 2] = 3
  /\ exists left mid right,
       list_sort (@sort_comp nat) [sample 2 2 0; sample 0 0 1; sample 1 1 2]
       = [left; mid; right]
       /\ Permutation [left; mid; right]
                      [sample 2 2 0; sample 0 0 1; sample 1 1 2]
       /\ StronglySorted (@not_after nat) [left; mid; right]
       /\ PruneInterior [sample 2 2 0; sample 0 0 1; sample 1 1 2] 0
          = if location_differs (GetLocation left) (GetLocation mid)
               && (Direction (GetLocation left) (GetLocation right)
                             (GetLocation mid) 0 =? 0)%Z
            then Some (true, [left; right])
            else Some (false, [sample 2 2 0; sample 0 0 1; sample 1 1 2]).
Proof.
  assert (N : Forall no_nan [sample 2 2 0; sample 0 0 1; sample 1 1 2])
    by (repeat constructor).
  assert (L : length [sample 2 2 0; sample 0 0 1; sample 1 1 2] = 3)
    by reflexivity.
  split; [exact N|]. split; [exact L|].
  exact (PruneInterior_three_points nat _ 0 N L).
Defined.

Lemma PruneInterior_order_independent_witness :
  Forall no_nan square_and_centre
  /\ ForallOrdPairs
       (fun a b => location_differs (GetLocation a) (GetLocation b) = true)
       square_and_centre
  /\ Permutation square_and_centre (rev square_and_centre)
  /\ list_sort (@sort_comp nat) (rev square_and_centre)
     = list_sort (@sort_comp nat) square_and_centre
  /\ PartitionPoints (rev square_and_centre) 0
     = PartitionPoints square_and_centre 0
  /\ forall changed res,
       PruneInterior square_and_centre 0 = Some (changed, res) ->
       PruneInterior (rev square_and_centre) 0
       = Some (changed, if changed then res else rev square_and_centre).
Proof.
  assert (N : Forall no_nan square_and_centre) by (repeat constructor).
  assert (D : ForallOrdPairs
                (fun a b => location_differs (GetLocation a) (GetLocation b)
                            = true)
                square_and_centre) by (repeat constructor).
  pose proof (Permutation_rev square_and_centre) as P.
  split; [exact N|]. split; [exact D|]. split; [exact P|].
  exact (PruneInterior_order_independent
           nat square_and_centre (rev square_and_centre) 0 N D P).
Defined.

Lemma PruneInterior_true_chains_witness :
  Forall no_nan square_and_centre
  /\ PruneInterior square_and_centre 0 = Some (true, square_pruned)
  /\ exists (left right : SearchPoint nat) lower upper,
       square_pruned = left :: lower ++ right :: rev upper
       /\ StronglySorted (@before nat) (left :: lower ++ [right])
       /\ StronglySorted (@before nat) (left :: upper ++ [right])
       /\ Forall (fun e => (0 <= Direction (GetLocation left)
                                           (GetLocation right)
                                           (GetLocation e) 0)%Z) lower
       /\ Forall (fun e => (Direction (GetLocation left) (GetLocation right)
                                      (GetLocation e) 0 < 0)%Z) upper
       /\ NoDup square_pruned
       /\ ForallOrdPairs
            (fun a b => location_differs (GetLocation a) (GetLocation b)
                        = true)
            square_pruned.
Proof.
  assert (N : Forall no_nan square_and_centre) by (repeat constructor).
  assert (E : PruneInterior square_and_centre 0 = Some (true, square_pruned))
    by (vm_compute; reflexivity).
  split; [exact N|]. split; [exact E|].
  exact (PruneInterior_true_chains nat square_and_centre 0 square_pruned N E).
Defined.

Lemma BuildHalfHull_no_nan_witness :
  3 <= length (fst (BuildHalfHull (sample 0 0 0) (sample 10 10 2) 0
                                  [sample 5 5 4; sample 10 0 3] 1))
  /\ is_nan 0 = false
  /\ Forall no_nan (fst (BuildHalfHull (sample 0 0 0) (sample 10 10 2) 0
                                       [sample 5 5 4; sample 10 0 3] 1)).
Proof.
  assert (L : 3 <= length (fst (BuildHalfHull
                                  (sample 0 0 0) (sample 10 10 2) 0
                                  [sample 5 5 4; sample 10 0 3] 1)))
    by (vm_compute; lia).
  split; [exact L|].
  exact (BuildHalfHull_no_nan nat _ _ _ _ _ L).
Defined.

Lemma PruneInterior_nan_tolerance_witness :
  is_nan nan = true
  /\ PruneInterior square_and_centre nan
     = Some (true, [sample 0 0 0; sample 10 10 2])
  /\ exists p,
       PartitionPoints square_and_centre nan = Some p
       /\ upper_partition_points p = []
       /\ [sample 0 0 0; sample 10 10 2] = [left p; right p].
Proof.
  assert (T : is_nan nan = true) by reflexivity.
  assert (E : PruneInterior square_and_centre nan
              = Some (true, [sample 0 0 0; sample 10 10 2]))
    by (vm_compute; reflexivity).
  split; [exact T|]. split; [exact E|].
  exact (PruneInterior_nan_tolerance nat square_and_centre nan _ T E).
Defined.

Lemma PartitionPoints_first_of_location_witness :
  Forall no_nan with_duplicates
  /\ PartitionPoints with_duplicates 0 = Some with_duplicates_partition
  /\ let at_location_of e :=
       filter (fun y => negb (location_differs (GetLocation e)
                                               (GetLocation y)))
              with_duplicates in
     (exists rest,
        at_location_of (left with_duplicates_partition)
        = left with_duplicates_partition :: rest)
     /\ (exists rest,
           at_location_of (right with_duplicates_partition)
           = rest ++ [right with_duplicates_partition])
     /\ forall e,
          In e (upper_partition_points with_duplicates_partition)
          \/ In e (lower_partition_points with_duplicates_partition) ->
          exists rest, at_location_of e = e :: rest.
Proof.
  assert (N : Forall no_nan with_duplicates) by (repeat constructor).
  assert (E : PartitionPoints with_duplicates 0
              = Some with_duplicates_partition)
    by (vm_compute; reflexivity).
  split; [exact N|]. split; [exact E|].
  exact (PartitionPoints_first_of_location
           nat with_duplicates 0 with_duplicates_partition N E).
Defined.

Lemma Direction_coincident_witness :
  (location_differs (mkGeoPoint 0 0) (mkGeoPoint 3 4) = false
   \/ location_differs (mkGeoPoint 3 4) (mkGeoPoint 3 4) = false
   \/ location_differs (mkGeoPoint 0 0) (mkGeoPoint 3 4) = false)
  /\ Direction (mkGeoPoint 0 0) (mkGeoPoint 3 4) (mkGeoPoint 3 4) (-1) = 0%Z.
Proof.
  assert (D : location_differs (mkGeoPoint 0 0) (mkGeoPoint 3 4) = false
              \/ location_differs (mkGeoPoint 3 4) (mkGeoPoint 3 4) = false
              \/ location_differs (mkGeoPoint 0 0) (mkGeoPoint 3 4) = false)
    by (right; left; reflexivity).
  split; [exact D|].
  exact (Direction_coincident _ _ _ (-1) D).
Defined.

Lemma Direction_nan_witness :
  is_nan (longitude (mkGeoPoint 0 0)) || is_nan (latitude (mkGeoPoint 0 0))
  || is_nan (longitude (mkGeoPoint nan 0))
  || is_nan (latitude (mkGeoPoint nan 0))
  || is_nan (longitude (mkGeoPoint 1 1)) || is_nan (latitude (mkGeoPoint 1 1))
  || is_nan 0 = true
  /\ Direction (mkGeoPoint 0 0) (mkGeoPoint nan 0) (mkGeoPoint 1 1) 0 = 0%Z.
Proof.
  assert (H : is_nan (longitude (mkGeoPoint 0 0))
              || is_nan (latitude (mkGeoPoint 0 0))
              || is_nan (longitude (mkGeoPoint nan 0))
              || is_nan (latitude (mkGeoPoint nan 0))
              || is_nan (longitude (mkGeoPoint 1 1))
              || is_nan (latitude (mkGeoPoint 1 1))
              || is_nan 0 = true) by reflexivity.
  split; [exact H|].
  exact (Direction_nan _ _ _ 0 H).
Defined.

Lemma Sign_symmetric_witness :
  (2 <? 0)%float = false /\ Sign (- 5) 2 = (- Sign 5 2)%Z.
Proof.
  assert (T : (2 <? 0)%float = false) by reflexivity.
  split; [exact T|].
  exact (Sign_symmetric 5 2 T).
Defined.
